(** * Stacks decentralized exchange: pool discovery and quote engine

    A shallow embedding of [frontend/lib/amm.ts] (base-unit conversion,
    pool discovery, add-liquidity pre-flight) and of the swap estimator
    of the Swap component, together with the properties the
    specification states about them. *)

From Stdlib Require Import ZArith List String Ascii Bool Lia DecimalString DecimalPos.
From Stdlib Require Import SpecFloat.
Import ListNotations.
Open Scope string_scope.
Open Scope Z_scope.

(** ** JavaScript numbers as the code observes them

    The amounts a user types reach the library as JavaScript numbers.
    The code only observes a number through [Number.isFinite],
    [Number.isInteger], comparison with zero and [toString].  All of
    these are functions of the shortest decimal representation that
    ECMAScript's Number::toString is defined on: a non-zero finite
    number is [s * 10^(n-k)], where [s] is a positive integer with [k]
    decimal digits and no trailing zero. *)
Module Js.

Inductive Number : Type :=
| NaN
| Infinity (negative : bool)
| Zero (negative : bool)
| Finite (negative : bool) (s : positive) (n : Z).

(** [Number.isFinite(x)] *)
Definition isFinite (x : Number) : bool :=
  match x with
  | NaN | Infinity _ => false
  | Zero _ | Finite _ _ _ => true
  end.

(** [x < 0] *)
Definition ltZero (x : Number) : bool :=
  match x with
  | Infinity true | Finite true _ _ => true
  | _ => false
  end.

(** [x <= 0] *)
Definition leZero (x : Number) : bool :=
  match x with
  | Zero _ => true
  | _ => ltZero x
  end.

(** [x === 0]; both zeros are strictly equal to [0]. *)
Definition isZero (x : Number) : bool :=
  match x with
  | Zero _ => true
  | _ => false
  end.

(** The decimal digits of [s], most significant first. *)
Definition digits (s : positive) : string :=
  NilEmpty.string_of_uint (Pos.to_uint s).

(** [k]: the number of decimal digits of [s]. *)
Definition numDigits (s : positive) : Z := Z.of_nat (String.length (digits s)).

(** [s] has no trailing zero, so that [k] is as small as possible. *)
Definition shortest (x : Number) : bool :=
  match x with
  | Finite _ s _ => negb (Z.pos s mod 10 =? 0)
  | _ => true
  end.

(** [Number.isInteger(x)] on a shortest representation. *)
Definition isInteger (x : Number) : bool :=
  match x with
  | NaN | Infinity _ => false
  | Zero _ => true
  | Finite _ s n => numDigits s <=? n
  end.

(** The value of an integral number. *)
Definition toZ (x : Number) : Z :=
  match x with
  | Finite neg s n =>
      let v := Z.pos s * 10 ^ (n - numDigits s) in
      if neg then - v else v
  | _ => 0
  end.

Fixpoint zeros (n : nat) : string :=
  match n with
  | O => EmptyString
  | S m => String "0" (zeros m)
  end.

(** Decimal rendering of an integer, as in a template literal. *)
Definition showZ (z : Z) : string := NilZero.string_of_int (Z.to_int z).

Fixpoint take (n : nat) (s : string) : string :=
  match n, s with
  | S m, String c r => String c (take m r)
  | _, _ => EmptyString
  end.

Fixpoint drop (n : nat) (s : string) : string :=
  match n, s with
  | S m, String _ r => drop m r
  | _, _ => s
  end.

(** Number::toString for a positive finite number given by [(s, n)]. *)
Definition positiveToString (s : positive) (n : Z) : string :=
  let ds := digits s in
  let k := numDigits s in
  if (k <=? n) && (n <=? 21) then
    ds ++ zeros (Z.to_nat (n - k))
  else if (0 <? n) && (n <=? 21) then
    take (Z.to_nat n) ds ++ "." ++ drop (Z.to_nat n) ds
  else if (-6 <? n) && (n <=? 0) then
    "0." ++ zeros (Z.to_nat (- n)) ++ ds
  else
    let e := n - 1 in
    let sign := if 0 <=? e then "+" else "-" in
    let mant := if k =? 1 then ds else take 1 ds ++ "." ++ drop 1 ds in
    mant ++ "e" ++ sign ++ showZ (Z.abs e).

(** [x.toString()] *)
Definition toString (x : Number) : string :=
  match x with
  | NaN => "NaN"
  | Infinity neg => if neg then "-Infinity" else "Infinity"
  | Zero _ => "0"
  | Finite neg s n =>
      if neg then "-" ++ positiveToString s n else positiveToString s n
  end.

(** [str.split(sep)] for a one-character separator. *)
Fixpoint split (sep : ascii) (s : string) : list string :=
  match s with
  | EmptyString => [EmptyString]
  | String c r =>
      if Ascii.eqb c sep then EmptyString :: split sep r
      else match split sep r with
           | piece :: rest => String c piece :: rest
           | [] => [String c EmptyString]
           end
  end.

(** [str.padEnd(n, "0")] *)
Definition padEnd (n : nat) (s : string) : string :=
  s ++ zeros (n - String.length s).

(** [str.slice(0, n)] for [n >= 0]. *)
Definition slice0 (n : nat) (s : string) : string := take n s.

Definition isDigit (c : ascii) : bool :=
  let n := nat_of_ascii c in (48 <=? n)%nat && (n <=? 57)%nat.

Fixpoint allDigits (s : string) : bool :=
  match s with
  | EmptyString => true
  | String c r => isDigit c && allDigits r
  end.

Fixpoint digitsValue (acc : Z) (s : string) : Z :=
  match s with
  | EmptyString => acc
  | String c r => digitsValue (10 * acc + (Z.of_nat (nat_of_ascii c) - 48)) r
  end.

(** [BigInt(str)] on the strings the conversion can meet: a string of
    decimal digits is its value, the empty string is [0n], and a string
    holding any of [e], [+], [-] after its first digit is a SyntaxError
    ([None]). *)
Definition parseBigInt (s : string) : option Z :=
  if allDigits s then Some (digitsValue 0 s) else None.

(** [s || "0"] *)
Definition orZero (s : string) : string :=
  match s with
  | EmptyString => "0"
  | _ => s
  end.

End Js.

(** ** Base-unit conversion *)

Inductive Error : Type :=
| InvalidAmount          (* "Invalid amount: must be a non-negative number" *)
| InvalidDecimals        (* "Invalid token decimals" *)
| BigIntSyntaxError      (* SyntaxError raised by [BigInt(string)] *)
| InvalidDecimalsResponse (* thrown by [getTokenDecimals] *)
| ZeroAmount             (* "Cannot add liquidity with 0 amount" *)
| RatioError (idealAmount1Base : option Z) (* [None]: Infinity *)
| TooSmall               (* "Initial deposit too small. ..." *)
| PrincipalError (principal : string)  (* thrown by [principalCV] *)
| UIntError (value : Z).               (* thrown by [uintCV] *)

Inductive Result (A : Type) : Type :=
| Ok (a : A)
| Throw (e : Error).
Arguments Ok {A} a.
Arguments Throw {A} e.

Definition bind {A B : Type} (r : Result A) (f : A -> Result B) : Result B :=
  match r with
  | Ok a => f a
  | Throw e => Throw e
  end.

Notation "x <- c ;; k" := (bind c (fun x => k))
  (at level 61, c at next level, right associativity).

Definition fromOption {A : Type} (e : Error) (o : option A) : Result A :=
  match o with
  | Some a => Ok a
  | None => Throw e
  end.

(** The digit handling of [toBaseUnits] on [str = amount.toString()]
    for [d] decimals: split at the dot, pad and cut the fraction, and
    read both parts with [BigInt]. *)
Definition convertString (str : string) (d : nat) : Result Z :=
  let parts := Js.split "." str in
  let intPart := nth 0 parts EmptyString in
  let fracRaw := nth 1 parts EmptyString in
  let fracPart := Js.slice0 d (Js.padEnd d fracRaw) in
  let base := 10 ^ Z.of_nat d in
  i <- fromOption BigIntSyntaxError (Js.parseBigInt (Js.orZero intPart)) ;;
  f <- fromOption BigIntSyntaxError (Js.parseBigInt (Js.orZero fracPart)) ;;
  Ok (i * base + f).

(** [toBaseUnits(amount, decimals)] *)
Definition toBaseUnits (amount decimals : Js.Number) : Result Z :=
  if negb (Js.isFinite amount) || Js.ltZero amount then Throw InvalidAmount
  else if negb (Js.isInteger decimals) || Js.ltZero decimals then Throw InvalidDecimals
  else convertString (Js.toString amount) (Z.to_nat (Js.toZ decimals)).

(** The conversion the specification words describe: the value of
    [amount], truncated to [decimals] fractional digits, times
    [10^decimals]; that is, the floor of [value * 10^decimals]. *)
Definition truncatedBaseUnits (amount : Js.Number) (decimals : Z) : Z :=
  match amount with
  | Js.Finite false s n =>
      let e := n - Js.numDigits s + decimals in
      if 0 <=? e then Z.pos s * 10 ^ e else Z.pos s / 10 ^ (- e)
  | _ => 0
  end.

(** Some numbers: [12.345], [1.5e-7], [1.5e21], [6]. *)
Definition num_12_345 : Js.Number := Js.Finite false 12345 2.
Definition num_1_5em7 : Js.Number := Js.Finite false 15 (-6).
Definition num_1_5e21 : Js.Number := Js.Finite false 15 22.
Definition num_6 : Js.Number := Js.Finite false 6 1.

(** ** Double precision

    Where the code computes with numbers that hold integers (reserves,
    amounts converted from [BigInt]), the arithmetic is that of IEEE
    binary64, rounding to nearest, ties to even: the operations of the
    Standard Library's [SpecFloat]. *)
Module Double.

Definition prec : Z := 53.
Definition emax : Z := 1024.

(** The number holding the integer [n]: [Number(n)] for a BigInt [n],
    the nearest double. *)
Definition ofZ (n : Z) : spec_float := binary_normalize prec emax n 0 false.

Definition mul (x y : spec_float) : spec_float := SFmul prec emax x y.
Definition div (x y : spec_float) : spec_float := SFdiv prec emax x y.
Definition sqrt (x : spec_float) : spec_float := SFsqrt prec emax x.

(** [Math.floor(x)] as an integer; [None] for NaN and the infinities. *)
Definition floor (x : spec_float) : option Z :=
  match x with
  | S754_zero _ => Some 0
  | S754_finite s m e =>
      let v := if s then Z.neg m else Z.pos m in
      Some (if 0 <=? e then v * 2 ^ e else v / 2 ^ (- e))
  | S754_infinity _ | S754_nan => None
  end.

(** [Math.floor(x)] as a number: NaN and the infinities are kept. *)
Definition floorNumber (x : spec_float) : spec_float :=
  match floor x with
  | Some n => ofZ n
  | None => x
  end.

(** [x < y]; false when either is NaN. *)
Definition ltb (x y : spec_float) : bool := SFltb x y.

(** A mantissa of 53 bits. *)
Definition normal (m : positive) : Prop := 2 ^ 52 <= Z.pos m < 2 ^ 53.

(** The double that holds a positive integer of at most 53 bits: the
    integer shifted to a mantissa of 53 bits. *)
Definition exactForm (a : Z) : spec_float :=
  S754_finite false (Z.to_pos (a * 2 ^ (53 - Zdigits2 a))) (Zdigits2 a - 53).

(** The last stage of a rounding to nearest: a mantissa of 53 bits is
    kept, the mantissa [2^53] is renormalised, and an exponent above
    the largest gives infinity. *)
Definition finish (m2 e1 : Z) : spec_float :=
  if m2 <? 2 ^ 53
  then if e1 <=? 971 then S754_finite false (Z.to_pos m2) e1 else S754_infinity false
  else if e1 + 1 <=? 971 then S754_finite false (Z.to_pos (2 ^ 52)) (e1 + 1)
       else S754_infinity false.

End Double.

(** ** Pools *)

(** The [Pool] record of [amm.ts].  Its numeric fields hold the
    integral values read from the ledger. *)
Record Pool : Type := mkPool {
  id : string;
  token0 : string;
  token1 : string;
  fee : Z;
  liquidity : Z;
  balance0 : Z;
  balance1 : Z
}.

(** ** Swap estimator (Swap component) *)

(** BigInt division truncates toward zero. *)
Definition bigDiv (a b : Z) : Z := Z.quot a b.

(** [k = x * y] *)
Definition swapK (pool : Pool) : Z := balance0 pool * balance1 pool.

(** [term = k / xPlus] (resp. [k / yPlus]) *)
Definition swapTerm (pool : Pool) (zeroForOne : bool) (deltaBaseUnits : Z) : Z :=
  if zeroForOne then bigDiv (swapK pool) (balance0 pool + deltaBaseUnits)
  else bigDiv (swapK pool) (balance1 pool + deltaBaseUnits).

(** [output = y - term] (resp. [x - term]): the output before fees. *)
Definition swapRawOutput (pool : Pool) (zeroForOne : bool) (deltaBaseUnits : Z) : Z :=
  if zeroForOne then balance1 pool - swapTerm pool zeroForOne deltaBaseUnits
  else balance0 pool - swapTerm pool zeroForOne deltaBaseUnits.

(** [fees = (output * feeNumerator) / feeDenom] *)
Definition swapFees (pool : Pool) (output : Z) : Z :=
  bigDiv (output * fee pool) 10000.

(** What the estimator shows: the state set through
    [setEstimatedToAmount], [setDisabledReason] and [setSelectedPoolFee]. *)
Record SwapView : Type := mkSwapView {
  estimatedToAmount : Z;
  disabledReason : option string;
  selectedPoolFee : option Z
}.

Definition setEstimate (v : SwapView) (amount : Z) (reason : option string) : SwapView :=
  {| estimatedToAmount := amount;
     disabledReason := reason;
     selectedPoolFee := selectedPoolFee v |}.

(** The tail of [estimateSwapOutput], from [let output: bigint] on: the
    quote for an input already converted to base units.  The result is
    the estimated amount and the disabled reason. *)
Definition estimateFromBaseUnits (pool : Pool) (zeroForOne : bool)
    (deltaBaseUnits : Z) : Z * option string :=
  let side := if zeroForOne then balance0 pool else balance1 pool in
  if side + deltaBaseUnits <=? 0 then (0, Some "Invalid pool state for swap")
  else
    let output := swapRawOutput pool zeroForOne deltaBaseUnits in
    if output <=? 0 then (0, Some "Output is zero; try a larger amount")
    else
      let outputAfterFees := output - swapFees pool output in
      if 0 <? outputAfterFees then (outputAfterFees, None)
      else (0, Some "Output becomes zero after fees").

(** The amount shown for a raw output [output] of pool [pool]. *)
Definition afterFees (pool : Pool) (output : Z) : Z :=
  if output <=? 0 then 0
  else if 0 <? output - swapFees pool output then output - swapFees pool output
  else 0.

(** [selectBestPool(ft, tt, poolsList)].  The comparator orders by
    reserve product (a product of doubles), larger first, then by fee,
    smaller first; the sort is stable, so the head of the sorted array
    is the first pool that no other pool beats. *)
Definition matchesPair (ft tt : string) (p : Pool) : bool :=
  ((token0 p =? ft)%string && (token1 p =? tt)%string)
  || ((token0 p =? tt)%string && (token1 p =? ft)%string).

Definition hasReserves (p : Pool) : bool :=
  (0 <? balance0 p) && (0 <? balance1 p).

(** [(a["balance-0"] || 0) * (a["balance-1"] || 0)]: a product of
    doubles. *)
Definition reserveProduct (p : Pool) : spec_float :=
  Double.mul (Double.ofZ (balance0 p)) (Double.ofZ (balance1 p)).

(** The comparator of the sort, [bProd - aProd] when the products
    differ and [a.fee - b.fee] otherwise; negative when [a] goes first.
    Of the difference of the products only the sign matters to the
    sort, and it is the sign of their comparison; a difference that is
    NaN counts as 0. *)
Definition comparePools (a b : Pool) : Z :=
  match SFcompare (reserveProduct b) (reserveProduct a) with
  | Some Eq => fee a - fee b
  | Some Lt => -1
  | Some Gt => 1
  | None => 0
  end.

(** Insertion of [p], which preceded every pool of [sorted] in the
    array: [p] stays ahead of the pools it ties with. *)
Fixpoint insertSorted (p : Pool) (sorted : list Pool) : list Pool :=
  match sorted with
  | [] => [p]
  | q :: rest =>
      if comparePools q p <? 0 then q :: insertSorted p rest
      else p :: q :: rest
  end.

Definition sortPools (l : list Pool) : list Pool :=
  fold_right insertSorted [] l.

Definition selectBestPool (ft tt : string) (poolsList : list Pool) : option Pool :=
  let pairPools := filter (matchesPair ft tt) poolsList in
  match pairPools with
  | [] => None
  | first :: _ =>
      let withReserves := filter hasReserves pairPools in
      let candidates := match withReserves with [] => pairPools | _ => withReserves end in
      match sortPools candidates with
      | best :: _ => Some best
      | [] => Some first
      end
  end.

Section Estimator.

(** [getTokenDecimals(token)]: a read-only call to the token contract;
    it yields the decimals or throws. *)
Variable getTokenDecimals : string -> Result Js.Number.

(** [estimateSwapOutput()], with the component state it reads
    ([pools], [fromToken], [toToken], [fromAmount]) as arguments.  It
    returns the view after the setters have run and the error, if any,
    with which the asynchronous function rejects. *)
Definition estimateSwapOutput (pools : list Pool) (fromToken toToken : string)
    (fromAmount : Js.Number) (view : SwapView) : SwapView * option Error :=
  match selectBestPool fromToken toToken pools with
  | None =>
      ({| estimatedToAmount := 0;
          disabledReason := Some "No pool exists for the selected pair";
          selectedPoolFee := None |}, None)
  | Some pool =>
      let view := {| estimatedToAmount := estimatedToAmount view;
                     disabledReason := disabledReason view;
                     selectedPoolFee := Some (fee pool) |} in
      if negb (Js.isFinite fromAmount) || Js.leZero fromAmount then
        (setEstimate view 0 (Some "Enter a positive amount"), None)
      else
        let zeroForOne := (fromToken =? token0 pool)%string in
        let x := balance0 pool in
        let y := balance1 pool in
        if (x <=? 0) || (y <=? 0) then
          (setEstimate view 0 (Some "Pool has zero reserves"), None)
        else
          match (fromDecimals <- getTokenDecimals fromToken ;;
                 toBaseUnits fromAmount fromDecimals) with
          | Throw e => (view, Some e)
          | Ok deltaBaseUnits =>
              if deltaBaseUnits <=? 0 then
                (setEstimate view 0 (Some "Amount too small after decimals conversion"), None)
              else
                let (amount, reason) := estimateFromBaseUnits pool zeroForOne deltaBaseUnits in
                (setEstimate view amount reason, None)
          end
  end.

End Estimator.

(** ** Add-liquidity pre-flight *)

(** Arguments of a contract call: [principalCV(..)] and [uintCV(..)]. *)
Inductive ClarityArg : Type :=
| PrincipalArg (principal : string)
| UIntArg (value : Z).

(** The transaction call options the library functions return; the
    contract address and name are the same constants in all of them. *)
Record CallOptions : Type := mkCallOptions {
  functionName : string;
  functionArgs : list ClarityArg
}.

(** The read-only calls a run performs, in order. *)
Inductive Call : Type :=
| GetDecimals (token : string).

(** [MINIMUM_LIQUIDITY], "mirrors contract constant". *)
Definition MINIMUM_LIQUIDITY : Z := 1000.

(** [Math.floor(Math.sqrt(Number(amount0Base) * Number(amount1Base)))];
    [None] when it is NaN or infinite. *)
Definition sqrtProduct (amount0Base amount1Base : Z) : option Z :=
  Double.floor (Double.sqrt (Double.mul (Double.ofZ amount0Base)
                                        (Double.ofZ amount1Base))).

(** [sqrtProduct <= MINIMUM_LIQUIDITY]: false for NaN and for positive
    infinity (a square root is never negative infinity). *)
Definition tooSmall (amount0Base amount1Base : Z) : bool :=
  match sqrtProduct amount0Base amount1Base with
  | Some v => v <=? MINIMUM_LIQUIDITY
  | None => false
  end.

(** [poolRatio = pool["balance-0"] / pool["balance-1"]] *)
Definition poolRatio (pool : Pool) : spec_float :=
  Double.div (Double.ofZ (balance0 pool)) (Double.ofZ (balance1 pool)).

(** [idealAmount1Base = Math.floor(Number(amount0Base) / poolRatio)] *)
Definition idealAmount1Base (pool : Pool) (amount0Base : Z) : spec_float :=
  Double.floorNumber (Double.div (Double.ofZ amount0Base) (poolRatio pool)).

(** The pre-flight check of [addLiquidity] on amounts in base units:
    for a pool with liquidity, [Number(amount1Base) < idealAmount1Base]
    throws the ratio error, which names the ideal amount; for a pool
    without, [sqrtProduct <= MINIMUM_LIQUIDITY] throws the too-small
    error. *)
Definition preflight (pool : Pool) (amount0Base amount1Base : Z) : Result unit :=
  if 0 <? liquidity pool then
    let ideal := idealAmount1Base pool amount0Base in
    if Double.ltb (Double.ofZ amount1Base) ideal
    then Throw (RatioError (Double.floor ideal))
    else Ok tt
  else
    if tooSmall amount0Base amount1Base then Throw TooSmall
    else Ok tt.

Section AddLiquidity.

Variable getTokenDecimals : string -> Result Js.Number.

(** [principalCV] and [uintCV] of the Stacks library accept the
    argument; otherwise they throw. *)
Variable validPrincipal : string -> bool.
Variable validUInt : Z -> bool.

Definition principalCV (principal : string) : Result ClarityArg :=
  if validPrincipal principal then Ok (PrincipalArg principal)
  else Throw (PrincipalError principal).

Definition uintCV (value : Z) : Result ClarityArg :=
  if validUInt value then Ok (UIntArg value) else Throw (UIntError value).

(** [addLiquidity(pool, amount0, amount1)]: the calls performed and the
    options returned or the error thrown. *)
Definition addLiquidity (pool : Pool) (amount0 amount1 : Js.Number)
    : list Call * Result CallOptions :=
  if Js.isZero amount0 || Js.isZero amount1 then ([], Throw ZeroAmount)
  else
    match getTokenDecimals (token0 pool) with
    | Throw e => ([GetDecimals (token0 pool)], Throw e)
    | Ok dec0 =>
        let calls := [GetDecimals (token0 pool); GetDecimals (token1 pool)] in
        match getTokenDecimals (token1 pool) with
        | Throw e => (calls, Throw e)
        | Ok dec1 =>
            (calls,
             amount0Base <- toBaseUnits amount0 dec0 ;;
             amount1Base <- toBaseUnits amount1 dec1 ;;
             _ <- preflight pool amount0Base amount1Base ;;
             arg0 <- principalCV (token0 pool) ;;
             arg1 <- principalCV (token1 pool) ;;
             arg2 <- uintCV (fee pool) ;;
             arg3 <- uintCV amount0Base ;;
             arg4 <- uintCV amount1Base ;;
             arg5 <- uintCV 0 ;;
             arg6 <- uintCV 0 ;;
             Ok {| functionName := "add-liquidity";
                   functionArgs := [arg0; arg1; arg2; arg3; arg4; arg5; arg6] |})
        end
    end.

End AddLiquidity.

(** A pool without liquidity. *)
Definition emptyPool : Pool :=
  {| id := "0x03"; token0 := "T.a"; token1 := "T.b"; fee := 500;
     liquidity := 0; balance0 := 0; balance1 := 0 |}.

(** A pool with liquidity and reserves [(3, 17)], and one whose first
    reserve is empty. *)
Definition ratioPool : Pool :=
  {| id := "0x06"; token0 := "T.a"; token1 := "T.b"; fee := 500;
     liquidity := 7; balance0 := 3; balance1 := 17 |}.
Definition drainedPool : Pool :=
  {| id := "0x07"; token0 := "T.a"; token1 := "T.b"; fee := 500;
     liquidity := 7; balance0 := 0; balance1 := 5 |}.

(** What [principalCV] accepts here: a Stacks address, a dot and a
    contract name; and what [uintCV] accepts: an integer of 128 bits. *)
Definition acceptsPrincipal (principal : string) : bool :=
  match Js.split "." principal with
  | [address; name] =>
      (String.length address =? 41)%nat && negb (String.length name =? 0)%nat
  | _ => false
  end.
Definition acceptsUInt (value : Z) : bool :=
  (0 <=? value) && (value <? 2 ^ 128).

(** The number [900]. *)
Definition num_900 : Js.Number := Js.Finite false 9 3.

(** ** Pool discovery *)

Definition AMM_CONTRACT_ADDRESS : string := "ST19JE8EPR84AJ8Z30B5ZB08WXTB6FC2SQHT4K9RM".
Definition AMM_CONTRACT_NAME : string := "amm-v2".
Definition AMM_CONTRACT_PRINCIPAL : string :=
  AMM_CONTRACT_ADDRESS ++ "." ++ AMM_CONTRACT_NAME.

(** An entry of the event log ([ContractEvent], with [contract_log]
    flattened). *)
Record ContractEvent : Type := mkEvent {
  event_index : Z;
  event_type : string;
  tx_id : string;
  contract_id : string;
  topic : string;
  value_hex : string
}.

(** The payload of a create-pool print: the fields the scan reads from
    the inner [data] tuple, the reserve fields being 0 where the payload
    has none. *)
Record CreatePoolData : Type := mkCreatePoolData {
  evToken0 : string;
  evToken1 : string;
  evFee : Z;
  evLiquidity : Z;
  evBalance0 : Z;
  evBalance1 : Z
}.

(** The outcome of one page request: the transport failed (the
    response is not ok, or fetching, parsing or reading the page threw
    before any entry was handled), or a page of entries arrived. *)
Inductive FetchResult : Type :=
| FetchFailed
| FetchOk (events : list ContractEvent).

(** The world outside the library: the Stacks libraries and the ledger.
    - [principalHex t] is [cvToHex(principalCV(t))], [None] when
      [principalCV] throws;
    - [fetchEvents offset] is the answer to the page request at [offset];
    - [decodeCreatePool hex] is the payload when the log value decodes
      to a tuple whose action is "create-pool" with an inner data
      object, [None] when the entry is skipped or decoding throws;
    - [getPoolId t0 t1 fee] is the buffer value the read-only call
      [get-pool-id] yields, [None] when the call throws or the answer,
      unwrapped, is not a buffer;
    - [getPoolData id] is [(liquidity, balance0, balance1)] of the
      read-only call [get-pool-data], [None] when the call throws or
      the answer, unwrapped, is not a tuple;
    - [poolExists t0 t1 fee] tells whether [pool-exists] answered true.
    A run sees one state of the ledger: a call repeated with the same
    arguments gets the same answer. *)
Record World : Type := mkWorld {
  principalHex : string -> option string;
  fetchEvents : Z -> FetchResult;
  decodeCreatePool : string -> option CreatePoolData;
  getPoolId : string -> string -> Z -> option string;
  getPoolData : string -> option (Z * Z * Z);
  poolExists : string -> string -> Z -> bool
}.

(** [a > b] on strings. *)
Definition stringGt (a b : string) : bool :=
  match String.compare a b with
  | Gt => true
  | _ => false
  end.

Definition isHexChar (c : ascii) : bool :=
  let n := nat_of_ascii c in
  ((48 <=? n)%nat && (n <=? 57)%nat)
  || ((97 <=? n)%nat && (n <=? 102)%nat)
  || ((65 <=? n)%nat && (n <=? 70)%nat).

Fixpoint allHex (s : string) : bool :=
  match s with
  | EmptyString => true
  | String c r => isHexChar c && allHex r
  end.

(** [isHexId(id)]: after an optional "0x", one or more hex digits. *)
Definition isHexId (id : string) : bool :=
  let s := match id with
           | String "0" (String "x" r) => r
           | _ => id
           end in
  allHex s && negb (String.length s =? 0)%nat.

(** The key of the maps of [getAllPools]:
    [`${p["token-0"]}|${p["token-1"]}|${p.fee}`]. *)
Definition poolKey (p : Pool) : string :=
  token0 p ++ "|" ++ token1 p ++ "|" ++ Js.showZ (fee p).

(** [looksFallback] of the merge pass. *)
Definition looksFallback (p : Pool) : bool :=
  negb (isHexId (id p)) || ((balance0 p =? 0) && (balance1 p =? 0)).

(** A [Map<string, Pool>]: entries in insertion order, [set] on a key
    already present replaces its value in place. *)
Definition PoolMap : Type := list (string * Pool).

Fixpoint mapGet (key : string) (m : PoolMap) : option Pool :=
  match m with
  | [] => None
  | (k, v) :: rest => if (k =? key)%string then Some v else mapGet key rest
  end.

Fixpoint mapSet (key : string) (value : Pool) (m : PoolMap) : PoolMap :=
  match m with
  | [] => [(key, value)]
  | (k, v) :: rest =>
      if (k =? key)%string then (k, value) :: rest
      else (k, v) :: mapSet key value rest
  end.

Definition mapValues (m : PoolMap) : list Pool := map snd m.

Definition optionToList {A : Type} (o : option A) : list A :=
  match o with
  | Some a => [a]
  | None => []
  end.

(** The tokens and fees [getAllPoolsDirect] probes. *)
Definition knownTokens : list string :=
  [ "ST19JE8EPR84AJ8Z30B5ZB08WXTB6FC2SQHT4K9RM.mock-token";
    "ST19JE8EPR84AJ8Z30B5ZB08WXTB6FC2SQHT4K9RM.mock-token-2";
    "ST19JE8EPR84AJ8Z30B5ZB08WXTB6FC2SQHT4K9RM.mock-token-3";
    "ST19JE8EPR84AJ8Z30B5ZB08WXTB6FC2SQHT4K9RM.mock-token-4";
    "ST19JE8EPR84AJ8Z30B5ZB08WXTB6FC2SQHT4K9RM.mock-token-5";
    "ST19JE8EPR84AJ8Z30B5ZB08WXTB6FC2SQHT4K9RM.mock-token-6" ].

Definition knownFees : list Z := [500].

(** The pairs [(tokens[i], tokens[j])] with [i < j], in loop order. *)
Fixpoint pairsOf (tokens : list string) : list (string * string) :=
  match tokens with
  | [] => []
  | a :: rest => (map (fun b => (a, b)) rest ++ pairsOf rest)%list
  end.

(** Every [(token0, token1, fee)] the direct sweep probes, in the order
    of its loops: each pair, each fee, both token orders. *)
Definition directProbes : list (string * string * Z) :=
  flat_map (fun ab : string * string =>
    flat_map (fun fee : Z =>
      [(fst ab, snd ab, fee); (snd ab, fst ab, fee)]) knownFees)
    (pairsOf knownTokens).

Section Discovery.

Variable w : World.

(** Canonical order of a token pair by the hex of the principals, as in
    [createPool] and [resolvePoolByPair]; [None] when [principalCV]
    throws. *)
Definition canonicalPair (token0 token1 : string) : option (string * string) :=
  match principalHex w token0 with
  | None => None
  | Some t0Hex =>
      match principalHex w token1 with
      | None => None
      | Some t1Hex =>
          if stringGt t0Hex t1Hex then Some (token1, token0)
          else Some (token0, token1)
      end
  end.

(** The canonicalization of the event scan: "fall back to event order
    if principal parsing fails". *)
Definition canonicalOrEventOrder (token0 token1 : string) : string * string :=
  match canonicalPair token0 token1 with
  | Some canon => canon
  | None => (token0, token1)
  end.

(** [createPool(token0, token1, fee)]; a failing [principalCV] is not
    caught here. *)
Definition createPool (token0 token1 : string) (fee : Z) : option CallOptions :=
  match canonicalPair token0 token1 with
  | None => None
  | Some (t0, t1) =>
      Some {| functionName := "create-pool";
              functionArgs := [PrincipalArg t0; PrincipalArg t1; UIntArg fee] |}
  end.

(** The read chain shared by the scan, the direct sweep and
    [resolvePoolByPair]: the identifier lookup, then the state fetch. *)
Definition readPool (token0 token1 : string) (fee : Z) : option Pool :=
  match getPoolId w token0 token1 fee with
  | None => None
  | Some poolId =>
      match getPoolData w poolId with
      | None => None
      | Some (liq, b0, b1) =>
          Some {| id := poolId; token0 := token0; token1 := token1; fee := fee;
                  liquidity := liq; balance0 := b0; balance1 := b1 |}
      end
  end.

(** [resolvePoolByPair(token0In, token1In, fee)] *)
Definition resolvePoolByPair (token0In token1In : string) (fee : Z) : option Pool :=
  match canonicalPair token0In token1In with
  | None => None
  | Some (token0, token1) => readPool token0 token1 fee
  end.

(** One iteration of the innermost loop of [getAllPoolsDirect]. *)
Definition directProbe (probe : string * string * Z) : option Pool :=
  let '(token0, token1, fee) := probe in
  if poolExists w token0 token1 fee then readPool token0 token1 fee else None.

(** [getAllPoolsDirect()] *)
Definition getAllPoolsDirect : list Pool :=
  flat_map (fun probe => optionToList (directProbe probe)) directProbes.

(** The filter of a page: contract logs of the AMM contract with the
    print topic. *)
Definition isPrintEvent (event : ContractEvent) : bool :=
  (event_type event =? "smart_contract_log")%string
  && (contract_id event =? AMM_CONTRACT_PRINCIPAL)%string
  && (topic event =? "print")%string.

(** The body of the loop over the filtered events: the pool pushed for
    the event, if any. *)
Definition processEvent (event : ContractEvent) : option Pool :=
  match decodeCreatePool w (value_hex event) with
  | None => None
  | Some data =>
      let token0 := evToken0 data in
      let token1 := evToken1 data in
      let fee := evFee data in
      let (canon0, canon1) := canonicalOrEventOrder token0 token1 in
      match readPool canon0 canon1 fee with
      | Some poolBuilt => Some poolBuilt
      | None =>
          let b0 := evBalance0 data in
          let b1 := evBalance1 data in
          let balances := if (canon0 =? token0)%string then (b0, b1) else (b1, b0) in
          let poolBuilt :=
            {| id := canon0 ++ "-" ++ canon1 ++ "-" ++ Js.showZ fee;
               token0 := canon0; token1 := canon1; fee := fee;
               liquidity := evLiquidity data;
               balance0 := fst balances; balance1 := snd balances |} in
          match resolvePoolByPair canon0 canon1 fee with
          | Some resolved => Some resolved
          | None => Some poolBuilt
          end
      end
  end.

Definition processPage (events : list ContractEvent) : list Pool :=
  flat_map (fun event => optionToList (processEvent event))
           (filter isPrintEvent events).

(** The pagination loop of [getAllPools]: [requests] logs the offsets
    of the page requests issued so far, [pools] is the array being
    filled.  [None] when [fuel] iterations do not reach the end of the
    loop. *)
Fixpoint scanEvents (fuel : nat) (offset : Z) (requests : list Z)
    (pools : list Pool) : option (list Z * list Pool) :=
  match fuel with
  | O => None
  | S fuel' =>
      match fetchEvents w offset with
      | FetchFailed => Some ((requests ++ [offset])%list, pools)
      | FetchOk events =>
          let pools' := (pools ++ processPage events)%list in
          if (List.length events <? 50)%nat
          then Some ((requests ++ [offset])%list, pools')
          else scanEvents fuel' (offset + 50) (requests ++ [offset])%list pools'
      end
  end.

(** The merge pass: [directByPair] indexes the direct pools by key, and
    a scanned entry that looks like a fallback is replaced by the direct
    pool with the same key. *)
Definition directByPair (directPools : list Pool) : PoolMap :=
  fold_left (fun m dp => mapSet (poolKey dp) dp m) directPools [].

Definition mergeOne (directPools : list Pool) (p : Pool) : Pool :=
  match mapGet (poolKey p) (directByPair directPools) with
  | Some dp => if looksFallback p then dp else p
  | None => p
  end.

Definition mergeDirect (directPools pools : list Pool) : list Pool :=
  map (mergeOne directPools) pools.

(** The deduplication pass: one entry per key, an entry with a hex id
    replacing one without. *)
Definition dedupeStep (byPair : PoolMap) (p : Pool) : PoolMap :=
  match mapGet (poolKey p) byPair with
  | None => mapSet (poolKey p) p byPair
  | Some existing =>
      if isHexId (id p) && negb (isHexId (id existing))
      then mapSet (poolKey p) p byPair
      else byPair
  end.

Definition dedupe (pools : list Pool) : list Pool :=
  mapValues (fold_left dedupeStep pools []).

(** The final fix-up pass: an entry whose id is not hex is resolved by
    a direct read and replaced when the read succeeds. *)
Definition fixOne (p : Pool) : Pool :=
  if negb (isHexId (id p)) then
    match resolvePoolByPair (token0 p) (token1 p) (fee p) with
    | Some resolved => resolved
    | None => p
    end
  else p.

Definition fixUp (deduped : list Pool) : list Pool := map fixOne deduped.

(** [getAllPools()], run with [fuel] iterations of the pagination loop
    at most. *)
Definition getAllPools (fuel : nat) : option (list Pool) :=
  match scanEvents fuel 0 [] [] with
  | None => None
  | Some (_, pools) =>
      match pools with
      | [] => Some getAllPoolsDirect
      | _ => Some (fixUp (dedupe (mergeDirect getAllPoolsDirect pools)))
      end
  end.

(** The offsets of the page requests of a run. *)
Definition pageRequests (fuel : nat) : option (list Z) :=
  option_map fst (scanEvents fuel 0 [] []).

End Discovery.

(** ** Predicates on records *)

(** Reserves that are zero on exactly one side. *)
Definition inconsistentReserves (p : Pool) : bool :=
  xorb (balance0 p =? 0) (balance1 p =? 0).

(** The pool key of the specification: the canonical token pair and the
    fee. *)
Definition canonicalKey (w : World) (p : Pool) : string * string * Z :=
  (canonicalOrEventOrder w (token0 p) (token1 p), fee p).

(** The encodings of the two principals of a pair. *)
Definition pairHex (w : World) (pair : string * string)
    : option string * option string :=
  (principalHex w (fst pair), principalHex w (snd pair)).

(** The key as the record carries it. *)
Definition recordKey (p : Pool) : string * string * Z :=
  (token0 p, token1 p, fee p).

(** A record carries its pair in canonical order (or its tokens do not
    parse as principals). *)
Definition inCanonicalOrder (w : World) (p : Pool) : Prop :=
  canonicalOrEventOrder w (token0 p) (token1 p) = (token0 p, token1 p).

(** The number of separators ["|"] in a string. *)
Fixpoint bars (s : string) : nat :=
  match s with
  | EmptyString => O
  | String c r => if Ascii.eqb c "|" then S (bars r) else bars r
  end.

Definition probeKey (probe : string * string * Z) : string :=
  let '(t0, t1, f) := probe in t0 ++ "|" ++ t1 ++ "|" ++ Js.showZ f.

Definition barFree (probe : string * string * Z) : bool :=
  let '(t0, t1, f) := probe in
  (bars t0 =? 0)%nat && (bars t1 =? 0)%nat && (bars (Js.showZ f) =? 0)%nat.

Fixpoint memString (x : string) (l : list string) : bool :=
  match l with
  | [] => false
  | y :: r => (x =? y)%string || memString x r
  end.

Fixpoint distinctStrings (l : list string) : bool :=
  match l with
  | [] => true
  | x :: r => negb (memString x r) && distinctStrings r
  end.

(** Every entry of a map sits under the key of its record. *)
Definition keyed (m : PoolMap) : Prop :=
  Forall (fun kv => poolKey (snd kv) = fst kv) m.

(** ** Worlds used in the examples *)

Definition tokenA : string := "ST19JE8EPR84AJ8Z30B5ZB08WXTB6FC2SQHT4K9RM.mock-token".
Definition tokenB : string := "ST19JE8EPR84AJ8Z30B5ZB08WXTB6FC2SQHT4K9RM.mock-token-2".

(** A print event of the AMM contract with log value [hex]. *)
Definition printEvent (hex : string) : ContractEvent :=
  {| event_index := 0; event_type := "smart_contract_log"; tx_id := "0x00";
     contract_id := AMM_CONTRACT_PRINCIPAL; topic := "print"; value_hex := hex |}.

(** A log of 62 entries served in pages of 50: 50 entries at offset 0,
    12 at offset 50; no entry is a create-pool print and no pool exists. *)
Definition pagedWorld : World :=
  {| principalHex := fun t => Some t;
     fetchEvents := fun offset =>
       if offset =? 0 then FetchOk (repeat (printEvent "0x03") 50)
       else if offset =? 50 then FetchOk (repeat (printEvent "0x03") 12)
       else FetchOk [];
     decodeCreatePool := fun _ => None;
     getPoolId := fun _ _ _ => None;
     getPoolData := fun _ => None;
     poolExists := fun _ _ _ => false |}.

(** No event is logged; the ledger answers [pool-exists] with true for
    the pair (mock-token, mock-token-2) at fee 500 in both token orders
    and serves an identifier and a state for each. *)
Definition bothOrdersWorld : World :=
  {| principalHex := fun t => Some t;
     fetchEvents := fun _ => FetchOk [];
     decodeCreatePool := fun _ => None;
     getPoolId := fun t0 t1 f =>
       if (t0 =? tokenA)%string && (t1 =? tokenB)%string && (f =? 500) then Some "0x0a"
       else if (t0 =? tokenB)%string && (t1 =? tokenA)%string && (f =? 500) then Some "0x0b"
       else None;
     getPoolData := fun i =>
       if (i =? "0x0a")%string then Some (1000, 40000, 50000)
       else if (i =? "0x0b")%string then Some (1000, 50000, 40000)
       else None;
     poolExists := fun t0 t1 f =>
       ((t0 =? tokenA)%string && (t1 =? tokenB)%string && (f =? 500))
       || ((t0 =? tokenB)%string && (t1 =? tokenA)%string && (f =? 500)) |}.

(** One create-pool print for (mock-token, mock-token-2) at fee 500 is
    logged; the ledger serves the identifier 0x0a for the pair and a
    state with reserves (0, 7). *)
Definition lopsidedWorld : World :=
  {| principalHex := fun t => Some t;
     fetchEvents := fun offset =>
       if offset =? 0 then FetchOk [printEvent "0x0c"] else FetchOk [];
     decodeCreatePool := fun hex =>
       if (hex =? "0x0c")%string then
         Some {| evToken0 := tokenA; evToken1 := tokenB; evFee := 500;
                 evLiquidity := 0; evBalance0 := 0; evBalance1 := 0 |}
       else None;
     getPoolId := fun t0 t1 f =>
       if (t0 =? tokenA)%string && (t1 =? tokenB)%string && (f =? 500) then Some "0x0a"
       else None;
     getPoolData := fun i =>
       if (i =? "0x0a")%string then Some (1000, 0, 7) else None;
     poolExists := fun _ _ _ => false |}.

Definition lopsidedPool : Pool :=
  {| id := "0x0a"; token0 := tokenA; token1 := tokenB; fee := 500;
     liquidity := 1000; balance0 := 0; balance1 := 7 |}.



(** The reads of the direct sweep yield a pool for at most one order of
    a pair of tokens. *)
Definition oneOrderLedger (w : World) : Prop :=
  forall token0 token1 fee, token0 <> token1 ->
    directProbe w (token0, token1, fee) = None
    \/ directProbe w (token1, token0, fee) = None.



(** One create-pool print for (mock-token, mock-token-2) at fee 500 is
    logged, whose payload carries the reserves (7, 0); the reads yield
    no pool identifier. *)
Definition payloadWorld : World :=
  {| principalHex := fun t => Some t;
     fetchEvents := fun offset =>
       if offset =? 0 then FetchOk [printEvent "0x0c"] else FetchOk [];
     decodeCreatePool := fun hex =>
       if (hex =? "0x0c")%string then
         Some {| evToken0 := tokenA; evToken1 := tokenB; evFee := 500;
                 evLiquidity := 7; evBalance0 := 7; evBalance1 := 0 |}
       else None;
     getPoolId := fun _ _ _ => None;
     getPoolData := fun _ => None;
     poolExists := fun _ _ _ => false |}.

Definition payloadPool : Pool :=
  {| id := tokenA ++ "-" ++ tokenB ++ "-500";
     token0 := tokenA; token1 := tokenB; fee := 500;
     liquidity := 7; balance0 := 7; balance1 := 0 |}.

(** Two pools for the same pair with equal reserve products and fees
    30 and 5, and the deeper pool of the scenario. *)
Definition tiePoolA : Pool :=
  {| id := "0x04"; token0 := "T.a"; token1 := "T.b"; fee := 30;
     liquidity := 10; balance0 := 200; balance1 := 300 |}.
Definition tiePoolB : Pool :=
  {| id := "0x05"; token0 := "T.a"; token1 := "T.b"; fee := 5;
     liquidity := 10; balance0 := 300; balance1 := 200 |}.

(** The pool of the specification's scenario: reserves
    [(1_000_000, 1_000_000)], fee [500]. *)
Definition scenarioPool : Pool :=
  {| id := "0x01"; token0 := "T.a"; token1 := "T.b"; fee := 500;
     liquidity := 1000000; balance0 := 1000000; balance1 := 1000000 |}.

(** A shallow pool: reserves [(1_000_000, 100)], fee [30]. *)
Definition shallowPool : Pool :=
  {| id := "0x02"; token0 := "T.a"; token1 := "T.b"; fee := 30;
     liquidity := 10000; balance0 := 1000000; balance1 := 100 |}.


(** * Further parts of the library and of the Swap component *)

(** ** Token lists of the Swap component *)

(** [acc.push(t)] unless [acc.includes(t)] (or the guard fails). *)
Definition pushUnique (keep : bool) (t : string) (acc : list string) : list string :=
  if keep && negb (memString t acc) then (acc ++ [t])%list else acc.

(** [uniqueTokens]: the reduction of [pools] that collects both tokens
    of every pool, each once, in order of first appearance. *)
Definition uniqueTokens (pools : list Pool) : list string :=
  fold_left (fun acc pool =>
               pushUnique true (token1 pool) (pushUnique true (token0 pool) acc))
            pools [].

(** [toTokensList]: the tokens paired with [fromToken] in some pool,
    [fromToken] itself left out. *)
Definition toTokensList (fromToken : string) (pools : list Pool) : list string :=
  let poolsWithFromToken :=
    filter (fun pool => (token0 pool =? fromToken)%string
                        || (token1 pool =? fromToken)%string) pools in
  fold_left (fun acc pool =>
               pushUnique (negb (token1 pool =? fromToken)%string) (token1 pool)
                 (pushUnique (negb (token0 pool =? fromToken)%string) (token0 pool) acc))
            poolsWithFromToken [].

(** The order the comparator of [selectBestPool] sorts by: [a] is at
    least as good as [b], its product of reserves, as the code computes
    it, being the larger, or the same with a fee that is not larger. *)
Definition atLeastAsGood (a b : Pool) : Prop :=
  SFcompare (reserveProduct b) (reserveProduct a) = Some Lt
  \/ (SFcompare (reserveProduct b) (reserveProduct a) = Some Eq /\ fee a <= fee b).

(** Reserves that are, with their product, in the range where doubles
    hold integers exactly. *)
Definition safeReserves (p : Pool) : Prop :=
  0 <= balance0 p < 2 ^ 53 /\ 0 <= balance1 p < 2 ^ 53 /\ swapK p < 2 ^ 53.

(** Two pools whose exact reserve products differ by one and whose
    products in double precision are equal. *)
Definition roundedPoolA : Pool :=
  {| id := "0x08"; token0 := "T.a"; token1 := "T.b"; fee := 30;
     liquidity := 10; balance0 := 134217729; balance1 := 134217729 |}.
Definition roundedPoolB : Pool :=
  {| id := "0x09"; token0 := "T.a"; token1 := "T.b"; fee := 5;
     liquidity := 10; balance0 := 268435456; balance1 := 67108865 |}.

(** ** Building the swap call *)

(** What the further library functions throw: their own errors, and the
    errors of the functions they call. *)
Inductive Exception : Type :=
| SwapAmountNotPositive   (* "Swap amount must be a positive number" *)
| InvalidContractPrincipal (principal : string)
| UserNotConnected        (* "User not connected" *)
| CallFailed              (* a read-only call that throws *)
| NoUserAddress           (* "Could not resolve user address" *)
| InvalidPrincipal (address : string)  (* [principalCV] on a malformed address *)
| InvalidUInt (value : Z)              (* [uintCV] on a value it refuses *)
| Raised (e : Error).

Inductive Outcome (A : Type) : Type :=
| Returned (a : A)
| Thrown (e : Exception).
Arguments Returned {A} a.
Arguments Thrown {A} e.

Definition ofResult {A : Type} (r : Result A) : Outcome A :=
  match r with
  | Ok a => Returned a
  | Throw e => Thrown (Raised e)
  end.

(** The options [swap] returns: the function name is "swap" and the
    arguments are the two tokens, the fee, the amount in base units and
    the direction. *)
Record SwapCall : Type := mkSwapCall {
  swapToken0 : string;
  swapToken1 : string;
  swapFee : Z;
  swapAmount : Z;
  swapZeroForOne : bool
}.

Section SwapCalls.

Variable getTokenDecimals : string -> Result Js.Number.

(** [principalCV] and [uintCV] of the Stacks library accept the
    argument; otherwise they throw. *)
Variable validPrincipal : string -> bool.
Variable validUInt : Z -> bool.

(** The library accepts every argument of the call. *)
Definition acceptedArguments (pool : Pool) (amountBase : Z) : bool :=
  validPrincipal (token0 pool) && validPrincipal (token1 pool)
  && validUInt (fee pool) && validUInt amountBase.

(** The arguments of the call, built in order: [principalCV] of both
    tokens, [uintCV] of the fee and of the amount ([boolCV] does not
    throw). *)
Definition swapArguments (pool : Pool) (amountBase : Z) (zeroForOne : bool)
    : Outcome SwapCall :=
  if negb (validPrincipal (token0 pool)) then Thrown (InvalidPrincipal (token0 pool))
  else if negb (validPrincipal (token1 pool)) then Thrown (InvalidPrincipal (token1 pool))
  else if negb (validUInt (fee pool)) then Thrown (InvalidUInt (fee pool))
  else if negb (validUInt amountBase) then Thrown (InvalidUInt amountBase)
  else Returned {| swapToken0 := token0 pool; swapToken1 := token1 pool;
                   swapFee := fee pool; swapAmount := amountBase;
                   swapZeroForOne := zeroForOne |}.

(** [swap(pool, amount, zeroForOne)]: the decimals lookups performed and
    the options returned or the error thrown. *)
Definition swap (pool : Pool) (amount : Js.Number) (zeroForOne : bool)
    : list Call * Outcome SwapCall :=
  if negb (Js.isFinite amount) || Js.leZero amount
  then ([], Thrown SwapAmountNotPositive)
  else
    let fromToken := if zeroForOne then token0 pool else token1 pool in
    ([GetDecimals fromToken],
     match (dec <- getTokenDecimals fromToken ;; toBaseUnits amount dec) with
     | Throw e => Thrown (Raised e)
     | Ok amountBase => swapArguments pool amountBase zeroForOne
     end).

(** What a handler of the hook does that the user sees: an alert with
    the error, or a contract call opened in the wallet. *)
Inductive UiEffect : Type :=
| Alert (e : Exception)
| OpenContractCall (call : SwapCall).

(** [handleSwap(pool, amount, zeroForOne)] of the hook, [connected]
    telling whether [userData] is set. *)
Definition handleSwap (connected : bool) (pool : Pool) (amount : Js.Number)
    (zeroForOne : bool) : list UiEffect :=
  if negb connected then [Alert UserNotConnected]
  else match snd (swap pool amount zeroForOne) with
       | Returned options => [OpenContractCall options]
       | Thrown e => [Alert e]
       end.

(** The click handler of the Swap button. *)
Definition swapButtonClick (connected : bool) (pools : list Pool)
    (fromToken toToken : string) (fromAmount : Js.Number) : list UiEffect :=
  match selectBestPool fromToken toToken pools with
  | None => []
  | Some pool =>
      let zeroForOne := (fromToken =? token0 pool)%string in
      handleSwap connected pool fromAmount zeroForOne
  end.

End SwapCalls.

(** A pool of the two mock tokens with the reserves of the scenario. *)
Definition marketPool : Pool :=
  {| id := "0x0a"; token0 := tokenA; token1 := tokenB; fee := 500;
     liquidity := 1000000; balance0 := 1000000; balance1 := 1000000 |}.

(** ** Notions about a discovery run *)

(** A record is authoritative: it is what the read chain of the ledger
    yields for its own key. *)
Definition authoritative (w : World) (p : Pool) : Prop :=
  readPool w (token0 p) (token1 p) (fee p) = Some p.

(** The records the scan builds from the page requested at [offset];
    none if the request fails. *)
Definition pagePools (w : World) (offset : Z) : list Pool :=
  match fetchEvents w offset with
  | FetchOk events => processPage w events
  | FetchFailed => []
  end.

(** The ledger serves only hex identifiers. *)
Definition hexLedger (w : World) : Prop :=
  forall t0 t1 f i, getPoolId w t0 t1 f = Some i -> isHexId i = true.

(** The check that every probe of the direct sweep is a pair of two
    different known tokens at the fee 500. *)
Definition knownProbe (probe : string * string * Z) : bool :=
  let '(t0, t1, f) := probe in
  memString t0 knownTokens && memString t1 knownTokens
  && negb (t0 =? t1)%string && (f =? 500).

(** One create-pool print for (mock-token-2, mock-token) at fee 500
    with reserves (3, 4) in event order; the ledger knows no pool. *)
Definition eventOnlyWorld : World :=
  {| principalHex := fun t => Some t;
     fetchEvents := fun offset =>
       if offset =? 0 then FetchOk [printEvent "0x0c"] else FetchOk [];
     decodeCreatePool := fun hex =>
       if (hex =? "0x0c")%string then
         Some {| evToken0 := tokenB; evToken1 := tokenA; evFee := 500;
                 evLiquidity := 9; evBalance0 := 3; evBalance1 := 4 |}
       else None;
     getPoolId := fun _ _ _ => None;
     getPoolData := fun _ => None;
     poolExists := fun _ _ _ => false |}.

Definition eventOnlyPool : Pool :=
  {| id := tokenA ++ "-" ++ tokenB ++ "-500";
     token0 := tokenA; token1 := tokenB; fee := 500;
     liquidity := 9; balance0 := 4; balance1 := 3 |}.

(** A record carries the id the scan synthesizes from the event
    payload: [`${canon0}-${canon1}-${fee}`]. *)
Definition fallbackShaped (p : Pool) : Prop :=
  id p = token0 p ++ "-" ++ token1 p ++ "-" ++ Js.showZ (fee p).

(** The record the ledger of [bothOrdersWorld] serves for
    (mock-token, mock-token-2) at fee 500. *)
Definition directPoolAB : Pool :=
  {| id := "0x0a"; token0 := tokenA; token1 := tokenB; fee := 500;
     liquidity := 1000; balance0 := 40000; balance1 := 50000 |}.

(** ** Decoded values and the token reads *)

#[local] Set Warnings "-register-all".

(** The values [cvToJSON] yields, as the helpers inspect them. *)
Inductive Json : Type :=
| JUndefined
| JNull
| JBool (b : bool)
| JNum (n : Js.Number)
| JStr (s : string)
| JArr (items : list Json)
| JObj (fields : list (string * Json)).

Fixpoint lookupField (name : string) (fields : list (string * Json)) : option Json :=
  match fields with
  | [] => None
  | (k, v) :: rest => if (k =? name)%string then Some v else lookupField name rest
  end.

(** [json?.name]: the property of an object, [undefined] on anything
    else (the helpers read only [type] and [value], which no array,
    string, number or boolean has). *)
Definition getField (name : string) (json : Json) : Json :=
  match json with
  | JObj fields =>
      match lookupField name fields with
      | Some v => v
      | None => JUndefined
      end
  | _ => JUndefined
  end.

(** [getJsonInnerValue(json)] *)
Definition getJsonInnerValue (json : Json) : Json :=
  match json with
  | JObj fields =>
      match lookupField "value" fields with
      | Some v => v
      | None => json
      end
  | _ => json
  end.

(** The unwrapping of a response: [json.value] under either spelling of
    the ok tag, [json] itself otherwise. *)
Definition unwrapResponseOk (json : Json) : Json :=
  match getField "type" json with
  | JStr t =>
      if (t =? "response-ok")%string || (t =? "responseOk")%string
      then getField "value" json else json
  | _ => json
  end.

(** The characters of [\s], white space and line terminators, as they
    stand in a string held in UTF-8: of one byte (TAB, LF, VT, FF, CR,
    SP), of two (U+00A0) and of three (U+1680, U+2000 to U+200A,
    U+2028, U+2029, U+202F, U+205F, U+3000, U+FEFF). *)
Definition isSpace (c : ascii) : bool :=
  let n := nat_of_ascii c in
  ((9 <=? n)%nat && (n <=? 13)%nat) || (n =? 32)%nat.

Definition isSpace2 (c1 c2 : ascii) : bool :=
  (nat_of_ascii c1 =? 194)%nat && (nat_of_ascii c2 =? 160)%nat.

Definition isSpace3 (c1 c2 c3 : ascii) : bool :=
  let n1 := nat_of_ascii c1 in
  let n2 := nat_of_ascii c2 in
  let n3 := nat_of_ascii c3 in
  ((n1 =? 225) && (n2 =? 154) && (n3 =? 128))%nat
  || ((n1 =? 226) && (n2 =? 128)
      && (((128 <=? n3) && (n3 <=? 138)) || (n3 =? 168) || (n3 =? 169) || (n3 =? 175)))%nat
  || ((n1 =? 226) && (n2 =? 129) && (n3 =? 159))%nat
  || ((n1 =? 227) && (n2 =? 128) && (n3 =? 128))%nat
  || ((n1 =? 239) && (n2 =? 187) && (n3 =? 191))%nat.

(** The string after its first character, if that is white space. *)
Definition stripSpace (s : string) : option string :=
  match s with
  | String c1 r1 =>
      if isSpace c1 then Some r1
      else match r1 with
           | String c2 r2 =>
               if isSpace2 c1 c2 then Some r2
               else match r2 with
                    | String c3 r3 => if isSpace3 c1 c2 c3 then Some r3 else None
                    | EmptyString => None
                    end
           | EmptyString => None
           end
  | EmptyString => None
  end.

(** The string after its leading white space. *)
Fixpoint skipSpaces (s : string) : string :=
  match s with
  | String c1 r1 =>
      if isSpace c1 then skipSpaces r1
      else match r1 with
           | String c2 r2 =>
               if isSpace2 c1 c2 then skipSpaces r2
               else match r2 with
                    | String c3 r3 => if isSpace3 c1 c2 c3 then skipSpaces r3 else s
                    | EmptyString => s
                    end
           | EmptyString => s
           end
  | EmptyString => s
  end.

(** The longest prefix of digits and what follows it. *)
Fixpoint spanDigits (s : string) : string * string :=
  match s with
  | String c r =>
      if Js.isDigit c then let (ds, rest) := spanDigits r in (String c ds, rest)
      else (EmptyString, s)
  | EmptyString => (EmptyString, EmptyString)
  end.

(** [decStr.match(/^\s*u?(\d+)\s*$/)]: the digits captured, if the
    string matches. *)
Definition matchDecimals (decStr : string) : option string :=
  let s1 := skipSpaces decStr in
  let s2 := match s1 with
            | String c r => if Ascii.eqb c "u" then r else s1
            | EmptyString => s1
            end in
  let (ds, rest) := spanDigits s2 in
  match ds with
  | EmptyString => None
  | _ => match skipSpaces rest with
         | EmptyString => Some ds
         | _ => None
         end
  end.

(** Trailing zeros of [s] moved into the count [k], at most [fuel] of
    them. *)
Fixpoint stripTens (fuel : nat) (s : positive) (k : Z) : positive * Z :=
  match fuel with
  | O => (s, k)
  | S f =>
      if Z.pos s mod 10 =? 0
      then stripTens f (Z.to_pos (Z.pos s / 10)) (k + 1)
      else (s, k)
  end.

(** The number with the integer value [v >= 0], in the representation
    of [Js.Number]: [v = s * 10^k] with [s] free of trailing zeros, and
    [n] the digits of [s] plus [k]. *)
Definition numberOfZ (v : Z) : Js.Number :=
  match v with
  | Z.pos p =>
      let (s, k) := stripTens (Pos.size_nat p) p 0 in
      Js.Finite false s (Js.numDigits s + k)
  | _ => Js.Zero false
  end.

(** [Number(m[1])] for a string of digits (exact while the value is
    below 2^53, beyond which a JavaScript number rounds). *)
Definition numberOfDigits (ds : string) : Js.Number :=
  numberOfZ (Js.digitsValue 0 ds).

(** [typeof val === "object" && val?.type === "uint" ? val.value : val] *)
Definition unwrapUint (val : Json) : Json :=
  match val with
  | JObj _ | JArr _ =>
      match getField "type" val with
      | JStr t => if (t =? "uint")%string then getField "value" val else val
      | _ => val
      end
  | _ => val
  end.

(** [decStr] in [getTokenDecimals]: the value the decimals are read
    from, found under an ok response, a [value] wrapper and a "uint"
    object. *)
Definition decimalsLeaf (json : Json) : Json :=
  let okVal := unwrapResponseOk json in
  let val := getJsonInnerValue okVal in
  unwrapUint val.

(** The interpretation of the answer in [getTokenDecimals]: from the
    decoded response to the decimals, or the error thrown. *)
Definition decimalsOfJson (json : Json) : Result Js.Number :=
  match decimalsLeaf json with
  | JNum n => Ok n
  | JStr s =>
      match matchDecimals s with
      | Some digits => Ok (numberOfDigits digits)
      | None => Throw InvalidDecimalsResponse
      end
  | _ => Throw InvalidDecimalsResponse
  end.

(** [splitContractPrincipal(principal)] *)
Definition splitContractPrincipal (principal : string) : Outcome (string * string) :=
  let parts := Js.split "." principal in
  let address := nth 0 parts EmptyString in
  let name := nth 1 parts EmptyString in
  match address, name with
  | EmptyString, _ | _, EmptyString => Thrown (InvalidContractPrincipal principal)
  | _, _ => Returned (address, name)
  end.

Section TokenReads.

(** [callReadOnlyFunction] on a token contract followed by [cvToJSON]:
    the decoded answer of [functionName] at contract [address.name],
    [None] when the call throws. *)
Variable callReadOnly : string -> string -> string -> option Json.

(** [getTokenDecimals(tokenContract)] *)
Definition getTokenDecimals (tokenContract : string) : Outcome Js.Number :=
  match splitContractPrincipal tokenContract with
  | Thrown e => Thrown e
  | Returned (address, name) =>
      match callReadOnly address name "get-decimals" with
      | None => Thrown CallFailed
      | Some json => ofResult (decimalsOfJson json)
      end
  end.

End TokenReads.

(** The shape [cvToJSON] gives an unsigned integer: type "uint" and the
    decimal text. *)
Definition uintJson (text : string) : Json :=
  JObj [("type", JStr "uint"); ("value", JStr text)].

(** The answer of the token contract's [get-decimals], [(ok u6)], as
    [cvToJSON] renders a response. *)
Definition okUintJson (text : string) : Json :=
  JObj [("type", JStr "(response uint UnknownType)");
        ("value", uintJson text);
        ("success", JBool true)].

(** A string of white space only. *)
Fixpoint allSpaces (s : string) : bool :=
  match s with
  | String c1 r1 =>
      if isSpace c1 then allSpaces r1
      else match r1 with
           | String c2 r2 =>
               if isSpace2 c1 c2 then allSpaces r2
               else match r2 with
                    | String c3 r3 => isSpace3 c1 c2 c3 && allSpaces r3
                    | EmptyString => false
                    end
           | EmptyString => false
           end
  | EmptyString => true
  end.

Fixpoint dotFree (s : string) : bool :=
  match s with
  | EmptyString => true
  | String c r => negb (Ascii.eqb c ".") && dotFree r
  end.

(** The string with the given bytes, and the characters of [\s] in
    UTF-8: U+0009 to U+000D, U+0020, U+00A0, U+1680, U+2000 to U+200A,
    U+2028, U+2029, U+202F, U+205F, U+3000 and U+FEFF. *)
Definition utf8 (bytes : list nat) : string :=
  fold_right (fun n s => String (ascii_of_nat n) s) EmptyString bytes.

Definition whiteSpaceCharacters : list string :=
  map utf8
    [ [9]; [10]; [11]; [12]; [13]; [32]; [194; 160]; [225; 154; 128];
      [226; 128; 128]; [226; 128; 129]; [226; 128; 130]; [226; 128; 131];
      [226; 128; 132]; [226; 128; 133]; [226; 128; 134]; [226; 128; 135];
      [226; 128; 136]; [226; 128; 137]; [226; 128; 138];
      [226; 128; 168]; [226; 128; 169]; [226; 128; 175]; [226; 129; 159];
      [227; 128; 128]; [239; 187; 191] ]%nat.

(** The strings of [/^\s*u?(\d+)\s*$/] with the digits [ds] captured. *)
Definition decimalsText (ws1 : string) (u : bool) (ds ws2 : string) : string :=
  (ws1 ++ (if u then "u" else "") ++ ds ++ ws2)%string.

(** A ledger whose token contracts all answer [get-decimals] with
    [(ok u6)]. *)
Definition sixDecimals (address name functionName : string) : option Json :=
  if (functionName =? "get-decimals")%string then Some (okUintJson "6") else None.

(** The places [getTokenDecimals] looks for the decimals: the answer
    itself, the [value] of an object, or the [value] of a "uint" object
    that is the [value] of an object. *)
Definition carries (json leaf : Json) : Prop :=
  json = leaf
  \/ (exists fields,
        json = JObj fields /\ lookupField "value" fields = Some leaf)
  \/ (exists fields inner,
        json = JObj fields
        /\ lookupField "value" fields = Some (JObj inner)
        /\ lookupField "type" inner = Some (JStr "uint")
        /\ lookupField "value" inner = Some leaf).

(** A string or a number: the values the decimals can be read from. *)
Definition isScalar (json : Json) : bool :=
  match json with
  | JStr _ | JNum _ => true
  | _ => false
  end.

(** ** The token contract *)

Module MockToken.

Local Open Scope Z_scope.

(** The largest [uint]. *)
Definition U128_MAX : Z := 2 ^ 128 - 1.

(** What [define-fungible-token] keeps: the balance of each holder that
    has one, and the supply. *)
Record Ledger : Type := mkLedger {
  balances : list (string * Z);
  supply : Z
}.

Definition empty : Ledger := {| balances := []; supply := 0 |}.

Fixpoint lookupBalance (who : string) (m : list (string * Z)) : option Z :=
  match m with
  | [] => None
  | (k, v) :: rest => if (k =? who)%string then Some v else lookupBalance who rest
  end.

Fixpoint setBalance (who : string) (v : Z) (m : list (string * Z)) : list (string * Z) :=
  match m with
  | [] => [(who, v)]
  | (k, old) :: rest =>
      if (k =? who)%string then (k, v) :: rest else (k, old) :: setBalance who v rest
  end.

(** [(ft-get-balance mock-token who)] *)
Definition ftGetBalance (l : Ledger) (who : string) : Z :=
  match lookupBalance who (balances l) with
  | Some v => v
  | None => 0
  end.

(** The result of a token primitive: the ledger after it, an error
    code, or a runtime error that aborts the transaction. *)
Inductive Primitive : Type :=
| Done (after : Ledger)
| Failed (code : Z)
| Overflow.

(** [(ft-transfer? mock-token amount sender recipient)]: [(err u3)] for
    an amount of zero, [(err u2)] when sender and recipient are the
    same, [(err u1)] when the sender has less than the amount. *)
Definition ftTransfer (l : Ledger) (amount : Z) (sender recipient : string) : Primitive :=
  if amount <=? 0 then Failed 3
  else if (sender =? recipient)%string then Failed 2
  else if ftGetBalance l sender <? amount then Failed 1
  else if U128_MAX <? ftGetBalance l recipient + amount then Overflow
  else
    let debited := setBalance sender (ftGetBalance l sender - amount) (balances l) in
    Done {| balances := setBalance recipient (ftGetBalance l recipient + amount) debited;
            supply := supply l |}.

(** [(ft-mint? mock-token amount recipient)]: [(err u1)] for an amount
    of zero; a supply beyond the largest [uint] is a runtime error. *)
Definition ftMint (l : Ledger) (amount : Z) (recipient : string) : Primitive :=
  if amount <=? 0 then Failed 1
  else if U128_MAX <? supply l + amount then Overflow
  else
    Done {| balances := setBalance recipient (ftGetBalance l recipient + amount) (balances l);
            supply := supply l + amount |}.

(** The result of a public call: [(ok true)] with the ledger and the
    values printed, an [(err code)], after which the ledger is as
    before, or an aborted transaction. *)
Inductive TxResult : Type :=
| Committed (after : Ledger) (printed : list string)
| RolledBack (code : Z)
| Aborted.

Definition err_owner_only : Z := 100.
Definition err_not_token_owner : Z := 101.

Section Contract.

(** [contract-owner]: the sender of the deployment. *)
Variable contract_owner : string.

(** [(transfer amount sender recipient memo)] called by [tx_sender]. *)
Definition transfer (tx_sender : string) (amount : Z) (sender recipient : string)
    (memo : option string) (l : Ledger) : TxResult :=
  if negb (tx_sender =? sender)%string then RolledBack err_not_token_owner
  else match ftTransfer l amount sender recipient with
       | Failed code => RolledBack code
       | Overflow => Aborted
       | Done after =>
           Committed after (match memo with
                            | Some to_print => [to_print]
                            | None => []
                            end)
       end.

(** [(mint amount recipient)] called by [tx_sender]. *)
Definition mint (tx_sender : string) (amount : Z) (recipient : string)
    (l : Ledger) : TxResult :=
  if negb (tx_sender =? contract_owner)%string then RolledBack err_owner_only
  else match ftMint l amount recipient with
       | Failed code => RolledBack code
       | Overflow => Aborted
       | Done after => Committed after []
       end.

(** [(get-decimals)] *)
Definition get_decimals : Z := 6.

(** [(get-balance who)] *)
Definition get_balance (l : Ledger) (who : string) : Z := ftGetBalance l who.

(** [(get-total-supply)] *)
Definition get_total_supply (l : Ledger) : Z := supply l.

(** A public call with its sender. *)
Inductive PublicCall : Type :=
| CallTransfer (tx_sender : string) (amount : Z) (sender recipient : string)
    (memo : option string)
| CallMint (tx_sender : string) (amount : Z) (recipient : string).

Definition execute (c : PublicCall) (l : Ledger) : TxResult :=
  match c with
  | CallTransfer tx_sender amount sender recipient memo =>
      transfer tx_sender amount sender recipient memo l
  | CallMint tx_sender amount recipient => mint tx_sender amount recipient l
  end.

(** The ledger after a call: changed only by a committed one. *)
Definition step (l : Ledger) (c : PublicCall) : Ledger :=
  match execute c l with
  | Committed after _ => after
  | RolledBack _ | Aborted => l
  end.

(** The ledger after a sequence of calls, from the deployment on. *)
Definition run (calls : list PublicCall) : Ledger := fold_left step calls empty.

End Contract.

(** The sum of the balances held. *)
Fixpoint total (m : list (string * Z)) : Z :=
  match m with
  | [] => 0
  | (_, v) :: rest => v + total rest
  end.

(** The caller of a call. *)
Definition callSender (c : PublicCall) : string :=
  match c with
  | CallTransfer tx_sender _ _ _ _ => tx_sender
  | CallMint tx_sender _ _ => tx_sender
  end.

(** What holds of every ledger the calls can reach: the supply is the
    sum of the balances, no balance is negative, and the supply is a
    [uint]. *)
Definition consistent (l : Ledger) : Prop :=
  supply l = total (balances l)
  /\ Forall (fun e => 0 <= snd e) (balances l)
  /\ supply l <= U128_MAX.

End MockToken.

(** ** The faucet *)

(** The options [mintToken] returns: the token contract, the function
    "mint", the amount and the recipient. *)
Record MintCall : Type := mkMintCall {
  mintContractAddress : string;
  mintContractName : string;
  mintFunctionName : string;
  mintAmount : Z;
  mintRecipient : string
}.

(** [userData.profile.stxAddress], each address a string or absent. *)
Record UserData : Type := mkUserData {
  testnet : option string;
  mainnet : option string
}.

(** A string that is present and not empty. *)
Definition truthy (s : option string) : bool :=
  match s with
  | Some (String _ _) => true
  | _ => false
  end.

(** [getUserAddress()] of the hook. *)
Definition getUserAddress (userData : option UserData) : option string :=
  match userData with
  | None => None
  | Some u => if truthy (testnet u) then testnet u else mainnet u
  end.

Section Faucet.

(** [principalCV] accepts the address. *)
Variable validPrincipal : string -> bool.

(** [mintToken(tokenContract, amount, recipient)] for an integral
    [amount >= 0], as [uintCV] takes it. *)
Definition mintToken (tokenContract : string) (amount : Z) (recipient : string)
    : Outcome MintCall :=
  match splitContractPrincipal tokenContract with
  | Thrown e => Thrown e
  | Returned (address, name) =>
      if validPrincipal recipient
      then Returned {| mintContractAddress := address;
                       mintContractName := name;
                       mintFunctionName := "mint";
                       mintAmount := amount;
                       mintRecipient := recipient |}
      else Thrown (InvalidPrincipal recipient)
  end.

Inductive MintEffect : Type :=
| MintAlert (e : Exception)
| OpenMintCall (call : MintCall).

(** [handleMint(tokenContract, amount)] of the hook. *)
Definition handleMint (userData : option UserData) (tokenContract : string)
    (amount : Z) : list MintEffect :=
  match userData with
  | None => [MintAlert UserNotConnected]
  | Some _ =>
      match getUserAddress userData with
      | None | Some EmptyString => [MintAlert NoUserAddress]
      | Some recipient =>
          match mintToken tokenContract amount recipient with
          | Returned options => [OpenMintCall options]
          | Thrown e => [MintAlert e]
          end
      end
  end.

End Faucet.

(** ** Removing liquidity *)

Module RemoveLiquidityComponent.

(** The options [removeLiquidity] returns: the function
    "remove-liquidity" with the pool's tokens and fee and the amount of
    liquidity. *)
Record RemoveCall : Type := mkRemoveCall {
  removeToken0 : string;
  removeToken1 : string;
  removeFee : Z;
  removeAmount : Z
}.

Inductive RemoveEffect : Type :=
| RemoveAlert (e : Exception)
| OpenRemoveCall (call : RemoveCall).

(** The messages under the button. *)
Inductive RemoveReason : Type :=
| ConnectWallet      (* "Connect wallet to remove liquidity" *)
| EnterPositive      (* "Enter a positive liquidity amount" *)
| ExceedsPosition.   (* "Amount exceeds your position" *)

(** The state of the component, with [userData] as [connected]; the
    amounts are integers, as [Math.floor] and the position read from
    the ledger give them. *)
Record RemoveState : Type := mkRemoveState {
  connected : bool;
  selectedPool : Pool;
  liquidityInput : Z;
  userTotalLiquidity : Z;
  disabledReason : option RemoveReason
}.

Section RemoveLiquidity.

Variable validPrincipal : string -> bool.

(** [removeLiquidity(pool, liquidity)] *)
Definition removeLiquidity (pool : Pool) (amount : Z) : Outcome RemoveCall :=
  if negb (validPrincipal (token0 pool)) then Thrown (InvalidPrincipal (token0 pool))
  else if negb (validPrincipal (token1 pool)) then Thrown (InvalidPrincipal (token1 pool))
  else Returned {| removeToken0 := token0 pool;
                   removeToken1 := token1 pool;
                   removeFee := fee pool;
                   removeAmount := amount |}.

(** [handleRemoveLiquidity(pool, liquidity)] of the hook. *)
Definition handleRemoveLiquidity (isConnected : bool) (pool : Pool) (amount : Z)
    : list RemoveEffect :=
  if negb isConnected then [RemoveAlert UserNotConnected]
  else match removeLiquidity pool amount with
       | Returned options => [OpenRemoveCall options]
       | Thrown e => [RemoveAlert e]
       end.

(** The change handler of the amount field, from
    [val = Math.max(0, Math.floor(Number(...)))] on. *)
Definition changeAmount (val : Z) (st : RemoveState) : RemoveState :=
  {| connected := connected st;
     selectedPool := selectedPool st;
     liquidityInput := val;
     userTotalLiquidity := userTotalLiquidity st;
     disabledReason :=
       if negb (connected st) then Some ConnectWallet
       else if val =? 0 then Some EnterPositive
       else if userTotalLiquidity st <? val then Some ExceedsPosition
       else None |}.

(** The Max button is enabled. *)
Definition maxEnabled (st : RemoveState) : bool :=
  negb (userTotalLiquidity st =? 0).

(** The click handler of the Max button. *)
Definition clickMax (st : RemoveState) : RemoveState :=
  if maxEnabled st
  then {| connected := connected st;
          selectedPool := selectedPool st;
          liquidityInput := userTotalLiquidity st;
          userTotalLiquidity := userTotalLiquidity st;
          disabledReason := None |}
  else st.

(** The Remove Liquidity button is enabled. *)
Definition removeEnabled (st : RemoveState) : bool :=
  negb (negb (connected st)
        || (liquidityInput st <=? 0)
        || (userTotalLiquidity st <? liquidityInput st)).

(** The click handler of the Remove Liquidity button. *)
Definition clickRemove (st : RemoveState) : list RemoveEffect :=
  if removeEnabled st
  then handleRemoveLiquidity (connected st) (selectedPool st) (liquidityInput st)
  else [].

End RemoveLiquidity.

End RemoveLiquidityComponent.
(** * Double-precision arithmetic on integers

    What the operations of [SpecFloat] compute on the doubles that hold
    integers: the conversion of an integer, the product and the square
    root, in terms of integer arithmetic. *)

Section DoubleFacts.

Import Double.

Local Abbreviation SF := (S754_finite false).

Lemma digits2_bounds (p : positive) :
  2 ^ (Z.pos (digits2_pos p) - 1) <= Z.pos p < 2 ^ Z.pos (digits2_pos p).
Proof.
  induction p as [p IH|p IH|]; cbn [digits2_pos].
  - rewrite Pos2Z.inj_succ.
    replace (Z.succ (Z.pos (digits2_pos p)) - 1) with (Z.succ (Z.pos (digits2_pos p) - 1)) by lia.
    rewrite !Z.pow_succ_r by lia. change (Z.pos p~1) with (2 * Z.pos p + 1). lia.
  - rewrite Pos2Z.inj_succ.
    replace (Z.succ (Z.pos (digits2_pos p)) - 1) with (Z.succ (Z.pos (digits2_pos p) - 1)) by lia.
    rewrite !Z.pow_succ_r by lia. change (Z.pos p~0) with (2 * Z.pos p). lia.
  - cbn. lia.
Qed.

Lemma pow2_lt_inv (a b : Z) : 0 <= b -> 2 ^ a < 2 ^ b -> a < b.
Proof.
  intros Hb H. destruct (Z.lt_ge_cases a b) as [|Hge]; [assumption|].
  exfalso. assert (2 ^ b <= 2 ^ a) by (apply Z.pow_le_mono_r; lia). lia.
Qed.

Lemma digits2_unique (p : positive) (d : Z) :
  2 ^ (d - 1) <= Z.pos p < 2 ^ d -> Z.pos (digits2_pos p) = d.
Proof.
  intros [Hlo Hhi]. pose proof (digits2_bounds p) as [Hlo' Hhi'].
  set (D := Z.pos (digits2_pos p)) in *.
  assert (HD : 0 < D) by (unfold D; lia).
  assert (Hd : 0 < d).
  { destruct (Z.lt_ge_cases 0 d) as [|Hle]; [assumption|]. exfalso.
    assert (2 ^ d <= 2 ^ 0) by (apply Z.pow_le_mono_r; lia || (destruct (Z.eq_dec d 0); [subst; lia|]; rewrite Z.pow_neg_r by lia; cbn; lia)).
    cbn in *. lia. }
  assert (D - 1 < d) by (apply pow2_lt_inv; lia).
  assert (d - 1 < D) by (apply pow2_lt_inv; lia).
  lia.
Qed.

Lemma iter_pos_nat {A : Type} (f : A -> A) (p : positive) :
  forall x, iter_pos f p x = Nat.iter (Pos.to_nat p) f x.
Proof.
  induction p as [p IH|p IH|]; intros x; cbn [iter_pos].
  - rewrite !IH, Pos2Nat.inj_xI.
    replace (S (2 * Pos.to_nat p)) with (Pos.to_nat p + (Pos.to_nat p + 1))%nat by lia.
    rewrite !Nat.iter_add. reflexivity.
  - rewrite !IH, Pos2Nat.inj_xO.
    replace (2 * Pos.to_nat p)%nat with (Pos.to_nat p + Pos.to_nat p)%nat by lia.
    rewrite Nat.iter_add. reflexivity.
  - reflexivity.
Qed.

Lemma shr_1_m (r : shr_record) : 0 <= shr_m r -> shr_m (shr_1 r) = shr_m r / 2.
Proof.
  destruct r as [m r s]. cbn [shr_m shr_1]. intros Hm.
  destruct m as [|[p|p|]|p]; cbn [shr_m].
  - reflexivity.
  - change (Z.pos p~1) with (2 * Z.pos p + 1).
    apply Z.div_unique with (r := 1); lia.
  - change (Z.pos p~0) with (2 * Z.pos p).
    apply Z.div_unique with (r := 0); lia.
  - reflexivity.
  - lia.
Qed.

Lemma shr_iter_m (k : nat) (r : shr_record) :
  0 <= shr_m r -> shr_m (Nat.iter k shr_1 r) = shr_m r / 2 ^ Z.of_nat k.
Proof.
  intros Hm. induction k as [|k IH].
  - cbn. rewrite Z.div_1_r. reflexivity.
  - change (Nat.iter (S k) shr_1 r) with (shr_1 (Nat.iter k shr_1 r)). rewrite shr_1_m.
    + rewrite IH, Nat2Z.inj_succ, Z.pow_succ_r by lia.
      rewrite Z.div_div by lia. f_equal. lia.
    + rewrite IH. apply Z.div_pos; lia.
Qed.

Lemma shr_iter_exact (k : nat) (m : Z) :
  0 <= m -> m mod 2 ^ Z.of_nat k = 0 ->
  Nat.iter k shr_1 (Build_shr_record m false false)
  = Build_shr_record (m / 2 ^ Z.of_nat k) false false.
Proof.
  intros Hm. induction k as [|k IH]; intros Hmod.
  - cbn. rewrite Z.div_1_r. reflexivity.
  - rewrite Nat2Z.inj_succ, Z.pow_succ_r in Hmod by lia.
    assert (Hk : m mod 2 ^ Z.of_nat k = 0).
    { apply Z.mod_divide in Hmod; [|lia]. destruct Hmod as [c Hc].
      apply Z.mod_divide; [lia|]. exists (c * 2). lia. }
    change (Nat.iter (S k) shr_1 ?x) with (shr_1 (Nat.iter k shr_1 x)). rewrite (IH Hk).
    assert (Heven : (m / 2 ^ Z.of_nat k) mod 2 = 0).
    { apply Z.mod_divide in Hmod; [|lia]. destruct Hmod as [c Hc].
      subst m. replace (c * (2 * 2 ^ Z.of_nat k)) with (c * 2 * 2 ^ Z.of_nat k) by lia.
      rewrite Z.div_mul by lia. apply Z.mod_mul. lia. }
    assert (Hq : 0 <= m / 2 ^ Z.of_nat k) by (apply Z.div_pos; lia).
    rewrite Nat2Z.inj_succ, Z.pow_succ_r by lia.
    replace (m / (2 * 2 ^ Z.of_nat k)) with (m / 2 ^ Z.of_nat k / 2)
      by (rewrite Z.div_div by lia; f_equal; lia).
    destruct (m / 2 ^ Z.of_nat k) as [|[p|p|]|p]; cbn [shr_1 orb]; try lia.
    + reflexivity.
    + exfalso. change (Z.pos p~1) with (2 * Z.pos p + 1) in Heven.
      assert (E : (2 * Z.pos p + 1) mod 2 = 1)
        by (symmetry; apply Z.mod_unique with (q := Z.pos p); lia).
      lia.
    + f_equal. change (Z.pos p~0) with (2 * Z.pos p).
      apply Z.div_unique with (r := 0); lia.
    + exfalso. cbn in Heven. discriminate Heven.
Qed.


Lemma fexp_normal (x : Z) : -1021 <= x -> fexp prec emax x = x - 53.
Proof. intros H. unfold fexp, emin, prec, emax. lia. Qed.

Lemma fexp_ge (x : Z) : -1074 <= fexp prec emax x.
Proof. unfold fexp, emin, prec, emax. lia. Qed.

Lemma Zdigits2_pos_bounds (m : Z) :
  0 < m -> 2 ^ (Zdigits2 m - 1) <= m < 2 ^ Zdigits2 m.
Proof. destruct m as [|p|p]; try lia. intros _. apply digits2_bounds. Qed.

Lemma Zdigits2_unique (m d : Z) : 2 ^ (d - 1) <= m < 2 ^ d -> 0 < m -> Zdigits2 m = d.
Proof. destruct m as [|p|p]; try lia. intros H _. apply digits2_unique, H. Qed.

Lemma shr_fexp_noshift (m e : Z) (l : location) :
  0 < m -> Zdigits2 m <= 53 -> -1074 <= e ->
  shr_fexp prec emax m e l = (shr_record_of_loc m l, e).
Proof.
  intros Hm Hd He. unfold shr_fexp, shr.
  assert (H : fexp prec emax (Zdigits2 m + e) - e <= 0)
    by (unfold fexp, emin, prec, emax; lia).
  destruct (fexp prec emax (Zdigits2 m + e) - e) as [|n|n] eqn:E; try reflexivity. lia.
Qed.

Lemma shr_fexp_shift (m e : Z) (l : location) :
  0 < m -> 53 < Zdigits2 m -> -1074 <= Zdigits2 m + e - 53 ->
  shr_fexp prec emax m e l
  = (Nat.iter (Z.to_nat (Zdigits2 m - 53)) shr_1 (shr_record_of_loc m l),
     e + (Zdigits2 m - 53)).
Proof.
  intros Hm Hd He. unfold shr_fexp, shr.
  assert (H : fexp prec emax (Zdigits2 m + e) - e = Zdigits2 m - 53)
    by (unfold fexp, emin, prec, emax; lia).
  rewrite H. destruct (Zdigits2 m - 53) as [|n|n] eqn:E; try lia.
  rewrite iter_pos_nat. reflexivity.
Qed.

Lemma shr_m_of_loc (m : Z) (l : location) : shr_m (shr_record_of_loc m l) = m.
Proof. destruct l as [|[]]; reflexivity. Qed.

Lemma loc_of_loc (m : Z) (l : location) : loc_of_shr_record (shr_record_of_loc m l) = l.
Proof. destruct l as [|[]]; reflexivity. Qed.

Lemma rne_bounds (m : Z) (l : location) :
  m <= round_nearest_even m l <= m + 1.
Proof. destruct l as [|[]]; cbn [round_nearest_even]; try lia. destruct (Z.even m); lia. Qed.

Lemma second_stage (m2 e1 : Z) :
  2 ^ 52 <= m2 <= 2 ^ 53 -> -1074 <= e1 ->
  (let '(mrs, e) := shr_fexp prec emax m2 e1 loc_Exact in
   match shr_m mrs with
   | Z0 => S754_zero false
   | Zpos m => if Z.leb e (emax - prec) then SF m e else S754_infinity false
   | Zneg _ => S754_nan
   end) = finish m2 e1.
Proof.
  intros Hm He. unfold finish.
  assert (P52 : 2 ^ 52 = 4503599627370496) by reflexivity.
  assert (P53 : 2 ^ 53 = 9007199254740992) by reflexivity.
  destruct (Z.ltb_spec m2 (2 ^ 53)) as [Hlt|Hge].
  - rewrite shr_fexp_noshift; [| lia | | lia].
    + cbn [shr_record_of_loc shr_m]. destruct m2 as [|p|p]; try lia.
      change (emax - prec) with 971. reflexivity.
    + rewrite (Zdigits2_unique m2 53); [lia | | lia]. change (53 - 1) with 52. lia.
  - assert (E : m2 = 2 ^ 53) by lia. subst m2.
    change (2 ^ 53) with 9007199254740992.
    unfold shr_fexp. change (Zdigits2 9007199254740992) with 54.
    unfold shr.
    assert (H : fexp prec emax (54 + e1) - e1 = 1)
      by (unfold fexp, emin, prec, emax; lia).
    rewrite H. cbn [iter_pos shr_record_of_loc shr_1 shr_m orb].
    change (emax - prec) with 971. reflexivity.
Qed.

Lemma shifted_mantissa (m : Z) :
  0 < m -> 53 <= Zdigits2 m ->
  2 ^ 52 <= m / 2 ^ (Zdigits2 m - 53) < 2 ^ 53.
Proof.
  intros Hm Hd. pose proof (Zdigits2_pos_bounds m Hm) as [Hlo Hhi].
  set (d := Zdigits2 m) in *.
  assert (Hp : 0 < 2 ^ (d - 53)) by (apply Z.pow_pos_nonneg; lia).
  assert (E1 : 2 ^ (d - 1) = 2 ^ 52 * 2 ^ (d - 53))
    by (rewrite <- Z.pow_add_r by lia; f_equal; lia).
  assert (E2 : 2 ^ d = 2 ^ 53 * 2 ^ (d - 53))
    by (rewrite <- Z.pow_add_r by lia; f_equal; lia).
  split.
  - apply Z.div_le_lower_bound; lia.
  - apply Z.div_lt_upper_bound; lia.
Qed.

Lemma bra_noshift (p : positive) (ex : Z) (l : location) :
  Zdigits2 (Z.pos p) = 53 -> -1074 <= ex ->
  binary_round_aux prec emax false (Z.pos p) ex l
  = finish (round_nearest_even (Z.pos p) l) ex.
Proof.
  intros Hd He. unfold binary_round_aux.
  rewrite shr_fexp_noshift by lia.
  rewrite shr_m_of_loc, loc_of_loc.
  apply second_stage; [|exact He].
  pose proof (rne_bounds (Z.pos p) l).
  pose proof (Zdigits2_pos_bounds (Z.pos p) ltac:(lia)) as Hb. rewrite Hd in Hb.
  change (53 - 1) with 52 in Hb. lia.
Qed.

Lemma bra_shift_bound (m ex : Z) (l : location) :
  0 < m -> 53 < Zdigits2 m -> -1074 <= Zdigits2 m + ex - 53 ->
  exists m2,
    2 ^ 52 <= m2 <= 2 ^ 53
    /\ binary_round_aux prec emax false m ex l = finish m2 (ex + (Zdigits2 m - 53)).
Proof.
  intros Hm Hd He. unfold binary_round_aux.
  rewrite shr_fexp_shift by assumption.
  set (rec := Nat.iter _ shr_1 _).
  assert (Hrec : shr_m rec = m / 2 ^ (Zdigits2 m - 53)).
  { unfold rec. rewrite shr_iter_m; rewrite shr_m_of_loc; [|lia].
    rewrite Z2Nat.id by lia. reflexivity. }
  pose proof (shifted_mantissa m Hm ltac:(lia)) as Hs. rewrite <- Hrec in Hs.
  pose proof (rne_bounds (shr_m rec) (loc_of_shr_record rec)) as Hr.
  exists (round_nearest_even (shr_m rec) (loc_of_shr_record rec)).
  split; [lia|]. apply second_stage; lia.
Qed.

Lemma bra_shift_exact (m ex : Z) :
  0 < m -> 53 < Zdigits2 m -> -1074 <= Zdigits2 m + ex - 53 ->
  m mod 2 ^ (Zdigits2 m - 53) = 0 ->
  binary_round_aux prec emax false m ex loc_Exact
  = finish (m / 2 ^ (Zdigits2 m - 53)) (ex + (Zdigits2 m - 53)).
Proof.
  intros Hm Hd He Hmod. unfold binary_round_aux.
  rewrite shr_fexp_shift by assumption.
  cbn [shr_record_of_loc].
  rewrite shr_iter_exact; [| lia | rewrite Z2Nat.id by lia; exact Hmod].
  rewrite Z2Nat.id by lia. cbn [shr_m loc_of_shr_record round_nearest_even].
  pose proof (shifted_mantissa m Hm ltac:(lia)) as Hs.
  apply second_stage; lia.
Qed.

Lemma iter_xO (p d : positive) : Z.pos (Pos.iter xO p d) = Z.pos p * 2 ^ Z.pos d.
Proof.
  induction d as [|d IH] using Pos.peano_ind.
  - cbn [Pos.iter]. change (2 ^ 1) with 2. change (Z.pos p~0) with (2 * Z.pos p). lia.
  - rewrite Pos.iter_succ, Pos2Z.inj_succ, Z.pow_succ_r by lia.
    change (Z.pos (Pos.iter xO p d)~0) with (2 * Z.pos (Pos.iter xO p d)). rewrite IH. lia.
Qed.

Lemma finish_keep (m2 e1 : Z) :
  m2 < 2 ^ 53 -> e1 <= 971 -> finish m2 e1 = SF (Z.to_pos m2) e1.
Proof.
  intros Hm He. unfold finish.
  destruct (Z.ltb_spec m2 (2 ^ 53)); [|lia].
  destruct (Z.leb_spec e1 971); [reflexivity | lia].
Qed.

Lemma exactForm_mantissa (a : Z) :
  0 < a -> Zdigits2 a <= 53 ->
  2 ^ 52 <= a * 2 ^ (53 - Zdigits2 a) < 2 ^ 53.
Proof.
  intros Ha Hd. pose proof (Zdigits2_pos_bounds a Ha) as [Hlo Hhi].
  set (d := Zdigits2 a) in *.
  assert (0 < d) by (destruct a; cbn in *; lia).
  assert (Hp : 0 < 2 ^ (53 - d)) by (apply Z.pow_pos_nonneg; lia).
  assert (E1 : 2 ^ 52 = 2 ^ (d - 1) * 2 ^ (53 - d))
    by (rewrite <- Z.pow_add_r by lia; f_equal; lia).
  assert (E2 : 2 ^ 53 = 2 ^ d * 2 ^ (53 - d))
    by (rewrite <- Z.pow_add_r by lia; f_equal; lia).
  rewrite E1, E2. split.
  - apply Z.mul_le_mono_nonneg_r; lia.
  - apply Z.mul_lt_mono_pos_r; lia.
Qed.

Lemma Zdigits2_small (a : Z) : 0 < a -> a < 2 ^ 53 -> Zdigits2 a <= 53.
Proof.
  intros Ha Hlt. pose proof (Zdigits2_pos_bounds a Ha) as [Hlo _].
  assert (Zdigits2 a - 1 < 53) by (apply pow2_lt_inv; lia). lia.
Qed.

Lemma Zdigits2_large (a : Z) : 2 ^ 53 <= a -> 53 < Zdigits2 a.
Proof.
  intros Ha. assert (H0 : 0 < a) by (assert (0 < 2 ^ 53) by reflexivity; lia).
  pose proof (Zdigits2_pos_bounds a H0) as [_ Hhi].
  assert (0 < Zdigits2 a) by (destruct a; cbn in *; lia).
  apply pow2_lt_inv; lia.
Qed.

Lemma Zdigits2_le (a : Z) (k : Z) : 0 < a -> a < 2 ^ k -> 0 <= k -> Zdigits2 a <= k.
Proof.
  intros Ha Hlt Hk. pose proof (Zdigits2_pos_bounds a Ha) as [Hlo _].
  assert (Zdigits2 a - 1 < k) by (apply pow2_lt_inv; lia). lia.
Qed.

Lemma ofZ_small (a : Z) : 0 < a -> a < 2 ^ 53 -> ofZ a = exactForm a.
Proof.
  intros Ha Hlt. pose proof (Zdigits2_small a Ha Hlt) as Hd.
  pose proof (exactForm_mantissa a Ha Hd) as Hm.
  destruct a as [|p|p]; try lia.
  unfold ofZ, binary_normalize, binary_round, shl_align, exactForm.
  cbn [Zdigits2] in *. set (d := Z.pos (digits2_pos p)) in *.
  assert (Hfexp : fexp prec emax (d + 0) = d - 53).
  { rewrite Z.add_0_r. apply fexp_normal. unfold d. lia. }
  rewrite Hfexp, Z.sub_0_r.
  destruct (d - 53) as [|n|n] eqn:En; try lia.
  - assert (E : 53 - d = 0) by lia. rewrite E in *. rewrite Z.mul_1_r in *.
    rewrite bra_noshift; [| cbn [Zdigits2]; fold d; lia | lia].
    cbn [round_nearest_even]. apply finish_keep; lia.
  - assert (E : 53 - d = Z.pos n) by lia. rewrite E in *.
    rewrite <- iter_xO in Hm.
    rewrite bra_noshift.
    + cbn [round_nearest_even]. rewrite finish_keep by lia.
      rewrite <- iter_xO. reflexivity.
    + apply Zdigits2_unique; [|lia]. change (53 - 1) with 52. lia.
    + lia.
Qed.

Lemma finish_cases (m2 e1 : Z) :
  2 ^ 52 <= m2 <= 2 ^ 53 ->
  finish m2 e1 = S754_infinity false
  \/ exists m e, finish m2 e1 = SF m e /\ 2 ^ 52 <= Z.pos m < 2 ^ 53
                 /\ e1 <= e <= e1 + 1 /\ e <= 971.
Proof.
  intros Hm. unfold finish.
  destruct (Z.ltb_spec m2 (2 ^ 53)).
  - destruct (Z.leb_spec e1 971); [right | left; reflexivity].
    exists (Z.to_pos m2), e1. rewrite Z2Pos.id by (assert (0 < 2 ^ 52) by reflexivity; lia).
    repeat split; lia.
  - destruct (Z.leb_spec (e1 + 1) 971); [right | left; reflexivity].
    exists (Z.to_pos (2 ^ 52)), (e1 + 1). repeat split; try lia; reflexivity.
Qed.

Lemma finish_finite (m2 e1 : Z) :
  2 ^ 52 <= m2 <= 2 ^ 53 -> e1 + 1 <= 971 ->
  exists m e, finish m2 e1 = SF m e /\ 2 ^ 52 <= Z.pos m < 2 ^ 53
              /\ e1 <= e <= e1 + 1.
Proof.
  intros Hm He. destruct (finish_cases m2 e1 Hm) as [H|(m & e & H & Hb & He' & _)].
  - exfalso. unfold finish in H.
    destruct (m2 <? 2 ^ 53); [destruct (Z.leb_spec e1 971) | destruct (Z.leb_spec (e1 + 1) 971)];
      try discriminate; lia.
  - exists m, e. auto.
Qed.

Lemma ofZ_large (a : Z) :
  2 ^ 53 <= a -> a < 2 ^ 1023 ->
  exists m e, ofZ a = SF m e /\ 2 ^ 52 <= Z.pos m < 2 ^ 53 /\ 1 <= e <= 971.
Proof.
  intros Ha Hlt. pose proof (Zdigits2_large a Ha) as Hd.
  assert (H0 : 0 < a) by (assert (0 < 2 ^ 53) by reflexivity; lia).
  pose proof (Zdigits2_le a 1023 H0 Hlt ltac:(lia)) as Hd'.
  destruct a as [|p|p]; try lia.
  unfold ofZ, binary_normalize, binary_round, shl_align.
  cbn [Zdigits2] in *. set (d := Z.pos (digits2_pos p)) in *.
  assert (Hfexp : fexp prec emax (d + 0) = d - 53).
  { rewrite Z.add_0_r. apply fexp_normal. lia. }
  rewrite Hfexp, Z.sub_0_r. destruct (d - 53) as [|n|n] eqn:En; try lia.
  destruct (bra_shift_bound (Z.pos p) 0 loc_Exact) as (m2 & Hm2 & Hr);
    [lia | cbn [Zdigits2]; fold d; lia | cbn [Zdigits2]; fold d; lia |].
  rewrite Hr. cbn [Zdigits2]. fold d.
  destruct (finish_finite m2 (0 + (d - 53)) Hm2 ltac:(lia)) as (m & e & Hf & Hb & He).
  exists m, e. rewrite Hf. repeat split; lia.
Qed.

Lemma Zdigits2_gt (m k : Z) : 0 <= k -> 2 ^ k <= m -> k < Zdigits2 m.
Proof.
  intros Hk Hm. assert (H0 : 0 < m) by (assert (0 < 2 ^ k) by (apply Z.pow_pos_nonneg; lia); lia).
  pose proof (Zdigits2_pos_bounds m H0) as [_ Hhi].
  assert (0 < Zdigits2 m) by (destruct m; cbn in *; lia).
  apply pow2_lt_inv; lia.
Qed.

Lemma Zdigits2_positive (m : Z) : 0 < m -> 0 < Zdigits2 m.
Proof. destruct m; cbn; lia. Qed.

Lemma Zdigits2_scale (a t : Z) :
  0 < a -> 0 <= t -> Zdigits2 (a * 2 ^ t) = Zdigits2 a + t.
Proof.
  intros Ha Ht. pose proof (Zdigits2_pos_bounds a Ha) as [Hlo Hhi].
  pose proof (Zdigits2_positive a Ha) as Hd.
  assert (Hp : 0 < 2 ^ t) by (apply Z.pow_pos_nonneg; lia).
  apply Zdigits2_unique; [|nia].
  replace (Zdigits2 a + t - 1) with (Zdigits2 a - 1 + t) by lia.
  rewrite !Z.pow_add_r by lia. split.
  - apply Z.mul_le_mono_nonneg_r; lia.
  - apply Z.mul_lt_mono_pos_r; lia.
Qed.

Lemma Zdigits2_mul_lower (a b : Z) :
  0 < a -> 0 < b -> Zdigits2 a + Zdigits2 b - 1 <= Zdigits2 (a * b).
Proof.
  intros Ha Hb.
  pose proof (Zdigits2_pos_bounds a Ha) as [Hla _].
  pose proof (Zdigits2_pos_bounds b Hb) as [Hlb _].
  pose proof (Zdigits2_positive a Ha). pose proof (Zdigits2_positive b Hb).
  assert (H2 : 2 ^ (Zdigits2 a + Zdigits2 b - 2) <= a * b).
  { replace (Zdigits2 a + Zdigits2 b - 2) with ((Zdigits2 a - 1) + (Zdigits2 b - 1)) by lia.
    rewrite Z.pow_add_r by lia.
    apply Z.mul_le_mono_nonneg; try lia; apply Z.pow_nonneg; lia. }
  assert (Hk : 0 <= Zdigits2 a + Zdigits2 b - 2) by lia.
  pose proof (Zdigits2_gt (a * b) _ Hk H2). lia.
Qed.

Lemma mul_exact (a b : Z) :
  0 < a -> 0 < b -> a * b < 2 ^ 53 ->
  SFmul prec emax (exactForm a) (exactForm b) = exactForm (a * b).
Proof.
  intros Ha Hb Hab.
  assert (Hab0 : 0 < a * b) by nia.
  assert (Ha53 : a < 2 ^ 53) by nia.
  assert (Hb53 : b < 2 ^ 53) by nia.
  pose proof (Zdigits2_small a Ha Ha53) as Hka.
  pose proof (Zdigits2_small b Hb Hb53) as Hkb.
  pose proof (Zdigits2_small (a * b) Hab0 Hab) as Hkab.
  pose proof (Zdigits2_mul_lower a b Ha Hb) as Hlow.
  pose proof (Zdigits2_positive a Ha). pose proof (Zdigits2_positive b Hb).
  pose proof (exactForm_mantissa a Ha Hka) as Hma.
  pose proof (exactForm_mantissa b Hb Hkb) as Hmb.
  pose proof (exactForm_mantissa (a * b) Hab0 Hkab) as Hmab.
  unfold exactForm, SFmul. cbn [xorb].
  set (ka := Zdigits2 a) in *. set (kb := Zdigits2 b) in *. set (kab := Zdigits2 (a * b)) in *.
  rewrite Pos2Z.inj_mul, !Z2Pos.id by (assert (0 < 2 ^ 52) by reflexivity; lia).
  set (t := 106 - ka - kb).
  assert (EM : a * 2 ^ (53 - ka) * (b * 2 ^ (53 - kb)) = a * b * 2 ^ t).
  { unfold t. replace (106 - ka - kb) with ((53 - ka) + (53 - kb)) by lia.
    rewrite Z.pow_add_r by lia. ring. }
  rewrite EM.
  assert (HD : Zdigits2 (a * b * 2 ^ t) = kab + t)
    by (apply Zdigits2_scale; unfold t; lia).
  assert (Hn : kab + t - 53 = t - (53 - kab)) by lia.
  assert (Ediv : a * b * 2 ^ t = a * b * 2 ^ (53 - kab) * 2 ^ (kab + t - 53)).
  { assert (E : 2 ^ t = 2 ^ (53 - kab) * 2 ^ (kab + t - 53))
      by (rewrite <- Z.pow_add_r by (unfold t; lia); f_equal; lia).
    rewrite E. ring. }
  assert (Hp : 0 < 2 ^ (kab + t - 53)) by (apply Z.pow_pos_nonneg; unfold t; lia).
  rewrite bra_shift_exact.
  - rewrite HD. rewrite Ediv at 1. rewrite Z.div_mul by lia.
    rewrite finish_keep by (unfold t; lia). f_equal. unfold t. lia.
  - assert (0 < 2 ^ t) by (apply Z.pow_pos_nonneg; unfold t; lia). nia.
  - rewrite HD. unfold t. lia.
  - rewrite HD. unfold t. lia.
  - rewrite HD. rewrite Ediv. apply Z.mod_mul. lia.
Qed.

Lemma mul_big (mx my : positive) (ex ey : Z) :
  normal mx -> normal my ->
  54 <= Zdigits2 (Z.pos mx * Z.pos my) + ex + ey ->
  SFmul prec emax (SF mx ex) (SF my ey) = S754_infinity false
  \/ exists m e, SFmul prec emax (SF mx ex) (SF my ey) = SF m e
                 /\ normal m /\ 1 <= e <= 971.
Proof.
  intros Hx Hy Hd. unfold normal in *. unfold SFmul. cbn [xorb].
  rewrite Pos2Z.inj_mul.
  assert (H104 : 2 ^ 104 <= Z.pos mx * Z.pos my).
  { change (2 ^ 104) with (2 ^ 52 * 2 ^ 52).
    apply Z.mul_le_mono_nonneg; try lia; assert (0 < 2 ^ 52) by reflexivity; lia. }
  assert (Hk : 0 <= 104) by lia.
  pose proof (Zdigits2_gt _ 104 Hk H104) as HD.
  destruct (bra_shift_bound (Z.pos mx * Z.pos my) (ex + ey) loc_Exact)
    as (m2 & Hm2 & Hr); [lia | lia | lia |].
  rewrite Hr.
  destruct (finish_cases m2 (ex + ey + (Zdigits2 (Z.pos mx * Z.pos my) - 53)) Hm2)
    as [H|(m & e & H & Hb & He & He')]; [left; exact H | right].
  exists m, e. repeat split; try lia; exact H.
Qed.

Lemma sqrt_form (m : positive) (e : Z) :
  normal m -> -52 <= e <= 971 ->
  let e' := e / 2 - 26 in
  let m' := Z.pos m * 2 ^ (e - 2 * e') in
  let q := Z.sqrt m' in
  exists delta,
    SFsqrt prec emax (SF m e) = SF (Z.to_pos (q + delta)) e'
    /\ 0 <= delta <= 1 /\ (delta = 1 -> q < m' - q * q)
    /\ 2 ^ 52 <= q /\ q + delta < 2 ^ 53.
Proof.
  intros Hm He e' m' q. unfold normal in Hm.
  assert (P52 : 2 ^ 52 = 4503599627370496) by reflexivity.
  assert (P53 : 2 ^ 53 = 9007199254740992) by reflexivity.
  assert (Hs : 52 <= e - 2 * e' <= 53).
  { unfold e'. pose proof (Z.div_mod e 2 ltac:(lia)). pose proof (Z.mod_pos_bound e 2 ltac:(lia)). lia. }
  assert (Hp : 2 ^ 52 <= 2 ^ (e - 2 * e') <= 2 ^ 53)
    by (split; apply Z.pow_le_mono_r; lia).
  assert (Hm'lo : 2 ^ 52 * 2 ^ 52 <= m') by (unfold m'; nia).
  assert (Hm'hi : m' <= (2 ^ 53 - 1) * 2 ^ 53) by (unfold m'; nia).
  assert (Hq : 2 ^ 52 <= q).
  { unfold q. rewrite <- (Z.sqrt_square (2 ^ 52)) by lia. apply Z.sqrt_le_mono. lia. }
  assert (Hq' : q < 2 ^ 53).
  { unfold q. apply Z.sqrt_lt_square; lia. }
  pose proof (Z.sqrt_spec m' ltac:(lia)) as Hspec. fold q in Hspec. cbv zeta in Hspec.
  unfold SFsqrt, SFsqrt_core_binary.
  assert (Hd : Zdigits2 (Z.pos m) = 53)
    by (apply Zdigits2_unique; [change (53 - 1) with 52|]; lia).
  rewrite Hd, !Z.div2_div.
  assert (He1 : (53 + e + 1) / 2 = e / 2 + 27).
  { replace (53 + e + 1) with (e + 27 * 2) by lia. apply Z.div_add. lia. }
  rewrite He1.
  assert (He' : Z.min (fexp prec emax (e / 2 + 27)) (e / 2) = e').
  { rewrite fexp_normal; [unfold e'; lia|].
    pose proof (Z.div_mod e 2 ltac:(lia)). pose proof (Z.mod_pos_bound e 2 ltac:(lia)). lia. }
  rewrite He'.
  assert (Hshift : match e - 2 * e' with
                   | 0 => Z.pos m
                   | Z.pos _ => Z.shiftl (Z.pos m) (e - 2 * e')
                   | Z.neg _ => 0
                   end = m').
  { destruct (e - 2 * e') as [|s|s] eqn:Es; try lia.
    rewrite Z.shiftl_mul_pow2 by lia. unfold m'. rewrite ?Es. reflexivity. }
  rewrite Hshift.
  pose proof (Z.sqrtrem_spec m' ltac:(lia)) as Hrem.
  pose proof (Z.sqrtrem_sqrt m') as Hfst. fold q in Hfst.
  destruct (Z.sqrtrem m') as [q0 r]. cbn [fst] in Hfst. subst q0.
  destruct Hrem as [Hmr Hr].
  assert (Hdq : Zdigits2 q = 53)
    by (apply Zdigits2_unique; [change (53 - 1) with 52|]; lia).
  destruct q as [|qp|qp] eqn:Eq; try lia.
  rewrite bra_noshift; [| exact Hdq | unfold e'; pose proof (Z.div_mod e 2 ltac:(lia));
                                       pose proof (Z.mod_pos_bound e 2 ltac:(lia)); lia].
  assert (He'hi : e' <= 971).
  { unfold e'. pose proof (Z.div_mod e 2 ltac:(lia)). pose proof (Z.mod_pos_bound e 2 ltac:(lia)). lia. }
  destruct (Z.eqb_spec r 0) as [Hr0|Hr0].
  - exists 0. cbn [round_nearest_even]. rewrite Z.add_0_r.
    rewrite finish_keep by lia. repeat split; try lia.
  - destruct (Z.leb_spec r (Z.pos qp)) as [Hle|Hgt].
    + exists 0. cbn [round_nearest_even]. rewrite Z.add_0_r.
      rewrite finish_keep by lia. repeat split; try lia.
    + exists 1. cbn [round_nearest_even].
      assert (Hlt : Z.pos qp + 1 < 2 ^ 53) by nia.
      rewrite finish_keep by lia. repeat split; try lia.
Qed.

Lemma floor_sqrt_big (m : positive) (e : Z) :
  normal m -> 1 <= e <= 971 ->
  exists v, floor (SFsqrt prec emax (SF m e)) = Some v /\ 1000 < v.
Proof.
  intros Hm He.
  destruct (sqrt_form m e Hm ltac:(lia)) as (delta & Hs & Hd & _ & Hq & Hq').
  rewrite Hs. cbn [floor].
  set (q := Z.sqrt _) in *. set (e' := e / 2 - 26) in *.
  assert (He' : -26 <= e') by (unfold e'; pose proof (Z.div_mod e 2 ltac:(lia));
                               pose proof (Z.mod_pos_bound e 2 ltac:(lia)); lia).
  assert (P52 : 2 ^ 52 = 4503599627370496) by reflexivity.
  rewrite Z2Pos.id by lia.
  eexists. split; [reflexivity|].
  destruct (Z.leb_spec 0 e').
  - assert (1 <= 2 ^ e') by (apply (Z.pow_le_mono_r 2 0 e'); lia). nia.
  - assert (Hp : 0 < 2 ^ (- e')) by (apply Z.pow_pos_nonneg; lia).
    assert (Hp26 : 2 ^ (- e') <= 2 ^ 26) by (apply Z.pow_le_mono_r; lia).
    change (2 ^ 26) with 67108864 in Hp26.
    assert (1001 <= (q + delta) / 2 ^ (- e')); [|lia].
    apply Z.div_le_lower_bound; nia.
Qed.

Lemma floor_sqrt_exact (p : Z) :
  0 < p -> p < 2 ^ 53 ->
  exists v, floor (SFsqrt prec emax (exactForm p)) = Some v
            /\ (v <= 1000 <-> p < 1002001).
Proof.
  intros Hp Hlt. pose proof (Zdigits2_small p Hp Hlt) as Hk.
  pose proof (Zdigits2_positive p Hp) as Hk0.
  pose proof (exactForm_mantissa p Hp Hk) as Hm.
  unfold exactForm. set (k := Zdigits2 p) in *.
  assert (P52 : 2 ^ 52 = 4503599627370496) by reflexivity.
  assert (Hnorm : normal (Z.to_pos (p * 2 ^ (53 - k))))
    by (unfold normal; rewrite Z2Pos.id by lia; exact Hm).
  destruct (sqrt_form _ (k - 53) Hnorm ltac:(lia)) as (delta & Hs & Hd & Hup & Hq & Hq').
  rewrite Hs. clear Hs. rewrite Z2Pos.id in * by lia.
  set (e' := (k - 53) / 2 - 26) in *.
  assert (He' : e' <= -26 /\ -53 <= e').
  { unfold e'. pose proof (Z.div_mod (k - 53) 2 ltac:(lia)).
    pose proof (Z.mod_pos_bound (k - 53) 2 ltac:(lia)). lia. }
  set (N := 2 ^ (- e')).
  assert (HN : 2 ^ 26 <= N) by (apply Z.pow_le_mono_r; lia).
  change (2 ^ 26) with 67108864 in HN.
  assert (Em : p * 2 ^ (53 - k) * 2 ^ (k - 53 - 2 * e') = p * (N * N)).
  { unfold N. rewrite <- Z.mul_assoc, <- !Z.pow_add_r by lia. do 2 f_equal. lia. }
  rewrite Em in *. set (q := Z.sqrt (p * (N * N))) in *.
  pose proof (Z.sqrt_spec (p * (N * N)) ltac:(nia)) as Hspec. fold q in Hspec.
  cbv zeta in Hspec.
  cbn [floor]. rewrite Z2Pos.id by lia.
  destruct (Z.leb_spec 0 e'); [lia|]. fold N.
  eexists. split; [reflexivity|]. split.
  - intros Hv. destruct (Z.lt_ge_cases p 1002001) as [|Hge]; [assumption|]. exfalso.
    assert (1001 * N <= q).
    { destruct (Z.lt_ge_cases q (1001 * N)) as [Hlt'|]; [|assumption]. exfalso. nia. }
    assert (1001 <= (q + delta) / N) by (apply Z.div_le_lower_bound; nia). lia.
  - intros Hsmall.
    assert (Hq1 : q < 1001 * N) by nia.
    assert ((q + delta) / N < 1001); [|lia].
    apply Z.div_lt_upper_bound; [lia|].
    destruct (Z.eq_dec delta 1) as [Hd1|Hd0]; [|lia].
    specialize (Hup Hd1). nia.
Qed.

Lemma sqrt_le_1000 (n : Z) : 0 <= n -> (Z.sqrt n <= 1000 <-> n < 1002001).
Proof.
  intros Hn. pose proof (Z.sqrt_spec n Hn) as Hs. cbv zeta in Hs. split; intros H; nia.
Qed.

(** The double of a positive integer below [2^1023] is finite, with a
    mantissa of 53 bits. *)
Lemma ofZ_normal (x : Z) :
  0 < x < 2 ^ 1023 ->
  exists m e, ofZ x = SF m e /\ normal m /\ -52 <= e <= 971
              /\ (2 ^ 53 <= x -> 1 <= e)
              /\ (x < 2 ^ 53 ->
                  Z.pos m = x * 2 ^ (53 - Zdigits2 x) /\ e = Zdigits2 x - 53).
Proof.
  intros Hx. assert (P53 : 0 < 2 ^ 53) by reflexivity.
  destruct (Z.lt_ge_cases x (2 ^ 53)) as [Hs|Hl].
  - pose proof (ofZ_small x ltac:(lia) Hs) as E.
    pose proof (Zdigits2_small x ltac:(lia) Hs) as Hk.
    pose proof (Zdigits2_positive x ltac:(lia)) as Hk0.
    pose proof (exactForm_mantissa x ltac:(lia) Hk) as Hm.
    assert (P52 : 0 < 2 ^ 52) by reflexivity.
    exists (Z.to_pos (x * 2 ^ (53 - Zdigits2 x))), (Zdigits2 x - 53).
    unfold normal. rewrite Z2Pos.id by lia.
    repeat split; try lia. exact E.
  - destruct (ofZ_large x Hl ltac:(lia)) as (m & e & E & Hm & He).
    exists m, e. repeat split; try lia; try exact E; apply Hm.
Qed.

(** The product of the doubles of two positive integers below
    [2^1023]: exact below [2^53]; otherwise infinite, or finite with a
    positive exponent. *)
Lemma mul_ofZ_cases (a b : Z) :
  0 < a < 2 ^ 1023 -> 0 < b < 2 ^ 1023 ->
  (a * b < 2 ^ 53 /\ mul (ofZ a) (ofZ b) = exactForm (a * b))
  \/ (2 ^ 53 <= a * b
      /\ (mul (ofZ a) (ofZ b) = S754_infinity false
          \/ exists m e, mul (ofZ a) (ofZ b) = SF m e /\ normal m /\ 1 <= e <= 971)).
Proof.
  intros Ha Hb. unfold mul.
  assert (P53 : 0 < 2 ^ 53) by reflexivity.
  assert (Hab : 0 < a * b) by nia.
  destruct (Z.lt_ge_cases (a * b) (2 ^ 53)) as [Hsmall|Hbig].
  - left. split; [exact Hsmall|].
    assert (a < 2 ^ 53) by nia. assert (b < 2 ^ 53) by nia.
    rewrite (ofZ_small a), (ofZ_small b) by lia.
    apply mul_exact; lia.
  - right. split; [exact Hbig|].
    destruct (ofZ_normal a Ha) as (ma & ea & Ea & Hma & Hea & Hea1 & Hea2).
    destruct (ofZ_normal b Hb) as (mb & eb & Eb & Hmb & Heb & Heb1 & Heb2).
    rewrite Ea, Eb.
    assert (Hdig : 54 <= Zdigits2 (Z.pos ma * Z.pos mb) + ea + eb).
    { assert (H104 : 2 ^ 104 <= Z.pos ma * Z.pos mb).
      { unfold normal in *. change (2 ^ 104) with (2 ^ 52 * 2 ^ 52).
        assert (0 < 2 ^ 52) by reflexivity.
        apply Z.mul_le_mono_nonneg; lia. }
      assert (Hk : 0 <= 104) by lia.
      pose proof (Zdigits2_gt _ 104 Hk H104) as HD.
      destruct (Z.lt_ge_cases a (2 ^ 53)) as [Has|Hal];
        destruct (Z.lt_ge_cases b (2 ^ 53)) as [Hbs|Hbl];
        try (specialize (Hea1 ltac:(assumption))); try (specialize (Heb1 ltac:(assumption)));
        try lia.
      destruct (Hea2 Has) as [Ema ->]. destruct (Heb2 Hbs) as [Emb ->].
      rewrite Ema, Emb.
      pose proof (Zdigits2_small a ltac:(lia) Has). pose proof (Zdigits2_small b ltac:(lia) Hbs).
      replace (a * 2 ^ (53 - Zdigits2 a) * (b * 2 ^ (53 - Zdigits2 b)))
        with (a * b * 2 ^ (106 - Zdigits2 a - Zdigits2 b)).
      2:{ replace (106 - Zdigits2 a - Zdigits2 b)
            with ((53 - Zdigits2 a) + (53 - Zdigits2 b)) by lia.
          rewrite Z.pow_add_r by lia. ring. }
      rewrite Zdigits2_scale by lia.
      assert (Hk53 : 0 <= 53) by lia.
      pose proof (Zdigits2_gt (a * b) 53 Hk53 Hbig). lia. }
    exact (mul_big ma mb ea eb Hma Hmb Hdig).
Qed.

(** The product with zero of the double of an integer in the range. *)
Lemma mul_ofZ_zero (a : Z) :
  0 <= a < 2 ^ 1023 ->
  mul (ofZ 0) (ofZ a) = S754_zero false /\ mul (ofZ a) (ofZ 0) = S754_zero false.
Proof.
  intros Ha. change (ofZ 0) with (S754_zero false).
  destruct (Z.eq_dec a 0) as [->|Hne]; [split; reflexivity|].
  destruct (ofZ_normal a ltac:(lia)) as (m & e & E & _). rewrite E. split; reflexivity.
Qed.

(** The pre-flight comparison in double precision agrees with the
    exact integer square root whenever both amounts convert to finite
    doubles. *)
Lemma tooSmall_exact (a b : Z) :
  0 <= a < 2 ^ 1023 -> 0 <= b < 2 ^ 1023 ->
  tooSmall a b = (Z.sqrt (a * b) <=? 1000).
Proof.
  intros Ha Hb. unfold tooSmall, sqrtProduct, MINIMUM_LIQUIDITY.
  destruct (Z.eq_dec a 0) as [->|Ha0].
  { rewrite (proj1 (mul_ofZ_zero b Hb)), Z.mul_0_l. reflexivity. }
  destruct (Z.eq_dec b 0) as [->|Hb0].
  { rewrite (proj2 (mul_ofZ_zero a Ha)), Z.mul_0_r. reflexivity. }
  assert (Hab : 0 < a * b) by nia.
  destruct (mul_ofZ_cases a b ltac:(lia) ltac:(lia))
    as [[Hsmall E]|[Hbig [E|(m & e & E & Hm & He)]]]; rewrite E; unfold Double.sqrt.
  - destruct (floor_sqrt_exact (a * b) Hab Hsmall) as (v & Hv & Hiff). rewrite Hv.
    pose proof (sqrt_le_1000 (a * b) ltac:(lia)) as Hs.
    destruct (Z.leb_spec v 1000), (Z.leb_spec (Z.sqrt (a * b)) 1000); try reflexivity; lia.
  - assert (Hsq : 1000 < Z.sqrt (a * b)).
    { pose proof (sqrt_le_1000 (a * b) ltac:(lia)).
      assert (1002001 < 2 ^ 53) by reflexivity. lia. }
    destruct (Z.leb_spec (Z.sqrt (a * b)) 1000); [lia | reflexivity].
  - assert (Hsq : 1000 < Z.sqrt (a * b)).
    { pose proof (sqrt_le_1000 (a * b) ltac:(lia)).
      assert (1002001 < 2 ^ 53) by reflexivity. lia. }
    destruct (Z.leb_spec (Z.sqrt (a * b)) 1000); [lia|].
    destruct (floor_sqrt_big m e Hm He) as (v & Hv & Hgt). rewrite Hv.
    destruct (Z.leb_spec v 1000); [lia | reflexivity].
Qed.

(** *** The order of doubles *)

Lemma compare_cont_Eq (a b : positive) : PosDef.Pos.compare_cont Eq a b = Pos.compare a b.
Proof. reflexivity. Qed.

Lemma SFcompare_refl (x : spec_float) : x <> S754_nan -> SFcompare x x = Some Eq.
Proof.
  destruct x as [s|s| |s m e]; cbn [SFcompare]; try congruence; intros _;
    destruct s; try reflexivity;
    rewrite Z.compare_refl, compare_cont_Eq, Pos.compare_refl; reflexivity.
Qed.

Lemma SFcompare_antisym (x y : spec_float) (c : comparison) :
  SFcompare x y = Some c -> SFcompare y x = Some (CompOpp c).
Proof.
  destruct x as [sx|sx| |sx mx ex], y as [sy|sy| |sy my ey]; cbn [SFcompare];
    try discriminate; intros H; injection H as <-;
    repeat match goal with s : bool |- _ => destruct s end; try reflexivity;
    rewrite !compare_cont_Eq, (Z.compare_antisym ex ey), (Pos.compare_antisym mx my);
    destruct (ex ?= ey); try reflexivity; destruct (mx ?= my)%positive; reflexivity.
Qed.

Lemma SFcompare_some (x y : spec_float) :
  x <> S754_nan -> y <> S754_nan -> exists c, SFcompare x y = Some c.
Proof.
  destruct x as [sx|sx| |sx mx ex], y as [sy|sy| |sy my ey]; cbn [SFcompare];
    try congruence; intros _ _; eexists; reflexivity.
Qed.

Ltac split_compare :=
  repeat match goal with
         | |- context [PosDef.Pos.compare_cont Eq ?a ?b] =>
             change (PosDef.Pos.compare_cont Eq a b) with (Pos.compare a b)
         | H : context [PosDef.Pos.compare_cont Eq ?a ?b] |- _ =>
             change (PosDef.Pos.compare_cont Eq a b) with (Pos.compare a b) in H
         | |- context [Z.compare ?a ?b] => destruct (Z.compare_spec a b)
         | |- context [Pos.compare ?a ?b] => destruct (Pos.compare_spec a b)
         | H : context [Z.compare ?a ?b] |- _ => destruct (Z.compare_spec a b)
         | H : context [Pos.compare ?a ?b] |- _ => destruct (Pos.compare_spec a b)
         end.

(** [x <= y] and [y <= z] give [x <= z], with equality only from two
    equalities. *)
Lemma SFcompare_trans (x y z : spec_float) (c1 c2 : comparison) :
  SFcompare x y = Some c1 -> SFcompare y z = Some c2 ->
  c1 <> Gt -> c2 <> Gt ->
  SFcompare x z = Some (match c1, c2 with Eq, Eq => Eq | _, _ => Lt end).
Proof.
  destruct x as [sx|sx| |sx mx ex], y as [sy|sy| |sy my ey], z as [sz|sz| |sz mz ez];
    cbn [SFcompare]; try discriminate; intros H1 H2; injection H1 as <-; injection H2 as <-;
    repeat match goal with s : bool |- _ => destruct s end;
    intros Hc1 Hc2; try congruence; try reflexivity;
    split_compare; cbn [CompOpp] in *; subst;
    try congruence; try reflexivity; try lia.
Qed.

(** Doubles that hold positive integers of at most 53 bits compare as
    the integers. *)
Lemma SFcompare_exactForm (x y : Z) :
  0 < x < 2 ^ 53 -> 0 < y < 2 ^ 53 ->
  SFcompare (exactForm x) (exactForm y) = Some (x ?= y).
Proof.
  intros Hx Hy. unfold exactForm. cbn [SFcompare]. f_equal.
  pose proof (Zdigits2_small x ltac:(lia) ltac:(lia)) as Hkx.
  pose proof (Zdigits2_small y ltac:(lia) ltac:(lia)) as Hky.
  pose proof (Zdigits2_positive x ltac:(lia)) as Hkx0.
  pose proof (Zdigits2_positive y ltac:(lia)) as Hky0.
  pose proof (Zdigits2_pos_bounds x ltac:(lia)) as Hbx.
  pose proof (Zdigits2_pos_bounds y ltac:(lia)) as Hby.
  pose proof (exactForm_mantissa x ltac:(lia) Hkx) as Hmx.
  pose proof (exactForm_mantissa y ltac:(lia) Hky) as Hmy.
  assert (P52 : 0 < 2 ^ 52) by reflexivity.
  rewrite compare_cont_Eq, <- Z2Pos.inj_compare by lia.
  set (kx := Zdigits2 x) in *. set (ky := Zdigits2 y) in *.
  destruct (Z.compare_spec (kx - 53) (ky - 53)) as [E|Hlt|Hgt].
  - assert (Ek : kx = ky) by lia. rewrite Ek.
    assert (Hp : 0 < 2 ^ (53 - ky)) by (apply Z.pow_pos_nonneg; lia).
    destruct (Z.compare_spec x y) as [->|H|H].
    + apply Z.compare_refl.
    + apply Z.compare_lt_iff. nia.
    + apply Z.compare_gt_iff. nia.
  - symmetry. apply Z.compare_lt_iff.
    assert (2 ^ kx <= 2 ^ (ky - 1)) by (apply Z.pow_le_mono_r; lia). lia.
  - symmetry. apply Z.compare_gt_iff.
    assert (2 ^ ky <= 2 ^ (kx - 1)) by (apply Z.pow_le_mono_r; lia). lia.
Qed.

End DoubleFacts.
(** * Properties of the quote engine *)

Lemma bigDiv_nonneg (a b : Z) : 0 <= a -> 0 < b -> bigDiv a b = a / b.
Proof.
  intros Ha Hb. unfold bigDiv. apply Z.quot_div_nonneg; assumption.
Qed.

(** The raw output does not decrease when the input grows. *)
Lemma swapRawOutput_mono (pool : Pool) (zeroForOne : bool) (a b : Z) :
  0 < balance0 pool -> 0 < balance1 pool -> 0 < a -> a <= b ->
  swapRawOutput pool zeroForOne a <= swapRawOutput pool zeroForOne b.
Proof.
  intros Hx Hy Ha Hab.
  assert (Hk : 0 <= swapK pool) by (unfold swapK; nia).
  unfold swapRawOutput, swapTerm.
  destruct zeroForOne;
    rewrite !bigDiv_nonneg by lia;
    match goal with
    | |- ?r - ?k / ?p <= ?r - ?k / ?q =>
        assert (k / q <= k / p) by (apply Z.div_le_compat_l; lia); lia
    end.
Qed.

Lemma swapRawOutput_le_reserve (pool : Pool) (zeroForOne : bool) (d : Z) :
  0 < balance0 pool -> 0 < balance1 pool -> 0 < d ->
  swapRawOutput pool zeroForOne d
    <= (if zeroForOne then balance1 pool else balance0 pool).
Proof.
  intros Hx Hy Hd.
  assert (Hk : 0 <= swapK pool) by (unfold swapK; nia).
  unfold swapRawOutput, swapTerm.
  destruct zeroForOne;
    rewrite bigDiv_nonneg by lia;
    match goal with
    | |- ?r - ?k / ?p <= ?r => assert (0 <= k / p) by (apply Z.div_pos; lia); lia
    end.
Qed.

Lemma estimateFromBaseUnits_afterFees (pool : Pool) (zeroForOne : bool) (d : Z) :
  0 < balance0 pool -> 0 < balance1 pool -> 0 < d ->
  fst (estimateFromBaseUnits pool zeroForOne d)
    = afterFees pool (swapRawOutput pool zeroForOne d).
Proof.
  intros Hx Hy Hd. unfold estimateFromBaseUnits, afterFees.
  assert (Hside : ((if zeroForOne then balance0 pool else balance1 pool) + d <=? 0) = false)
    by (destruct zeroForOne; apply Z.leb_gt; lia).
  rewrite Hside.
  destruct (swapRawOutput pool zeroForOne d <=? 0); [reflexivity|].
  destruct (0 <? _); reflexivity.
Qed.

Lemma afterFees_nonneg (pool : Pool) (o : Z) : 0 <= afterFees pool o.
Proof.
  unfold afterFees. destruct (o <=? 0); [lia|].
  destruct (0 <? o - swapFees pool o) eqn:E; [apply Z.ltb_lt in E|]; lia.
Qed.

Lemma afterFees_mono (pool : Pool) (o1 o2 : Z) :
  o1 <= o2 -> afterFees pool o1 <= afterFees pool o2.
Proof.
  intros Hle.
  destruct (Z.leb_spec o1 0) as [H1|H1].
  { unfold afterFees at 1. apply Z.leb_le in H1. rewrite H1. apply afterFees_nonneg. }
  assert (H2 : 0 < o2) by lia.
  unfold afterFees.
  replace (o1 <=? 0) with false by (symmetry; apply Z.leb_gt; lia).
  replace (o2 <=? 0) with false by (symmetry; apply Z.leb_gt; lia).
  assert (Hkey : o1 - swapFees pool o1 <= o2 - swapFees pool o2
                 \/ (o1 - swapFees pool o1 <= 0 /\ o2 - swapFees pool o2 <= 0)).
  { unfold swapFees, bigDiv.
    destruct (Z.le_gt_cases 0 (fee pool)) as [Hf|Hf].
    - rewrite !Z.quot_div_nonneg by nia.
      destruct (Z.le_gt_cases (fee pool) 10000) as [Hf2|Hf2].
      + left.
        assert (o2 * fee pool / 10000 <= (o1 * fee pool + (o2 - o1) * 10000) / 10000)
          by (apply Z.div_le_mono; nia).
        rewrite Z.div_add in H by lia. lia.
      + right.
        assert (o1 <= o1 * fee pool / 10000) by (apply Z.div_le_lower_bound; nia).
        assert (o2 <= o2 * fee pool / 10000) by (apply Z.div_le_lower_bound; nia).
        lia.
    - left.
      replace (o1 * fee pool) with (- (o1 * - fee pool)) by ring.
      replace (o2 * fee pool) with (- (o2 * - fee pool)) by ring.
      rewrite !Z.quot_opp_l by lia.
      rewrite !Z.quot_div_nonneg by nia.
      assert (o1 * - fee pool / 10000 <= o2 * - fee pool / 10000)
        by (apply Z.div_le_mono; nia).
      lia. }
  destruct (Z.ltb_spec 0 (o1 - swapFees pool o1));
    destruct (Z.ltb_spec 0 (o2 - swapFees pool o2)); lia.
Qed.

(** C1. For the pool with reserves (1000000, 1000000) and fee 500 and an
    input of 10000 token-0 base units, the estimator computes
    k = 10^12, xPlus = 1010000, term = floor(10^12 / 1010000) = 990099,
    rawOut = 9901, fees = floor(9901*500/10000) = 495, and shows the
    quote 9406 with no disabled reason.  The same quote is shown by the
    whole estimator for the amount 10000 of a token with 0 decimals and
    for the amount 0.01 of a token with 6 decimals. *)
Theorem C1_scenario_quote :
  swapK scenarioPool = 10 ^ 12
  /\ balance0 scenarioPool + 10000 = 1010000
  /\ 10 ^ 12 / 1010000 = 990099
  /\ swapTerm scenarioPool true 10000 = 990099
  /\ swapRawOutput scenarioPool true 10000 = 9901
  /\ 9901 * 500 / 10000 = 495
  /\ swapFees scenarioPool (swapRawOutput scenarioPool true 10000) = 495
  /\ estimateFromBaseUnits scenarioPool true 10000 = (9406, None)
  /\ (forall view,
        estimateSwapOutput (fun _ => Ok (Js.Zero false)) [scenarioPool]
          "T.a" "T.b" (Js.Finite false 1 5) view
        = ({| estimatedToAmount := 9406; disabledReason := None;
              selectedPoolFee := Some 500 |}, None))
  /\ (forall view,
        estimateSwapOutput (fun _ => Ok num_6) [scenarioPool]
          "T.a" "T.b" (Js.Finite false 1 (-1)) view
        = ({| estimatedToAmount := 9406; disabledReason := None;
              selectedPoolFee := Some 500 |}, None)).
Proof.
  repeat split; try (intros view); vm_compute; reflexivity.
Qed.

(** C2, as stated, fails: in the pool with reserves (1000000, 100) and
    fee 30 the inputs 1 and 2 of token 0 both give the estimate 1, so
    the estimate is not strictly increasing. *)
Lemma C2_not_strictly_increasing :
  ~ (forall (pool : Pool) (zeroForOne : bool) (a b : Z),
        0 < balance0 pool -> 0 < balance1 pool -> 0 < a -> a < b ->
        fst (estimateFromBaseUnits pool zeroForOne a)
          < fst (estimateFromBaseUnits pool zeroForOne b)).
Proof.
  intros H.
  specialize (H shallowPool true 1 2).
  vm_compute in H.
  assert (Hlt : (1 ?= 1) = Lt)
    by (apply H; reflexivity).
  discriminate Hlt.
Qed.

(** C2, amended. For every pair of strictly positive reserves and every
    fee, the estimate never decreases when the input in base units
    grows: for all positive inputs a < b the estimate for a is at most
    the estimate for b. *)
Theorem C2_estimate_nondecreasing (pool : Pool) (zeroForOne : bool) (a b : Z) :
  0 < balance0 pool -> 0 < balance1 pool -> 0 < a -> a < b ->
  fst (estimateFromBaseUnits pool zeroForOne a)
    <= fst (estimateFromBaseUnits pool zeroForOne b).
Proof.
  intros Hx Hy Ha Hab.
  rewrite !estimateFromBaseUnits_afterFees by lia.
  apply afterFees_mono, swapRawOutput_mono; lia.
Qed.

Lemma C2_estimate_nondecreasing_witness :
  fst (estimateFromBaseUnits scenarioPool true 10000)
    <= fst (estimateFromBaseUnits scenarioPool true 20000).
Proof.
  apply (C2_estimate_nondecreasing scenarioPool true 10000 20000);
    vm_compute; reflexivity.
Defined.

(** C9. For every pool with both reserves strictly positive and every
    strictly positive input in base units, the raw output before fees
    is at most the reserve of the output side; the fee of a pool being
    unsigned, the fees are not negative and the quote shown after fees
    is at most that reserve too. *)
Theorem C9_quote_within_reserve (pool : Pool) (zeroForOne : bool) (d : Z) :
  0 < balance0 pool -> 0 < balance1 pool -> 0 < d ->
  let reserveOut := if zeroForOne then balance1 pool else balance0 pool in
  swapRawOutput pool zeroForOne d <= reserveOut
  /\ (0 <= fee pool ->
      0 <= swapFees pool (swapRawOutput pool zeroForOne d)
           \/ swapRawOutput pool zeroForOne d <= 0)
  /\ (0 <= fee pool ->
      fst (estimateFromBaseUnits pool zeroForOne d) <= reserveOut).
Proof.
  intros Hx Hy Hd reserveOut.
  pose proof (swapRawOutput_le_reserve pool zeroForOne d Hx Hy Hd) as Hraw.
  fold reserveOut in Hraw.
  assert (Hfees : 0 <= fee pool -> 0 < swapRawOutput pool zeroForOne d ->
                  0 <= swapFees pool (swapRawOutput pool zeroForOne d)).
  { intros Hf Ho. unfold swapFees. rewrite bigDiv_nonneg by nia. apply Z.div_pos; nia. }
  split; [exact Hraw|]. split.
  - intros Hf.
    destruct (Z.leb_spec (swapRawOutput pool zeroForOne d) 0) as [Ho|Ho];
      [right; exact Ho | left; exact (Hfees Hf Ho)].
  - intros Hf.
    rewrite estimateFromBaseUnits_afterFees by lia.
    assert (Hres : 0 < reserveOut) by (subst reserveOut; destruct zeroForOne; lia).
    unfold afterFees.
    destruct (Z.leb_spec (swapRawOutput pool zeroForOne d) 0) as [Ho|Ho]; [lia|].
    specialize (Hfees Hf Ho).
    destruct (0 <? _); lia.
Qed.

Lemma C9_quote_within_reserve_witness :
  swapRawOutput scenarioPool true 10000 <= 1000000
  /\ fst (estimateFromBaseUnits scenarioPool true 10000) <= 1000000.
Proof.
  destruct (C9_quote_within_reserve scenarioPool true 10000) as (Hraw & _ & Hquote);
    [reflexivity | reflexivity | reflexivity |].
  split; [exact Hraw|].
  apply Hquote. vm_compute. discriminate.
Defined.

(** * Properties of the base-unit conversion *)

(** [toBaseUnits] throws for every negative or non-finite amount. *)
Lemma toBaseUnits_rejects_amount (amount decimals : Js.Number) :
  Js.isFinite amount = false \/ Js.ltZero amount = true ->
  toBaseUnits amount decimals = Throw InvalidAmount.
Proof.
  intros [H|H]; unfold toBaseUnits; rewrite H; simpl; [reflexivity|].
  rewrite orb_true_r. reflexivity.
Qed.

(** [toBaseUnits] throws for every negative or non-integer decimals. *)
Lemma toBaseUnits_rejects_decimals (amount decimals : Js.Number) :
  Js.isInteger decimals = false \/ Js.ltZero decimals = true ->
  exists e, toBaseUnits amount decimals = Throw e.
Proof.
  intros H. unfold toBaseUnits.
  destruct (negb (Js.isFinite amount) || Js.ltZero amount); [eauto|].
  destruct H as [H|H]; rewrite H; simpl; [eauto|].
  rewrite orb_true_r. eauto.
Qed.

(** ** Digit strings *)

Section DigitStrings.

Local Abbreviation V := (Js.digitsValue 0).

Lemma length_app (a b : string) :
  String.length (a ++ b) = (String.length a + String.length b)%nat.
Proof. induction a as [|c a IH]; simpl; [reflexivity | rewrite IH; reflexivity]. Qed.

Lemma app_empty_r (a : string) : (a ++ "")%string = a.
Proof. induction a as [|c a IH]; simpl; [reflexivity | rewrite IH; reflexivity]. Qed.

Lemma length_zeros (m : nat) : String.length (Js.zeros m) = m.
Proof. induction m as [|m IH]; simpl; [reflexivity | rewrite IH; reflexivity]. Qed.

Lemma take_drop (n : nat) (a : string) : (Js.take n a ++ Js.drop n a)%string = a.
Proof.
  revert a. induction n as [|n IH]; intros [|c a]; simpl; try reflexivity.
  rewrite IH. reflexivity.
Qed.

Lemma length_take (n : nat) (a : string) :
  (n <= String.length a)%nat -> String.length (Js.take n a) = n.
Proof.
  revert a. induction n as [|n IH]; intros [|c a]; simpl; intros H;
    try reflexivity; try lia.
  rewrite IH by lia. reflexivity.
Qed.

Lemma take_all (n : nat) (a : string) :
  (String.length a <= n)%nat -> Js.take n a = a.
Proof.
  revert a. induction n as [|n IH]; intros [|c a]; simpl; intros H;
    try reflexivity; try lia.
  rewrite IH by lia. reflexivity.
Qed.

Lemma allDigits_app (a b : string) :
  Js.allDigits (a ++ b) = Js.allDigits a && Js.allDigits b.
Proof.
  induction a as [|c a IH]; simpl; [reflexivity|].
  rewrite IH, andb_assoc. reflexivity.
Qed.

Lemma allDigits_zeros (m : nat) : Js.allDigits (Js.zeros m) = true.
Proof. induction m as [|m IH]; simpl; [reflexivity | exact IH]. Qed.

Lemma allDigits_take_drop (n : nat) (a : string) :
  Js.allDigits a = true ->
  Js.allDigits (Js.take n a) = true /\ Js.allDigits (Js.drop n a) = true.
Proof.
  intros H. rewrite <- (take_drop n a), allDigits_app in H.
  apply andb_prop in H. exact H.
Qed.

(** Reading digits after an accumulator shifts the accumulator. *)
Lemma digitsValue_acc (a : string) :
  forall acc, Js.digitsValue acc a = acc * 10 ^ Z.of_nat (String.length a) + V a.
Proof.
  induction a as [|c a IH]; intros acc; cbn [Js.digitsValue String.length].
  - rewrite Z.pow_0_r. lia.
  - rewrite (IH (10 * acc + _)), (IH (10 * 0 + _)), Nat2Z.inj_succ, Z.pow_succ_r by lia.
    ring.
Qed.

Lemma digitsValue_app (a b : string) :
  V (a ++ b) = V a * 10 ^ Z.of_nat (String.length b) + V b.
Proof.
  assert (H : forall acc, Js.digitsValue acc (a ++ b)
                          = Js.digitsValue (Js.digitsValue acc a) b).
  { induction a as [|c a IH]; intros acc; simpl; [reflexivity | apply IH]. }
  rewrite H, digitsValue_acc. reflexivity.
Qed.

Lemma digitsValue_zeros (m : nat) : V (Js.zeros m) = 0.
Proof. induction m as [|m IH]; simpl; [reflexivity | exact IH]. Qed.

Lemma isDigit_value (c : ascii) :
  Js.isDigit c = true -> 0 <= Z.of_nat (nat_of_ascii c) - 48 <= 9.
Proof.
  unfold Js.isDigit. intros H. apply andb_prop in H. destruct H as [H1 H2].
  apply Nat.leb_le in H1, H2. lia.
Qed.

Lemma digitsValue_bound (a : string) :
  Js.allDigits a = true -> 0 <= V a < 10 ^ Z.of_nat (String.length a).
Proof.
  induction a as [|c a IH]; cbn [Js.allDigits Js.digitsValue String.length]; intros H.
  - rewrite Z.pow_0_r. lia.
  - apply andb_prop in H. destruct H as [Hc Ha].
    apply isDigit_value in Hc. specialize (IH Ha).
    rewrite digitsValue_acc, Nat2Z.inj_succ, Z.pow_succ_r by lia.
    nia.
Qed.

(** The leading digits are the quotient and the trailing digits the
    remainder by the power of ten. *)
Lemma digitsValue_take_drop (n : nat) (a : string) :
  Js.allDigits a = true ->
  let m := Z.of_nat (String.length (Js.drop n a)) in
  V (Js.take n a) = V a / 10 ^ m /\ V (Js.drop n a) = V a mod 10 ^ m.
Proof.
  intros Ha m.
  destruct (allDigits_take_drop n a Ha) as [_ Hd].
  pose proof (digitsValue_bound _ Hd) as Hb. fold m in Hb.
  pose proof (digitsValue_app (Js.take n a) (Js.drop n a)) as Happ.
  rewrite take_drop in Happ. fold m in Happ.
  assert (Hpos : 0 < 10 ^ m) by (apply Z.pow_pos_nonneg; lia).
  split.
  - apply (Z.div_unique_pos _ _ _ (V (Js.drop n a))); lia.
  - apply (Z.mod_unique_pos _ _ (V (Js.take n a))); lia.
Qed.

Lemma length_drop (n : nat) (a : string) :
  String.length (Js.drop n a) = (String.length a - n)%nat.
Proof.
  revert a. induction n as [|n IH]; intros [|c a]; simpl; try reflexivity.
  apply IH.
Qed.

(** The digits of [s] read back as [s]. *)
Lemma allDigits_string_of_uint (d : Decimal.uint) :
  Js.allDigits (NilEmpty.string_of_uint d) = true.
Proof. induction d; simpl; try reflexivity; assumption. Qed.

Ltac digit_code :=
  match goal with
  | |- context [Z.of_nat (nat_of_ascii ?c)] =>
      let v := eval vm_compute in (Z.of_nat (nat_of_ascii c)) in
      change (Z.of_nat (nat_of_ascii c)) with v
  end.

Lemma digitsValue_of_uint_acc (d : Decimal.uint) :
  forall acc : positive,
    Js.digitsValue (Z.pos acc) (NilEmpty.string_of_uint d)
    = Z.pos (Pos.of_uint_acc d acc).
Proof.
  induction d; intros acc; cbn [NilEmpty.string_of_uint Js.digitsValue Pos.of_uint_acc];
    try reflexivity;
    rewrite <- IHd; f_equal; digit_code; lia.
Qed.

Lemma digitsValue_of_uint (d : Decimal.uint) :
  V (NilEmpty.string_of_uint d) = Z.of_N (Pos.of_uint d).
Proof.
  induction d; cbn [NilEmpty.string_of_uint Js.digitsValue Pos.of_uint];
    try reflexivity;
    try (cbn [Z.of_N]; rewrite <- digitsValue_of_uint_acc; f_equal; digit_code; lia).
  exact IHd.
Qed.

Lemma digits_value (s : positive) : V (Js.digits s) = Z.pos s.
Proof.
  unfold Js.digits. rewrite digitsValue_of_uint, DecimalPos.Unsigned.of_to. reflexivity.
Qed.

Lemma digits_allDigits (s : positive) : Js.allDigits (Js.digits s) = true.
Proof. apply allDigits_string_of_uint. Qed.

End DigitStrings.

(** ** The conversion in positional notation *)

Section PositionalConversion.

Local Abbreviation V := (Js.digitsValue 0).

Lemma isDigit_not_dot (c : ascii) : Js.isDigit c = true -> Ascii.eqb c "." = false.
Proof.
  intros H. destruct (Ascii.eqb_spec c ".") as [->|Hne]; [|reflexivity].
  vm_compute in H. discriminate H.
Qed.

Lemma split_digits (a : string) : Js.allDigits a = true -> Js.split "." a = [a].
Proof.
  induction a as [|c a IH]; simpl; intros H; [reflexivity|].
  apply andb_prop in H. destruct H as [Hc Ha].
  rewrite (isDigit_not_dot c Hc), (IH Ha). reflexivity.
Qed.

Lemma split_dot (a b : string) :
  Js.allDigits a = true ->
  Js.split "." (a ++ String "." b) = a :: Js.split "." b.
Proof.
  induction a as [|c a IH]; simpl; intros H; [reflexivity|].
  apply andb_prop in H. destruct H as [Hc Ha].
  rewrite (isDigit_not_dot c Hc), (IH Ha). reflexivity.
Qed.

Lemma parseBigInt_digits (a : string) :
  Js.allDigits a = true -> Js.parseBigInt (Js.orZero a) = Some (V a).
Proof.
  intros H. destruct a as [|c a]; [reflexivity|].
  unfold Js.orZero, Js.parseBigInt. rewrite H. reflexivity.
Qed.

(** An amount printed without a dot. *)
Lemma convert_integer (I : string) (d : nat) :
  Js.allDigits I = true ->
  convertString I d = Ok (V I * 10 ^ Z.of_nat d).
Proof.
  intros HI. unfold convertString. rewrite (split_digits I HI). cbn [nth].
  rewrite (parseBigInt_digits I HI). cbn [fromOption bind].
  unfold Js.slice0, Js.padEnd. cbn [String.append String.length].
  rewrite Nat.sub_0_r, (take_all d (Js.zeros d)) by (rewrite length_zeros; lia).
  rewrite (parseBigInt_digits _ (allDigits_zeros d)), digitsValue_zeros.
  cbn [fromOption bind]. f_equal. lia.
Qed.

(** The fraction cut or padded to [d] digits. *)
Lemma fraction_value (F : string) (d : nat) :
  Js.allDigits F = true ->
  let m := String.length F in
  Js.allDigits (Js.slice0 d (Js.padEnd d F)) = true
  /\ V (Js.slice0 d (Js.padEnd d F))
     = if (m <=? d)%nat then V F * 10 ^ Z.of_nat (d - m)
       else V F / 10 ^ Z.of_nat (m - d).
Proof.
  intros HF m. unfold Js.slice0, Js.padEnd. fold m.
  destruct (Nat.leb_spec m d) as [Hle|Hgt].
  - rewrite take_all by (rewrite length_app, length_zeros; unfold m; lia).
    rewrite allDigits_app, HF, allDigits_zeros, digitsValue_app,
      digitsValue_zeros, length_zeros.
    split; [reflexivity | lia].
  - replace (d - m)%nat with 0%nat by lia. cbn [Js.zeros]. rewrite app_empty_r.
    destruct (allDigits_take_drop d F HF) as [Ht _].
    destruct (digitsValue_take_drop d F HF) as [Hq _].
    rewrite length_drop in Hq. fold m in Hq.
    split; [exact Ht | exact Hq].
Qed.

(** An amount printed with a dot. *)
Lemma convert_fraction (I F : string) (d : nat) :
  Js.allDigits I = true -> Js.allDigits F = true ->
  convertString (I ++ String "." F) d
  = Ok (V I * 10 ^ Z.of_nat d + V (Js.slice0 d (Js.padEnd d F))).
Proof.
  intros HI HF. unfold convertString.
  rewrite (split_dot I F HI), (split_digits F HF). cbn [nth].
  rewrite (parseBigInt_digits I HI). cbn [fromOption bind].
  destruct (fraction_value F d HF) as [Hall _].
  rewrite (parseBigInt_digits _ Hall). reflexivity.
Qed.

(** Cutting the decimal expansion [q.r] of [s / 10^m] after [d]
    fractional digits is the floor of [s * 10^(d-m)]. *)
Lemma truncation_arith (s q r : Z) (m d : nat) :
  s = q * 10 ^ Z.of_nat m + r -> 0 <= r < 10 ^ Z.of_nat m ->
  q * 10 ^ Z.of_nat d
  + (if (m <=? d)%nat then r * 10 ^ Z.of_nat (d - m) else r / 10 ^ Z.of_nat (m - d))
  = (let e := Z.of_nat d - Z.of_nat m in
     if 0 <=? e then s * 10 ^ e else s / 10 ^ (- e)).
Proof.
  intros Hs Hr. cbv zeta.
  destruct (Nat.leb_spec m d) as [Hle|Hgt].
  - replace (0 <=? Z.of_nat d - Z.of_nat m) with true by (symmetry; apply Z.leb_le; lia).
    replace (Z.of_nat d) with (Z.of_nat m + (Z.of_nat d - Z.of_nat m)) at 1 by lia.
    rewrite Z.pow_add_r, Nat2Z.inj_sub by lia. subst s. ring.
  - replace (0 <=? Z.of_nat d - Z.of_nat m) with false by (symmetry; apply Z.leb_gt; lia).
    replace (- (Z.of_nat d - Z.of_nat m)) with (Z.of_nat (m - d)) by lia.
    assert (Hpow : 10 ^ Z.of_nat m = 10 ^ Z.of_nat d * 10 ^ Z.of_nat (m - d))
      by (rewrite <- Z.pow_add_r by lia; f_equal; lia).
    assert (Hpos : 0 < 10 ^ Z.of_nat (m - d)) by (apply Z.pow_pos_nonneg; lia).
    subst s. rewrite Hpow.
    replace (q * (10 ^ Z.of_nat d * 10 ^ Z.of_nat (m - d)) + r)
      with (q * 10 ^ Z.of_nat d * 10 ^ Z.of_nat (m - d) + r) by ring.
    rewrite Z.div_add_l by lia. reflexivity.
Qed.

Lemma decimals_nonneg (decimals : Js.Number) :
  Js.ltZero decimals = false -> 0 <= Js.toZ decimals.
Proof.
  destruct decimals as [| |neg|neg s n]; cbn [Js.ltZero Js.toZ]; try lia.
  destruct neg; [discriminate|]. intros _.
  apply Z.mul_nonneg_nonneg; [lia|]. apply Z.pow_nonneg. lia.
Qed.

(** The truncation law: for every amount that [toString] prints in
    positional notation, and every non-negative integral [decimals], the
    conversion returns the amount truncated to [decimals] fractional
    digits, times [10^decimals]. *)
Theorem toBaseUnits_positional (s : positive) (n : Z) (decimals : Js.Number) :
  -6 < n <= 21 ->
  Js.isInteger decimals = true -> Js.ltZero decimals = false ->
  toBaseUnits (Js.Finite false s n) decimals
  = Ok (truncatedBaseUnits (Js.Finite false s n) (Js.toZ decimals)).
Proof.
  intros Hn Hint Hneg.
  pose proof (decimals_nonneg decimals Hneg) as Hd.
  unfold toBaseUnits. rewrite Hint, Hneg. cbn [Js.isFinite Js.ltZero negb orb Js.toString].
  set (d := Z.to_nat (Js.toZ decimals)).
  assert (Ed : Js.toZ decimals = Z.of_nat d) by (unfold d; lia).
  unfold truncatedBaseUnits. rewrite Ed. clearbody d. clear Ed Hd Hint Hneg.
  pose proof (digits_allDigits s) as Hall.
  pose proof (digits_value s) as Hval.
  pose proof (digitsValue_bound _ Hall) as Hbound.
  unfold Js.positiveToString, Js.numDigits in *.
  set (ds := Js.digits s) in *.
  set (k := Z.of_nat (String.length ds)) in *.
  rewrite Hval in Hbound.
  destruct (Z.leb_spec k n) as [Hkn|Hkn].
  - replace (n <=? 21) with true by (symmetry; apply Z.leb_le; lia). cbn [andb].
    rewrite convert_integer
      by (rewrite allDigits_app, Hall, allDigits_zeros; reflexivity).
    rewrite digitsValue_app, digitsValue_zeros, length_zeros, Hval.
    replace (0 <=? n - k + Z.of_nat d) with true by (symmetry; apply Z.leb_le; lia).
    rewrite Z2Nat.id, Z.add_0_r, <- Z.mul_assoc, <- Z.pow_add_r by lia. reflexivity.
  - cbn [andb].
    assert (Hgoal : forall I F,
               Js.allDigits I = true -> Js.allDigits F = true ->
               Z.of_nat (String.length F) = k - n ->
               Z.pos s = V I * 10 ^ Z.of_nat (String.length F) + V F ->
               convertString (I ++ String "." F) d
               = Ok (if 0 <=? n - k + Z.of_nat d
                     then Z.pos s * 10 ^ (n - k + Z.of_nat d)
                     else Z.pos s / 10 ^ (- (n - k + Z.of_nat d)))).
    { intros I F HI HF Hlen Hs.
      rewrite (convert_fraction I F d HI HF).
      destruct (fraction_value F d HF) as [_ ->].
      rewrite (truncation_arith (Z.pos s) (V I) (V F) (String.length F) d Hs
                 (digitsValue_bound F HF)).
      cbv zeta. replace (Z.of_nat d - Z.of_nat (String.length F))
        with (n - k + Z.of_nat d) by lia.
      reflexivity. }
    destruct (Z.ltb_spec 0 n) as [Hpos|Hnonpos].
    + replace (n <=? 21) with true by (symmetry; apply Z.leb_le; lia). cbn [andb].
      destruct (allDigits_take_drop (Z.to_nat n) ds Hall) as [Ht Hdr].
      change (Js.take (Z.to_nat n) ds ++ "." ++ Js.drop (Z.to_nat n) ds)%string
        with (Js.take (Z.to_nat n) ds ++ String "." (Js.drop (Z.to_nat n) ds))%string.
      apply Hgoal; [exact Ht | exact Hdr | rewrite length_drop; unfold k; lia |].
      rewrite <- digitsValue_app, take_drop. symmetry. exact Hval.
    + replace (-6 <? n) with true by (symmetry; apply Z.ltb_lt; lia).
      replace (n <=? 0) with true by (symmetry; apply Z.leb_le; lia). cbn [andb].
      change ("0." ++ Js.zeros (Z.to_nat (- n)) ++ ds)%string
        with ("0" ++ String "." (Js.zeros (Z.to_nat (- n)) ++ ds))%string.
      apply Hgoal.
      * reflexivity.
      * rewrite allDigits_app, allDigits_zeros, Hall. reflexivity.
      * rewrite length_app, length_zeros. unfold k. lia.
      * rewrite digitsValue_app, digitsValue_zeros, Hval. reflexivity.
Qed.

End PositionalConversion.

(** The amount zero converts to zero. *)
Lemma toBaseUnits_zero (negative : bool) (decimals : Js.Number) :
  Js.isInteger decimals = true -> Js.ltZero decimals = false ->
  toBaseUnits (Js.Zero negative) decimals = Ok 0.
Proof.
  intros Hint Hneg. unfold toBaseUnits. rewrite Hint, Hneg.
  cbn [Js.isFinite Js.ltZero negb orb Js.toString].
  rewrite (convert_integer "0" _ eq_refl). reflexivity.
Qed.

(** ** Exponent notation *)

(** C5. The amount 1.5e-7 prints as "1.5e-7"; splitting at the dot
    yields the integer part "1" and the fraction "5e-7".  With 0
    decimals the conversion returns 1 and with 1 decimal it returns 15,
    where the value truncated to that many digits times the power of
    ten is 0; with 6 decimals it throws a SyntaxError.  Likewise 1.5e21
    prints as "1.5e+21" and converts to 1 with 0 decimals, where the
    value is 1500000000000000000000.  In positional notation (12.345
    with 2 decimals) the conversion truncates. *)
Theorem C5_exponent_notation_not_truncated :
  Js.shortest num_1_5em7 = true
  /\ Js.toString num_1_5em7 = "1.5e-7"
  /\ toBaseUnits num_1_5em7 (Js.Zero false) = Ok 1
  /\ truncatedBaseUnits num_1_5em7 0 = 0
  /\ toBaseUnits num_1_5em7 (Js.Finite false 1 1) = Ok 15
  /\ truncatedBaseUnits num_1_5em7 1 = 0
  /\ toBaseUnits num_1_5em7 num_6 = Throw BigIntSyntaxError
  /\ Js.toString num_1_5e21 = "1.5e+21"
  /\ toBaseUnits num_1_5e21 (Js.Zero false) = Ok 1
  /\ truncatedBaseUnits num_1_5e21 0 = 1500000000000000000000
  /\ toBaseUnits num_12_345 (Js.Finite false 2 1) = Ok 1234
  /\ truncatedBaseUnits num_12_345 2 = 1234.
Proof.
  repeat split; vm_compute; reflexivity.
Qed.

(** * Properties of the add-liquidity pre-flight *)

Lemma parseBigInt_nonneg (s : string) (z : Z) :
  Js.parseBigInt s = Some z -> 0 <= z.
Proof.
  unfold Js.parseBigInt. destruct (Js.allDigits s) eqn:E; [|discriminate].
  intros H. injection H as <-. apply (digitsValue_bound s E).
Qed.

Lemma toBaseUnits_returns_valid_nonneg_core (amount decimals : Js.Number) (z : Z) :
  toBaseUnits amount decimals = Ok z ->
  Js.isFinite amount = true /\ Js.ltZero amount = false
  /\ Js.isInteger decimals = true /\ Js.ltZero decimals = false
  /\ 0 <= z.
Proof.
  unfold toBaseUnits.
  destruct (Js.isFinite amount); [|discriminate].
  destruct (Js.ltZero amount); [discriminate|].
  destruct (Js.isInteger decimals); [|discriminate].
  destruct (Js.ltZero decimals); [discriminate|]. cbn [negb orb].
  unfold convertString.
  destruct (Js.parseBigInt (Js.orZero (nth 0 _ _))) as [i|] eqn:Ei; [|discriminate].
  destruct (Js.parseBigInt (Js.orZero (Js.slice0 _ _))) as [f|] eqn:Ef; [|discriminate].
  cbn [fromOption bind]. intros H. injection H as <-.
  apply parseBigInt_nonneg in Ei, Ef.
  repeat split; try reflexivity.
  assert (0 <= 10 ^ Z.of_nat (Z.to_nat (Js.toZ decimals))) by (apply Z.pow_nonneg; lia).
  nia.
Qed.

(** The pre-flight in double precision at the scenario and on both
    sides of the threshold; the ratio check where the quotient of
    doubles falls below the exact quotient ([21 / (3 / 17)] is
    [118.99999999999999], not [119]) and on a pool with an empty
    reserve; and an amount beyond the range of doubles, whose product
    with zero is NaN and passes the comparison. *)
Lemma preflight_double_examples :
  sqrtProduct 900 900 = Some 900
  /\ map (fun ab : Z * Z => tooSmall (fst ab) (snd ab))
         [(900, 900); (1000, 1002); (1001, 1001); (1, 1002000); (1002001, 1);
          (0, 10 ^ 38); (10 ^ 18, 10 ^ 18); (2 ^ 64 + 1, 3); (2 ^ 127, 2 ^ 127)]
     = [true; true; false; true; false; true; false; false; false]
  /\ idealAmount1Base ratioPool 21 = Double.ofZ 118
  /\ 21 * 17 / 3 = 119
  /\ preflight ratioPool 21 118 = Ok tt
  /\ preflight ratioPool 21 117 = Throw (RatioError (Some 118))
  /\ preflight drainedPool 21 (10 ^ 30) = Throw (RatioError None)
  /\ sqrtProduct (10 ^ 309) 0 = None
  /\ preflight emptyPool (10 ^ 309) 0 = Ok tt.
Proof.
  repeat split; vm_compute; reflexivity.
Qed.

Section AddLiquidityFacts.

Variable getTokenDecimals : string -> Result Js.Number.
Variable validPrincipal : string -> bool.
Variable validUInt : Z -> bool.

(** After a pre-flight that passes, [addLiquidity] returns the call or
    throws what [principalCV] or [uintCV] throws. *)
Lemma addLiquidity_arguments (pool : Pool) (amount0Base amount1Base : Z) :
  (arg0 <- principalCV validPrincipal (token0 pool) ;;
   arg1 <- principalCV validPrincipal (token1 pool) ;;
   arg2 <- uintCV validUInt (fee pool) ;;
   arg3 <- uintCV validUInt amount0Base ;;
   arg4 <- uintCV validUInt amount1Base ;;
   arg5 <- uintCV validUInt 0 ;;
   arg6 <- uintCV validUInt 0 ;;
   Ok {| functionName := "add-liquidity";
         functionArgs := [arg0; arg1; arg2; arg3; arg4; arg5; arg6] |})
  <> Throw TooSmall.
Proof.
  unfold principalCV, uintCV.
  destruct (validPrincipal (token0 pool)); cbn [bind]; [|discriminate].
  destruct (validPrincipal (token1 pool)); cbn [bind]; [|discriminate].
  destruct (validUInt (fee pool)); cbn [bind]; [|discriminate].
  destruct (validUInt amount0Base); cbn [bind]; [|discriminate].
  destruct (validUInt amount1Base); cbn [bind]; [|discriminate].
  destruct (validUInt 0); cbn [bind]; discriminate.
Qed.

(** With decimals found and amounts converted, [addLiquidity] throws
    the too-small error exactly when the pre-flight does. *)
Lemma addLiquidity_tooSmall (pool : Pool) (amount0 amount1 dec0 dec1 : Js.Number)
    (amount0Base amount1Base : Z) :
  Js.isZero amount0 = false -> Js.isZero amount1 = false ->
  getTokenDecimals (token0 pool) = Ok dec0 ->
  getTokenDecimals (token1 pool) = Ok dec1 ->
  toBaseUnits amount0 dec0 = Ok amount0Base ->
  toBaseUnits amount1 dec1 = Ok amount1Base ->
  snd (addLiquidity getTokenDecimals validPrincipal validUInt pool amount0 amount1)
    = Throw TooSmall
  <-> preflight pool amount0Base amount1Base = Throw TooSmall.
Proof.
  intros Hz0 Hz1 Hd0 Hd1 Hb0 Hb1.
  unfold addLiquidity. rewrite Hz0, Hz1, Hd0, Hd1. cbn [orb snd].
  rewrite Hb0, Hb1. cbn [bind].
  destruct (preflight pool amount0Base amount1Base) as [[]|e]; cbn [bind].
  - split; [|discriminate]. intros H.
    exfalso. exact (addLiquidity_arguments pool amount0Base amount1Base H).
  - split; intros H; injection H as ->; reflexivity.
Qed.

End AddLiquidityFacts.

(** C10. Whenever [amount0] or [amount1] is zero, [addLiquidity] throws
    the zero-amount error, returns no call options, and has performed
    no decimals lookup (and so no conversion and no ratio check). *)
Theorem C10_zero_amount_rejected_first
    (getTokenDecimals : string -> Result Js.Number)
    (validPrincipal : string -> bool) (validUInt : Z -> bool)
    (pool : Pool) (amount0 amount1 : Js.Number) :
  Js.isZero amount0 = true \/ Js.isZero amount1 = true ->
  addLiquidity getTokenDecimals validPrincipal validUInt pool amount0 amount1
    = ([], Throw ZeroAmount)
  /\ (forall options,
        snd (addLiquidity getTokenDecimals validPrincipal validUInt pool amount0 amount1)
          <> Ok options).
Proof.
  intros H.
  assert (E : addLiquidity getTokenDecimals validPrincipal validUInt pool amount0 amount1
              = ([], Throw ZeroAmount)).
  { unfold addLiquidity. destruct H as [H|H]; rewrite H; [reflexivity|].
    rewrite orb_true_r. reflexivity. }
  split; [exact E|].
  intros options. rewrite E. simpl. discriminate.
Qed.

Lemma C10_zero_amount_rejected_first_witness :
  addLiquidity (fun _ => Ok num_6) acceptsPrincipal acceptsUInt
      scenarioPool (Js.Zero false) num_900
    = ([], Throw ZeroAmount)
  /\ (forall options,
        snd (addLiquidity (fun _ => Ok num_6) acceptsPrincipal acceptsUInt
               scenarioPool (Js.Zero false) num_900)
          <> Ok options).
Proof.
  apply (C10_zero_amount_rejected_first (fun _ => Ok num_6) acceptsPrincipal acceptsUInt
           scenarioPool (Js.Zero false) num_900).
  left. reflexivity.
Defined.

(** C7. For a pool with zero total liquidity, once both amounts are
    converted to base units, each to an integer in the range of the
    finite doubles, [addLiquidity] fails with the too-small error if
    and only if floor(sqrt(amount0Base * amount1Base)) is not strictly
    greater than 1000; amounts 900 and 900 give
    floor(sqrt(810000)) = 900 <= 1000 and are rejected. *)
Theorem C7_too_small_iff
    (getTokenDecimals : string -> Result Js.Number)
    (validPrincipal : string -> bool) (validUInt : Z -> bool)
    (pool : Pool) (amount0 amount1 dec0 dec1 : Js.Number)
    (amount0Base amount1Base : Z) :
  liquidity pool = 0 ->
  Js.isZero amount0 = false -> Js.isZero amount1 = false ->
  getTokenDecimals (token0 pool) = Ok dec0 ->
  getTokenDecimals (token1 pool) = Ok dec1 ->
  toBaseUnits amount0 dec0 = Ok amount0Base ->
  toBaseUnits amount1 dec1 = Ok amount1Base ->
  amount0Base < 2 ^ 1023 -> amount1Base < 2 ^ 1023 ->
  (snd (addLiquidity getTokenDecimals validPrincipal validUInt pool amount0 amount1)
     = Throw TooSmall
     <-> ~ (Z.sqrt (amount0Base * amount1Base) > 1000))
  /\ MINIMUM_LIQUIDITY = 1000
  /\ Z.sqrt (900 * 900) = 900
  /\ preflight pool 900 900 = Throw TooSmall.
Proof.
  intros Hliq Hz0 Hz1 Hd0 Hd1 Hb0 Hb1 Hfin0 Hfin1.
  assert (Hpre : forall a b,
            preflight pool a b = if tooSmall a b then Throw TooSmall else Ok tt).
  { intros a b. unfold preflight. rewrite Hliq. reflexivity. }
  destruct (toBaseUnits_returns_valid_nonneg_core _ _ _ Hb0) as (_ & _ & _ & _ & Hnn0).
  destruct (toBaseUnits_returns_valid_nonneg_core _ _ _ Hb1) as (_ & _ & _ & _ & Hnn1).
  split; [|split; [reflexivity|split; [reflexivity|]]].
  - rewrite (addLiquidity_tooSmall getTokenDecimals validPrincipal validUInt pool
               amount0 amount1 dec0 dec1 amount0Base amount1Base Hz0 Hz1 Hd0 Hd1 Hb0 Hb1).
    rewrite Hpre, (tooSmall_exact amount0Base amount1Base) by lia.
    destruct (Z.leb_spec (Z.sqrt (amount0Base * amount1Base)) 1000); split;
      try reflexivity; try discriminate; lia.
  - rewrite Hpre. vm_compute. reflexivity.
Qed.

Lemma C7_too_small_iff_witness :
  (snd (addLiquidity (fun _ => Ok (Js.Zero false)) acceptsPrincipal acceptsUInt
          emptyPool num_900 num_900)
     = Throw TooSmall
   <-> ~ (Z.sqrt (900 * 900) > 1000))
  /\ MINIMUM_LIQUIDITY = 1000
  /\ Z.sqrt (900 * 900) = 900
  /\ preflight emptyPool 900 900 = Throw TooSmall.
Proof.
  apply (C7_too_small_iff (fun _ => Ok (Js.Zero false)) acceptsPrincipal acceptsUInt
           emptyPool num_900 num_900 (Js.Zero false) (Js.Zero false) 900 900);
    vm_compute; reflexivity.
Defined.

(** * Properties of pool discovery *)

Section DiscoveryFacts.

Variable w : World.

Lemma stringGt_asym (a b : string) : stringGt a b = true -> stringGt b a = false.
Proof.
  unfold stringGt. rewrite (String.compare_antisym a b).
  destruct (String.compare b a); simpl; congruence.
Qed.

Lemma stringGt_total (a b : string) :
  stringGt a b = false -> stringGt b a = false -> a = b.
Proof.
  unfold stringGt. rewrite (String.compare_antisym a b).
  destruct (String.compare b a) eqn:E; simpl; try congruence.
  intros _ _. symmetry. apply String.compare_eq_iff. exact E.
Qed.

Lemma stringGt_irrefl (a : string) : stringGt a a = false.
Proof.
  destruct (stringGt a a) eqn:E; [|reflexivity].
  pose proof (stringGt_asym _ _ E). congruence.
Qed.

(** Canonicalizing a canonical pair leaves it unchanged. *)
Lemma canonicalPair_idempotent (a b c0 c1 : string) :
  canonicalPair w a b = Some (c0, c1) ->
  canonicalPair w c0 c1 = Some (c0, c1).
Proof.
  unfold canonicalPair.
  destruct (principalHex w a) as [ha|] eqn:Ha; [|discriminate].
  destruct (principalHex w b) as [hb|] eqn:Hb; [|discriminate].
  destruct (stringGt ha hb) eqn:E; intros H; injection H as <- <-.
  - rewrite Hb, Ha, (stringGt_asym _ _ E). reflexivity.
  - rewrite Ha, Hb, E. reflexivity.
Qed.

(** The pair the event scan settles on is a fixed point of [canonicalPair]
    whenever both tokens parse. *)
Lemma canonicalOrEventOrder_stable (a b c0 c1 : string) (c : string * string) :
  canonicalOrEventOrder w a b = (c0, c1) ->
  canonicalPair w c0 c1 = Some c -> c = (c0, c1).
Proof.
  unfold canonicalOrEventOrder.
  destruct (canonicalPair w a b) as [[d0 d1]|] eqn:E; intros H; injection H as <- <-.
  - rewrite (canonicalPair_idempotent _ _ _ _ E). congruence.
  - rewrite E. discriminate.
Qed.

(** Every request of the pagination loop is at the next multiple of the
    window, every page but the last is full, and the last page is short
    or failed. *)
Lemma scanEvents_requests (fuel k : nat) (reqs : list Z) (pools : list Pool)
    (requests : list Z) (pools' : list Pool) :
  scanEvents w fuel (50 * Z.of_nat k) reqs pools = Some (requests, pools') ->
  exists m : nat,
    requests = (reqs ++ map (fun i => 50 * Z.of_nat i) (seq k (S m)))%list
    /\ (forall i, (k <= i < k + m)%nat ->
          exists events, fetchEvents w (50 * Z.of_nat i) = FetchOk events
                         /\ (50 <= List.length events)%nat)
    /\ (fetchEvents w (50 * Z.of_nat (k + m)) = FetchFailed
        \/ exists events, fetchEvents w (50 * Z.of_nat (k + m)) = FetchOk events
                          /\ (List.length events < 50)%nat).
Proof.
  revert k reqs pools.
  induction fuel as [|fuel IH]; intros k reqs pools; cbn [scanEvents]; [discriminate|].
  destruct (fetchEvents w (50 * Z.of_nat k)) as [|events] eqn:Hfetch.
  - intros H. injection H as <- <-. exists 0%nat.
    rewrite Nat.add_0_r. repeat split; [lia | left; exact Hfetch].
  - destruct (Nat.ltb_spec (List.length events) 50) as [Hshort|Hfull].
    + intros H. injection H as <- <-. exists 0%nat.
      rewrite Nat.add_0_r. repeat split; [lia | right; eauto].
    + replace (50 * Z.of_nat k + 50) with (50 * Z.of_nat (S k)) by lia.
      intros H. apply IH in H. destruct H as (m & Hreq & Hfullpages & Hlast).
      exists (S m). repeat split.
      * rewrite Hreq, <- app_assoc. reflexivity.
      * intros i Hi. destruct (Nat.eq_dec i k) as [->|Hne]; [eauto|].
        apply Hfullpages. lia.
      * replace (k + S m)%nat with (S k + m)%nat by lia. exact Hlast.
Qed.

(** The loop ends as soon as a page is short or fails. *)
Lemma scanEvents_terminates (m : nat) :
  forall (fuel k : nat) (reqs : list Z) (pools : list Pool),
    (fetchEvents w (50 * Z.of_nat (k + m)) = FetchFailed
     \/ exists events, fetchEvents w (50 * Z.of_nat (k + m)) = FetchOk events
                       /\ (List.length events < 50)%nat) ->
    (m < fuel)%nat ->
    exists result, scanEvents w fuel (50 * Z.of_nat k) reqs pools = Some result.
Proof.
  induction m as [|m IH]; intros fuel k reqs pools Hlast Hfuel;
    (destruct fuel as [|fuel]; [lia|]); cbn [scanEvents].
  - rewrite Nat.add_0_r in Hlast.
    destruct Hlast as [-> | (events & -> & Hshort)]; [eauto|].
    apply Nat.ltb_lt in Hshort. rewrite Hshort. eauto.
  - destruct (fetchEvents w (50 * Z.of_nat k)) as [|events]; [eauto|].
    destruct (List.length events <? 50)%nat; [eauto|].
    replace (50 * Z.of_nat k + 50) with (50 * Z.of_nat (S k)) by lia.
    apply IH; [|lia].
    replace (S k + m)%nat with (k + S m)%nat by lia. exact Hlast.
Qed.

End DiscoveryFacts.

(** C6. For every pair of token principals (a, b), that is, of strings
    that parse as principals, and every fee: canonicalizing (a, b) and
    (b, a) yields the same ordered pair of principals (the encodings of
    the two results agree, and the results themselves agree whenever
    distinct strings denote distinct principals), and canonicalizing
    the canonical pair leaves it unchanged.  This holds for the
    canonicalization of the event scan and for that of [createPool]. *)
Theorem C6_canonicalization (w : World) (a b ha hb : string) (fee : Z) :
  principalHex w a = Some ha ->
  principalHex w b = Some hb ->
  let c := canonicalOrEventOrder w a b in
  canonicalPair w a b = Some c
  /\ pairHex w (canonicalOrEventOrder w a b) = pairHex w (canonicalOrEventOrder w b a)
  /\ canonicalPair w (fst c) (snd c) = Some c
  /\ canonicalOrEventOrder w (fst c) (snd c) = c
  /\ createPool w (fst c) (snd c) fee = createPool w a b fee
  /\ ((ha = hb -> a = b) ->
      canonicalPair w a b = canonicalPair w b a
      /\ canonicalOrEventOrder w a b = canonicalOrEventOrder w b a
      /\ createPool w a b fee = createPool w b a fee).
Proof.
  intros Ha Hb c.
  assert (Hsome : exists c0 c1, canonicalPair w a b = Some (c0, c1)).
  { unfold canonicalPair. rewrite Ha, Hb. destruct (stringGt ha hb); eauto. }
  destruct Hsome as (c0 & c1 & Hc).
  pose proof (canonicalPair_idempotent w _ _ _ _ Hc) as Hidem.
  assert (Ec : c = (c0, c1)) by (subst c; unfold canonicalOrEventOrder; rewrite Hc; reflexivity).
  rewrite Ec. simpl.
  split; [exact Hc|]. split.
  { unfold canonicalOrEventOrder, canonicalPair, pairHex. rewrite Ha, Hb.
    destruct (stringGt ha hb) eqn:E1.
    - rewrite (stringGt_asym _ _ E1). simpl. reflexivity.
    - destruct (stringGt hb ha) eqn:E2; simpl; [reflexivity|].
      rewrite Ha, Hb, (stringGt_total _ _ E1 E2). reflexivity. }
  split; [exact Hidem|].
  split; [unfold canonicalOrEventOrder; rewrite Hidem; reflexivity|].
  split; [unfold createPool; rewrite Hidem, Hc; reflexivity|].
  intros Hinj.
  assert (Hsym : canonicalPair w a b = canonicalPair w b a).
  { unfold canonicalPair. rewrite Ha, Hb.
    destruct (stringGt ha hb) eqn:E1.
    - rewrite (stringGt_asym _ _ E1). reflexivity.
    - destruct (stringGt hb ha) eqn:E2; [reflexivity|].
      rewrite (Hinj (stringGt_total _ _ E1 E2)). reflexivity. }
  unfold canonicalOrEventOrder, createPool. rewrite <- Hsym, Hc.
  repeat split; reflexivity.
Qed.

Lemma C6_canonicalization_witness :
  canonicalPair pagedWorld tokenB tokenA = Some (tokenA, tokenB)
  /\ canonicalPair pagedWorld tokenB tokenA = canonicalPair pagedWorld tokenA tokenB
  /\ canonicalPair pagedWorld tokenA tokenB = Some (tokenA, tokenB).
Proof.
  destruct (C6_canonicalization pagedWorld tokenB tokenA tokenB tokenA 500
              eq_refl eq_refl) as (Hc & _ & Hidem & _ & _ & Hsym).
  destruct (Hsym (fun H => H)) as (Hswap & _).
  exact (conj Hc (conj Hswap Hidem)).
Defined.

(** C8. The scan requests pages at offsets 0, 50, 100, ... in order:
    every page before the last request arrived with at least 50
    entries, and the last request either failed or returned fewer than
    50 entries; the loop ends as soon as such a page is met.  When the
    page at offset 0 has exactly 50 entries and the page at offset 50
    has 12, exactly the two requests at offsets 0 and 50 are issued. *)
Theorem C8_pagination (w : World) :
  (forall fuel requests pools,
      scanEvents w fuel 0 [] [] = Some (requests, pools) ->
      exists m : nat,
        requests = map (fun i => 50 * Z.of_nat i) (seq 0 (S m))
        /\ (forall i, (i < m)%nat ->
              exists events, fetchEvents w (50 * Z.of_nat i) = FetchOk events
                             /\ (50 <= List.length events)%nat)
        /\ (fetchEvents w (50 * Z.of_nat m) = FetchFailed
            \/ exists events, fetchEvents w (50 * Z.of_nat m) = FetchOk events
                              /\ (List.length events < 50)%nat))
  /\ (forall m fuel,
        (fetchEvents w (50 * Z.of_nat m) = FetchFailed
         \/ exists events, fetchEvents w (50 * Z.of_nat m) = FetchOk events
                           /\ (List.length events < 50)%nat) ->
        (m < fuel)%nat ->
        exists requests, pageRequests w fuel = Some requests)
  /\ (forall page1 page2 fuel,
        fetchEvents w 0 = FetchOk page1 -> List.length page1 = 50%nat ->
        fetchEvents w 50 = FetchOk page2 -> List.length page2 = 12%nat ->
        (2 <= fuel)%nat ->
        pageRequests w fuel = Some [0; 50]).
Proof.
  repeat split.
  - intros fuel requests pools H.
    apply (scanEvents_requests w fuel 0) in H.
    destruct H as (m & Hreq & Hfull & Hlast).
    exists m. repeat split; [exact Hreq | | exact Hlast].
    intros i Hi. apply Hfull. lia.
  - intros m fuel Hlast Hfuel.
    destruct (scanEvents_terminates w m fuel 0 [] [] Hlast Hfuel) as (r & Hr).
    unfold pageRequests. change (50 * Z.of_nat 0) with 0 in Hr.
    rewrite Hr. simpl. eauto.
  - intros page1 page2 fuel H1 L1 H2 L2 Hfuel.
    destruct fuel as [|[|fuel]]; try lia.
    unfold pageRequests. simpl.
    rewrite H1, L1. simpl. rewrite H2, L2. reflexivity.
Qed.

Lemma C8_pagination_witness :
  pageRequests pagedWorld 2 = Some [0; 50]
  /\ pageRequests pagedWorld 7 = Some [0; 50].
Proof.
  destruct (C8_pagination pagedWorld) as (_ & _ & Hscenario).
  split.
  - apply (Hscenario (repeat (printEvent "0x03") 50) (repeat (printEvent "0x03") 12) 2%nat);
      first [reflexivity | lia].
  - apply (Hscenario (repeat (printEvent "0x03") 50) (repeat (printEvent "0x03") 12) 7%nat);
      first [reflexivity | lia].
Defined.

(** ** Keys *)

Lemma bars_app (a b : string) : bars (a ++ b) = (bars a + bars b)%nat.
Proof.
  induction a as [|c a IH]; simpl; [reflexivity|].
  destruct (Ascii.eqb c "|"); simpl; rewrite IH; reflexivity.
Qed.

(** A string without separator determines the split at the first
    separator. *)
Lemma split_first_bar (a a' r r' : string) :
  bars a = 0%nat -> bars a' = 0%nat ->
  (a ++ String "|" r = a' ++ String "|" r')%string ->
  a = a' /\ r = r'.
Proof.
  revert a'. induction a as [|c a IH]; intros [|c' a'] Ha Ha' H; simpl in *.
  - injection H as ->. split; reflexivity.
  - injection H as <- _. simpl in Ha'. discriminate Ha'.
  - injection H as -> _. simpl in Ha. discriminate Ha.
  - injection H as -> H.
    destruct (Ascii.eqb c' "|"); [discriminate Ha|].
    destruct (IH a' Ha Ha' H) as [-> ->]. split; reflexivity.
Qed.

Lemma bars_poolKey (p : Pool) :
  bars (poolKey p)
  = (bars (token0 p) + bars (token1 p) + bars (Js.showZ (fee p)) + 2)%nat.
Proof.
  unfold poolKey. rewrite bars_app. simpl. rewrite bars_app. simpl. lia.
Qed.

(** Two records with the same key string carry the same tokens when
    those of one of them hold no separator. *)
Lemma poolKey_tokens (p q : Pool) :
  barFree (recordKey q) = true ->
  poolKey p = poolKey q ->
  token0 p = token0 q /\ token1 p = token1 q.
Proof.
  unfold barFree, recordKey. intros Hfree Hkey.
  apply andb_prop in Hfree. destruct Hfree as [Hfree Hf].
  apply andb_prop in Hfree. destruct Hfree as [H0 H1].
  apply Nat.eqb_eq in H0, H1, Hf.
  pose proof (f_equal bars Hkey) as Hbars.
  rewrite !bars_poolKey in Hbars.
  unfold poolKey in Hkey. simpl in Hkey.
  apply split_first_bar in Hkey; [|lia|lia].
  destruct Hkey as [E0 Hkey].
  apply split_first_bar in Hkey; [|lia|lia].
  destruct Hkey as [E1 _]. split; assumption.
Qed.

Lemma recordKey_poolKey (p q : Pool) : recordKey p = recordKey q -> poolKey p = poolKey q.
Proof.
  unfold recordKey, poolKey. intros H. injection H as -> -> ->. reflexivity.
Qed.

Lemma memString_false (x : string) (l : list string) :
  memString x l = false -> ~ In x l.
Proof.
  induction l as [|y l IH]; simpl; [tauto|].
  intros H. apply orb_false_elim in H. destruct H as [Hxy Hmem].
  apply String.eqb_neq in Hxy. intros [E|Hin]; [congruence | exact (IH Hmem Hin)].
Qed.

Lemma distinctStrings_NoDup (l : list string) :
  distinctStrings l = true -> NoDup l.
Proof.
  induction l as [|x l IH]; simpl; intros H; constructor.
  - apply andb_prop in H. destruct H as [H _].
    apply memString_false. destruct (memString x l); [discriminate|reflexivity].
  - apply andb_prop in H. destruct H as [_ H]. exact (IH H).
Qed.

Section OptionalMap.

Variables (A B K : Type) (f : A -> option B) (keyA : A -> K) (keyB : B -> K).
Hypothesis f_key : forall a b, f a = Some b -> keyB b = keyA a.

Lemma flat_map_option_keys (l : list A) (k : K) :
  In k (map keyB (flat_map (fun a => optionToList (f a)) l)) -> In k (map keyA l).
Proof.
  induction l as [|a l IH]; simpl; [tauto|].
  rewrite map_app, in_app_iff. intros [H|H]; [|right; exact (IH H)].
  destruct (f a) as [b|] eqn:E; simpl in H; [|tauto].
  destruct H as [<-|[]]. left. symmetry. exact (f_key _ _ E).
Qed.

(** Keeping the results of an optional function that preserves keys
    keeps the keys distinct. *)
Lemma flat_map_option_NoDup (l : list A) :
  NoDup (map keyA l) ->
  NoDup (map keyB (flat_map (fun a => optionToList (f a)) l)).
Proof.
  induction l as [|a l IH]; simpl; intros H; [constructor|].
  inversion H as [|? ? Hnotin Hrest]; subst.
  destruct (f a) as [b|] eqn:E; simpl; [|exact (IH Hrest)].
  constructor; [|exact (IH Hrest)].
  rewrite (f_key _ _ E). intros Hin. apply Hnotin.
  exact (flat_map_option_keys l _ Hin).
Qed.

End OptionalMap.

(** ** The insertion-ordered map *)

Lemma mapGet_In (k : string) (m : PoolMap) (v : Pool) :
  mapGet k m = Some v -> In (k, v) m.
Proof.
  induction m as [|[k' v'] m IH]; simpl; [discriminate|].
  destruct (String.eqb_spec k' k) as [->|Hne].
  - intros H. injection H as ->. left. reflexivity.
  - intros H. right. exact (IH H).
Qed.

Lemma mapGet_None (k : string) (m : PoolMap) :
  mapGet k m = None -> ~ In k (map fst m).
Proof.
  induction m as [|[k' v'] m IH]; simpl; [tauto|].
  destruct (String.eqb_spec k' k) as [->|Hne]; [discriminate|].
  intros H [E|Hin]; [congruence | exact (IH H Hin)].
Qed.

Lemma mapSet_absent (k : string) (v : Pool) (m : PoolMap) :
  mapGet k m = None -> mapSet k v m = (m ++ [(k, v)])%list.
Proof.
  induction m as [|[k' v'] m IH]; simpl; [reflexivity|].
  destruct (k' =? k)%string; [discriminate|].
  intros H. rewrite (IH H). reflexivity.
Qed.

Lemma mapSet_present_keys (k : string) (v v' : Pool) (m : PoolMap) :
  mapGet k m = Some v' -> map fst (mapSet k v m) = map fst m.
Proof.
  induction m as [|[k' v''] m IH]; simpl; [discriminate|].
  destruct (k' =? k)%string; simpl; [reflexivity|].
  intros H. rewrite (IH H). reflexivity.
Qed.

Lemma mapSet_In (k : string) (v : Pool) (m : PoolMap) (kv : string * Pool) :
  In kv (mapSet k v m) -> kv = (k, v) \/ In kv m.
Proof.
  induction m as [|[k' v'] m IH]; simpl.
  - intros [<-|[]]. left. reflexivity.
  - destruct (String.eqb_spec k' k) as [->|Hne]; simpl.
    + intros [<-|H]; [left; reflexivity | right; right; exact H].
    + intros [<-|H]; [right; left; reflexivity|].
      destruct (IH H) as [->|Hin]; [left; reflexivity | right; right; exact Hin].
Qed.

Lemma mapSet_NoDup (k : string) (v : Pool) (m : PoolMap) :
  NoDup (map fst m) -> NoDup (map fst (mapSet k v m)).
Proof.
  intros Hnd. destruct (mapGet k m) as [v'|] eqn:E.
  - rewrite (mapSet_present_keys k v v' m E). exact Hnd.
  - rewrite (mapSet_absent k v m E), map_app. simpl.
    apply NoDup_app; [exact Hnd | repeat constructor; simpl; tauto |].
    intros x Hin [<-|[]]. exact (mapGet_None _ _ E Hin).
Qed.

Lemma mapSet_keyed (v : Pool) (m : PoolMap) :
  keyed m -> keyed (mapSet (poolKey v) v m).
Proof.
  unfold keyed. rewrite !Forall_forall. intros H kv Hin.
  destruct (mapSet_In _ _ _ _ Hin) as [->|Hold]; [reflexivity | exact (H _ Hold)].
Qed.

Lemma keyed_values (m : PoolMap) :
  keyed m -> map poolKey (mapValues m) = map fst m.
Proof.
  unfold keyed, mapValues. induction 1 as [|kv m Hkv _ IH]; simpl; [reflexivity|].
  rewrite Hkv, IH. reflexivity.
Qed.

(** Setting another key leaves a lookup unchanged. *)
Lemma mapGet_mapSet_other (k k' : string) (v : Pool) (m : PoolMap) :
  k' <> k -> mapGet k (mapSet k' v m) = mapGet k m.
Proof.
  intros Hne. induction m as [|[k'' v''] m IH]; simpl.
  - destruct (String.eqb_spec k' k); [congruence | reflexivity].
  - destruct (String.eqb_spec k'' k') as [->|Hne'']; simpl.
    + destruct (String.eqb_spec k' k); [congruence | reflexivity].
    + destruct (k'' =? k)%string; [reflexivity | exact IH].
Qed.

Lemma mapGet_mapSet_same (k : string) (v : Pool) (m : PoolMap) :
  mapGet k (mapSet k v m) = Some v.
Proof.
  induction m as [|[k'' v''] m IH]; simpl.
  - rewrite String.eqb_refl. reflexivity.
  - destruct (String.eqb_spec k'' k) as [->|Hne]; simpl.
    + rewrite String.eqb_refl. reflexivity.
    + destruct (String.eqb_spec k'' k); [congruence | exact IH].
Qed.

(** ** Deduplication *)

Lemma dedupeStep_keyed (m : PoolMap) (p : Pool) :
  keyed m -> keyed (dedupeStep m p).
Proof.
  intros H. unfold dedupeStep.
  destruct (mapGet (poolKey p) m) as [existing|]; [|apply mapSet_keyed; exact H].
  destruct (isHexId (id p) && negb (isHexId (id existing)));
    [apply mapSet_keyed|]; exact H.
Qed.

Lemma dedupeStep_NoDup (m : PoolMap) (p : Pool) :
  NoDup (map fst m) -> NoDup (map fst (dedupeStep m p)).
Proof.
  intros H. unfold dedupeStep.
  destruct (mapGet (poolKey p) m) as [existing|]; [|apply mapSet_NoDup; exact H].
  destruct (isHexId (id p) && negb (isHexId (id existing)));
    [apply mapSet_NoDup|]; exact H.
Qed.

Lemma dedupeStep_In (m : PoolMap) (p : Pool) (kv : string * Pool) :
  In kv (dedupeStep m p) -> snd kv = p \/ In kv m.
Proof.
  unfold dedupeStep. intros H.
  assert (Hset : In kv (mapSet (poolKey p) p m) -> snd kv = p \/ In kv m).
  { intros Hin. destruct (mapSet_In _ _ _ _ Hin) as [->|Hold]; [left; reflexivity | right; exact Hold]. }
  destruct (mapGet (poolKey p) m) as [existing|]; [|exact (Hset H)].
  destruct (isHexId (id p) && negb (isHexId (id existing)));
    [exact (Hset H) | right; exact H].
Qed.

Lemma dedupe_fold_invariant (pools : list Pool) :
  forall m : PoolMap,
    keyed m -> NoDup (map fst m) ->
    let m' := fold_left dedupeStep pools m in
    keyed m' /\ NoDup (map fst m')
    /\ (forall kv, In kv m' -> In (snd kv) pools \/ In kv m).
Proof.
  induction pools as [|p pools IH]; intros m Hk Hnd; simpl.
  - repeat split; [exact Hk | exact Hnd | intros kv H; right; exact H].
  - destruct (IH (dedupeStep m p) (dedupeStep_keyed m p Hk) (dedupeStep_NoDup m p Hnd))
      as (Hk' & Hnd' & Hin').
    repeat split; [exact Hk' | exact Hnd' |].
    intros kv H. destruct (Hin' kv H) as [Hp|Hstep]; [left; right; exact Hp|].
    destruct (dedupeStep_In m p kv Hstep) as [E|Hold];
      [left; left; symmetry; exact E | right; exact Hold].
Qed.

(** The deduplication pass leaves at most one record per key, and only
    records it was given. *)
Lemma dedupe_NoDup (pools : list Pool) : NoDup (map poolKey (dedupe pools)).
Proof.
  destruct (dedupe_fold_invariant pools [] (Forall_nil _) (NoDup_nil _))
    as (Hk & Hnd & _).
  unfold dedupe. rewrite (keyed_values _ Hk). exact Hnd.
Qed.

Lemma dedupe_In (pools : list Pool) (p : Pool) :
  In p (dedupe pools) -> In p pools.
Proof.
  destruct (dedupe_fold_invariant pools [] (Forall_nil _) (NoDup_nil _))
    as (_ & _ & Hin).
  unfold dedupe, mapValues. rewrite in_map_iff. intros ([k v] & <- & H).
  destruct (Hin _ H) as [Hp|[]]. exact Hp.
Qed.

(** ** The passes of a discovery run *)

Section Pipeline.

Variable w : World.

Lemma readPool_recordKey (t0 t1 : string) (f : Z) (p : Pool) :
  readPool w t0 t1 f = Some p -> recordKey p = (t0, t1, f).
Proof.
  unfold readPool.
  destruct (getPoolId w t0 t1 f) as [poolId|]; [|discriminate].
  destruct (getPoolData w poolId) as [[[liq b0] b1]|]; [|discriminate].
  intros H. injection H as <-. reflexivity.
Qed.

Lemma directProbe_recordKey (probe : string * string * Z) (p : Pool) :
  directProbe w probe = Some p -> recordKey p = probe.
Proof.
  destruct probe as [[t0 t1] f]. unfold directProbe.
  destruct (poolExists w t0 t1 f); [|discriminate].
  apply readPool_recordKey.
Qed.

Lemma directProbe_poolKey (probe : string * string * Z) (p : Pool) :
  directProbe w probe = Some p -> poolKey p = probeKey probe.
Proof.
  intros H. apply directProbe_recordKey in H. subst probe. reflexivity.
Qed.

(** The direct sweep returns at most one record per key string. *)
Lemma getAllPoolsDirect_NoDup : NoDup (map poolKey (getAllPoolsDirect w)).
Proof.
  unfold getAllPoolsDirect.
  apply (flat_map_option_NoDup _ _ _ (directProbe w) probeKey poolKey directProbe_poolKey).
  apply distinctStrings_NoDup. vm_compute. reflexivity.
Qed.

(** The tokens and the fee of a record of the direct sweep hold no
    separator. *)
Lemma getAllPoolsDirect_barFree (dp : Pool) :
  In dp (getAllPoolsDirect w) -> barFree (recordKey dp) = true.
Proof.
  unfold getAllPoolsDirect. rewrite in_flat_map. intros (probe & Hprobe & Hin).
  destruct (directProbe w probe) as [p|] eqn:E; simpl in Hin; [|tauto].
  destruct Hin as [<-|[]]. rewrite (directProbe_recordKey _ _ E).
  assert (Hall : forallb barFree directProbes = true) by (vm_compute; reflexivity).
  rewrite forallb_forall in Hall. exact (Hall _ Hprobe).
Qed.

(** *** Canonical order of the scanned records *)

Lemma canonicalOrEventOrder_idempotent (a b c0 c1 : string) :
  canonicalOrEventOrder w a b = (c0, c1) ->
  canonicalOrEventOrder w c0 c1 = (c0, c1).
Proof.
  intros H. unfold canonicalOrEventOrder.
  destruct (canonicalPair w c0 c1) as [c|] eqn:E; [|reflexivity].
  exact (canonicalOrEventOrder_stable w _ _ _ _ _ H E).
Qed.

Lemma inCanonicalOrder_recordKey (p q : Pool) :
  token0 p = token0 q -> token1 p = token1 q ->
  inCanonicalOrder w q -> inCanonicalOrder w p.
Proof.
  unfold inCanonicalOrder. intros -> ->. tauto.
Qed.

(** Resolving a record in canonical order yields a record with the
    same key. *)
Lemma resolvePoolByPair_recordKey (t0 t1 : string) (f : Z) (r : Pool) :
  canonicalOrEventOrder w t0 t1 = (t0, t1) ->
  resolvePoolByPair w t0 t1 f = Some r ->
  recordKey r = (t0, t1, f).
Proof.
  unfold canonicalOrEventOrder, resolvePoolByPair.
  destruct (canonicalPair w t0 t1) as [[c0 c1]|]; [|discriminate].
  intros H. injection H as -> ->. apply readPool_recordKey.
Qed.

Lemma processEvent_canonical (event : ContractEvent) (p : Pool) :
  processEvent w event = Some p -> inCanonicalOrder w p.
Proof.
  unfold processEvent.
  destruct (decodeCreatePool w (value_hex event)) as [data|]; [|discriminate].
  destruct (canonicalOrEventOrder w (evToken0 data) (evToken1 data))
    as [canon0 canon1] eqn:Hc.
  pose proof (canonicalOrEventOrder_idempotent _ _ _ _ Hc) as Hidem.
  destruct (readPool w canon0 canon1 (evFee data)) as [built|] eqn:Hread.
  - intros H. injection H as <-.
    apply readPool_recordKey in Hread. unfold recordKey in Hread.
    injection Hread as E0 E1 _. unfold inCanonicalOrder. rewrite E0, E1. exact Hidem.
  - destruct (resolvePoolByPair w canon0 canon1 (evFee data)) as [resolved|] eqn:Hres.
    + intros H. injection H as <-.
      apply (resolvePoolByPair_recordKey _ _ _ _ Hidem) in Hres.
      unfold recordKey in Hres. injection Hres as E0 E1 _.
      unfold inCanonicalOrder. rewrite E0, E1. exact Hidem.
    + intros H. injection H as <-. exact Hidem.
Qed.

Lemma processPage_canonical (events : list ContractEvent) :
  Forall (inCanonicalOrder w) (processPage w events).
Proof.
  unfold processPage. rewrite Forall_forall. intros p.
  rewrite in_flat_map. intros (event & _ & Hin).
  destruct (processEvent w event) as [q|] eqn:E; simpl in Hin; [|tauto].
  destruct Hin as [<-|[]]. exact (processEvent_canonical _ _ E).
Qed.

Lemma scanEvents_canonical (fuel : nat) :
  forall offset reqs pools requests pools',
    Forall (inCanonicalOrder w) pools ->
    scanEvents w fuel offset reqs pools = Some (requests, pools') ->
    Forall (inCanonicalOrder w) pools'.
Proof.
  induction fuel as [|fuel IH]; intros offset reqs pools requests pools' Hall;
    cbn [scanEvents]; [discriminate|].
  destruct (fetchEvents w offset) as [|events].
  - intros H. injection H as _ <-. exact Hall.
  - assert (Hall' : Forall (inCanonicalOrder w) (pools ++ processPage w events))
      by (apply Forall_app; split; [exact Hall | apply processPage_canonical]).
    destruct (List.length events <? 50)%nat.
    + intros H. injection H as _ <-. exact Hall'.
    + apply IH. exact Hall'.
Qed.

(** *** The merge pass *)

Lemma directByPair_invariant (directPools : list Pool) :
  forall m : PoolMap,
    keyed m ->
    let m' := fold_left (fun m dp => mapSet (poolKey dp) dp m) directPools m in
    keyed m' /\ (forall kv, In kv m' -> In (snd kv) directPools \/ In kv m).
Proof.
  induction directPools as [|dp directPools IH]; intros m Hk; simpl.
  - split; [exact Hk | intros kv H; right; exact H].
  - destruct (IH (mapSet (poolKey dp) dp m) (mapSet_keyed dp m Hk)) as (Hk' & Hin').
    split; [exact Hk'|].
    intros kv H. destruct (Hin' kv H) as [Hd|Hset]; [left; right; exact Hd|].
    destruct (mapSet_In _ _ _ _ Hset) as [->|Hold];
      [left; left; reflexivity | right; exact Hold].
Qed.

Lemma mergeDirect_map (directPools pools : list Pool) :
  mergeDirect directPools pools = map (mergeOne directPools) pools.
Proof. reflexivity. Qed.

Lemma mergeOne_cases (directPools : list Pool) (p : Pool) :
  mergeOne directPools p = p
  \/ (In (mergeOne directPools p) directPools
      /\ poolKey (mergeOne directPools p) = poolKey p).
Proof.
  unfold mergeOne, directByPair.
  destruct (mapGet _ _) as [dp|] eqn:E; [|left; reflexivity].
  destruct (looksFallback p); [|left; reflexivity].
  right. apply mapGet_In in E.
  destruct (directByPair_invariant directPools [] (Forall_nil _)) as (Hk & Hin).
  split.
  - destruct (Hin _ E) as [H|[]]. exact H.
  - unfold keyed in Hk. rewrite Forall_forall in Hk. exact (Hk _ E).
Qed.

Lemma mergeOne_poolKey (directPools : list Pool) (p : Pool) :
  poolKey (mergeOne directPools p) = poolKey p.
Proof.
  destruct (mergeOne_cases directPools p) as [->|[_ H]]; [reflexivity | exact H].
Qed.

Lemma mergeOne_not_fallback (directPools : list Pool) (p : Pool) :
  looksFallback p = false -> mergeOne directPools p = p.
Proof.
  intros H. unfold mergeOne. rewrite H. destruct (mapGet _ _); reflexivity.
Qed.

(** The merge pass keeps the records in canonical order: a direct
    record that replaces a scanned one carries the same tokens. *)
Lemma mergeDirect_canonical (pools : list Pool) :
  Forall (inCanonicalOrder w) pools ->
  Forall (inCanonicalOrder w) (mergeDirect (getAllPoolsDirect w) pools).
Proof.
  rewrite mergeDirect_map, !Forall_forall. intros Hall q.
  rewrite in_map_iff. intros (p & <- & Hp).
  destruct (mergeOne_cases (getAllPoolsDirect w) p) as [->|[Hdirect Hkey]];
    [exact (Hall _ Hp)|].
  symmetry in Hkey.
  destruct (poolKey_tokens _ _ (getAllPoolsDirect_barFree _ Hdirect) Hkey) as [E0 E1].
  apply (inCanonicalOrder_recordKey _ p); [congruence | congruence | exact (Hall _ Hp)].
Qed.

(** *** The fix-up pass *)

Lemma fixUp_map (deduped : list Pool) : fixUp w deduped = map (fixOne w) deduped.
Proof. reflexivity. Qed.

Lemma fixOne_recordKey (p : Pool) :
  inCanonicalOrder w p -> recordKey (fixOne w p) = recordKey p.
Proof.
  intros Hp. unfold fixOne.
  destruct (negb (isHexId (id p))); [|reflexivity].
  destruct (resolvePoolByPair w (token0 p) (token1 p) (fee p)) as [r|] eqn:E;
    [|reflexivity].
  exact (resolvePoolByPair_recordKey _ _ _ _ Hp E).
Qed.



Lemma fixOne_hex (p : Pool) : isHexId (id p) = true -> fixOne w p = p.
Proof. intros H. unfold fixOne. rewrite H. reflexivity. Qed.



End Pipeline.

(** ** Records that survive a run *)

Lemma dedupeStep_other (m : PoolMap) (q : Pool) (k : string) :
  poolKey q <> k -> mapGet k (dedupeStep m q) = mapGet k m.
Proof.
  intros Hne. unfold dedupeStep.
  destruct (mapGet (poolKey q) m) as [existing|];
    [destruct (isHexId (id q) && negb (isHexId (id existing)))|];
    try reflexivity; apply mapGet_mapSet_other; exact Hne.
Qed.

Lemma dedupe_fold_other (l : list Pool) (k : string) :
  Forall (fun q => poolKey q <> k) l ->
  forall m, mapGet k (fold_left dedupeStep l m) = mapGet k m.
Proof.
  induction 1 as [|q l Hq _ IH]; intros m; simpl; [reflexivity|].
  rewrite IH. apply dedupeStep_other. exact Hq.
Qed.

(** An entry with a hex id is never replaced by the deduplication. *)
Lemma dedupe_fold_keeps_hex (l : list Pool) (p : Pool) :
  isHexId (id p) = true ->
  forall m, mapGet (poolKey p) m = Some p ->
            mapGet (poolKey p) (fold_left dedupeStep l m) = Some p.
Proof.
  intros Hhex. induction l as [|q l IH]; intros m Hm; simpl; [exact Hm|].
  apply IH.
  destruct (String.eqb_spec (poolKey q) (poolKey p)) as [E|Hne].
  - unfold dedupeStep. rewrite E, Hm, Hhex, andb_false_r. exact Hm.
  - rewrite (dedupeStep_other m q _ Hne). exact Hm.
Qed.

Lemma dedupeStep_absent (m : PoolMap) (p : Pool) :
  mapGet (poolKey p) m = None -> dedupeStep m p = mapSet (poolKey p) p m.
Proof. unfold dedupeStep. intros ->. reflexivity. Qed.

Lemma dedupe_keeps_first_hex (l1 l2 : list Pool) (p : Pool) :
  Forall (fun q => poolKey q <> poolKey p) l1 ->
  isHexId (id p) = true ->
  In p (dedupe (l1 ++ p :: l2)).
Proof.
  intros Hl1 Hhex. unfold dedupe. rewrite fold_left_app. simpl.
  assert (Hnone : mapGet (poolKey p) (fold_left dedupeStep l1 []) = None)
    by (rewrite (dedupe_fold_other l1 _ Hl1); reflexivity).
  assert (Hstep : mapGet (poolKey p) (dedupeStep (fold_left dedupeStep l1 []) p) = Some p)
    by (rewrite (dedupeStep_absent _ _ Hnone); apply mapGet_mapSet_same).
  pose proof (dedupe_fold_keeps_hex l2 p Hhex _ Hstep) as Hget.
  apply mapGet_In in Hget. unfold mapValues.
  change p with (snd (poolKey p, p)). apply in_map. exact Hget.
Qed.

Lemma inconsistent_not_fallback (p : Pool) :
  isHexId (id p) = true -> inconsistentReserves p = true -> looksFallback p = false.
Proof.
  unfold inconsistentReserves, looksFallback. intros -> H.
  destruct (balance0 p =? 0), (balance1 p =? 0); simpl in *; congruence.
Qed.


(** ** Identifiers *)

Lemma allHex_dash (a b : string) : allHex (a ++ String "-" b) = false.
Proof.
  induction a as [|c a IH]; simpl; [reflexivity|].
  rewrite IH. apply andb_false_r.
Qed.

(** A string with a dash after a dash-free prefix is never a hex id,
    with or without the "0x" prefix. *)
Lemma isHexId_dash (a b : string) : isHexId (a ++ String "-" b) = false.
Proof.
  unfold isHexId.
  assert (H : allHex (match (a ++ String "-" b)%string with
                      | String "0" (String "x" r) => r
                      | _ => (a ++ String "-" b)%string
                      end) = false).
  { destruct a as [|c [|c2 r]].
    - reflexivity.
    - destruct c as [[] [] [] [] [] [] [] []];
        exact (allHex_dash (String _ "") b).
    - destruct c as [[] [] [] [] [] [] [] []];
        try exact (allHex_dash (String _ (String c2 r)) b).
      destruct c2 as [[] [] [] [] [] [] [] []];
        first [ exact (allHex_dash r b)
              | exact (allHex_dash (String _ (String _ r)) b) ]. }
  rewrite H. reflexivity.
Qed.

Lemma fallbackShaped_not_hex (p : Pool) : fallbackShaped p -> isHexId (id p) = false.
Proof.
  unfold fallbackShaped. intros ->.
  exact (isHexId_dash (token0 p) (token1 p ++ "-" ++ Js.showZ (fee p))).
Qed.

(** ** Where the returned records come from *)

Section Provenance.

Variable w : World.

Lemma readPool_authoritative (t0 t1 : string) (f : Z) (p : Pool) :
  readPool w t0 t1 f = Some p -> authoritative w p.
Proof.
  intros H. pose proof (readPool_recordKey w _ _ _ _ H) as Hkey.
  unfold recordKey in Hkey. injection Hkey as E0 E1 E2.
  unfold authoritative. rewrite E0, E1, E2. exact H.
Qed.

Lemma resolvePoolByPair_authoritative (t0 t1 : string) (f : Z) (p : Pool) :
  resolvePoolByPair w t0 t1 f = Some p -> authoritative w p.
Proof.
  unfold resolvePoolByPair.
  destruct (canonicalPair w t0 t1) as [[c0 c1]|]; [|discriminate].
  apply readPool_authoritative.
Qed.

Lemma authoritative_id (p : Pool) :
  authoritative w p ->
  getPoolId w (token0 p) (token1 p) (fee p) = Some (id p)
  /\ getPoolData w (id p) = Some (liquidity p, balance0 p, balance1 p).
Proof.
  unfold authoritative, readPool.
  destruct (getPoolId w (token0 p) (token1 p) (fee p)) as [poolId|]; [|discriminate].
  destruct (getPoolData w poolId) as [[[liq b0] b1]|] eqn:Ed; [|discriminate].
  intros H. injection H as H.
  assert (Eid : id p = poolId) by (rewrite <- H; reflexivity).
  assert (Eliq : liquidity p = liq) by (rewrite <- H; reflexivity).
  assert (Eb0 : balance0 p = b0) by (rewrite <- H; reflexivity).
  assert (Eb1 : balance1 p = b1) by (rewrite <- H; reflexivity).
  rewrite Eid, Eliq, Eb0, Eb1. split; [reflexivity | exact Ed].
Qed.

(** A scanned record is authoritative, or it is the fallback built from
    the payload of an event for whose pair the ledger resolves no
    pool. *)
Lemma processEvent_provenance (event : ContractEvent) (p : Pool) :
  processEvent w event = Some p ->
  authoritative w p
  \/ (fallbackShaped p
      /\ resolvePoolByPair w (token0 p) (token1 p) (fee p) = None).
Proof.
  unfold processEvent.
  destruct (decodeCreatePool w (value_hex event)) as [data|]; [|discriminate].
  destruct (canonicalOrEventOrder w (evToken0 data) (evToken1 data))
    as [canon0 canon1].
  destruct (readPool w canon0 canon1 (evFee data)) as [built|] eqn:Hread.
  - intros H. injection H as <-. left. exact (readPool_authoritative _ _ _ _ Hread).
  - destruct (resolvePoolByPair w canon0 canon1 (evFee data)) as [resolved|] eqn:Hres.
    + intros H. injection H as <-. left.
      exact (resolvePoolByPair_authoritative _ _ _ _ Hres).
    + intros H. injection H as <-. right. split; [reflexivity | exact Hres].
Qed.

Lemma scanEvents_provenance (P : Pool -> Prop) (fuel : nat) :
  (forall event p, processEvent w event = Some p -> P p) ->
  forall offset reqs pools requests pools',
    Forall P pools ->
    scanEvents w fuel offset reqs pools = Some (requests, pools') ->
    Forall P pools'.
Proof.
  intros Hev.
  induction fuel as [|fuel IH]; intros offset reqs pools requests pools' Hall;
    cbn [scanEvents]; [discriminate|].
  destruct (fetchEvents w offset) as [|events].
  - intros H. injection H as _ <-. exact Hall.
  - assert (Hall' : Forall P (pools ++ processPage w events)).
    { apply Forall_app. split; [exact Hall|].
      unfold processPage. rewrite Forall_forall. intros p.
      rewrite in_flat_map. intros (event & _ & Hin).
      destruct (processEvent w event) as [q|] eqn:E; simpl in Hin; [|tauto].
      destruct Hin as [<-|[]]. exact (Hev _ _ E). }
    destruct (List.length events <? 50)%nat.
    + intros H. injection H as _ <-. exact Hall'.
    + apply IH. exact Hall'.
Qed.

Lemma getAllPoolsDirect_authoritative (dp : Pool) :
  In dp (getAllPoolsDirect w) ->
  authoritative w dp
  /\ poolExists w (token0 dp) (token1 dp) (fee dp) = true
  /\ In (recordKey dp) directProbes.
Proof.
  unfold getAllPoolsDirect. rewrite in_flat_map. intros ([[t0 t1] f] & Hprobe & Hin).
  unfold directProbe in Hin.
  destruct (poolExists w t0 t1 f) eqn:Ex; [|destruct Hin].
  destruct (readPool w t0 t1 f) as [p|] eqn:E; simpl in Hin; [|tauto].
  destruct Hin as [<-|[]].
  pose proof (readPool_recordKey w _ _ _ _ E) as Hkey.
  split; [exact (readPool_authoritative _ _ _ _ E)|].
  rewrite Hkey. unfold recordKey in Hkey. injection Hkey as E0 E1 E2.
  rewrite E0, E1, E2. split; [exact Ex | exact Hprobe].
Qed.

(** Every record of a run's output stems from one of three places. *)
Lemma getAllPools_provenance (fuel : nat) (out : list Pool) (q : Pool) :
  getAllPools w fuel = Some out -> In q out ->
  authoritative w q
  \/ (fallbackShaped q
      /\ resolvePoolByPair w (token0 q) (token1 q) (fee q) = None).
Proof.
  unfold getAllPools.
  destruct (scanEvents w fuel 0 [] []) as [[reqs pools]|] eqn:Hscan; [|discriminate].
  assert (Hscanned : Forall (fun p => authoritative w p
                               \/ (fallbackShaped p
                                   /\ resolvePoolByPair w (token0 p) (token1 p) (fee p) = None))
                            pools)
    by exact (scanEvents_provenance _ fuel processEvent_provenance _ _ _ _ _
                (Forall_nil _) Hscan).
  destruct pools as [|p0 pools].
  - intros H Hq. injection H as <-. left.
    exact (proj1 (getAllPoolsDirect_authoritative q Hq)).
  - intros H Hq. injection H as <-.
    rewrite fixUp_map in Hq. apply in_map_iff in Hq. destruct Hq as (p & <- & Hp).
    apply dedupe_In in Hp.
    change (In p (map (mergeOne (getAllPoolsDirect w)) (p0 :: pools))) in Hp.
    apply in_map_iff in Hp. destruct Hp as (p1 & <- & Hp1).
    assert (Hmerged : authoritative w (mergeOne (getAllPoolsDirect w) p1)
                      \/ (fallbackShaped (mergeOne (getAllPoolsDirect w) p1)
                          /\ resolvePoolByPair w
                               (token0 (mergeOne (getAllPoolsDirect w) p1))
                               (token1 (mergeOne (getAllPoolsDirect w) p1))
                               (fee (mergeOne (getAllPoolsDirect w) p1)) = None)).
    { destruct (mergeOne_cases (getAllPoolsDirect w) p1) as [->|[Hd _]].
      - rewrite Forall_forall in Hscanned. exact (Hscanned _ Hp1).
      - left. exact (proj1 (getAllPoolsDirect_authoritative _ Hd)). }
    set (m := mergeOne (getAllPoolsDirect w) p1) in *.
    unfold fixOne. destruct (negb (isHexId (id m))); [|exact Hmerged].
    destruct (resolvePoolByPair w (token0 m) (token1 m) (fee m)) as [r|] eqn:Er.
    + left. exact (resolvePoolByPair_authoritative _ _ _ _ Er).
    + destruct Hmerged as [Ha|[Hf _]]; [left; exact Ha | right; split; assumption].
Qed.

End Provenance.

(** ** One record per pool key *)











(** Without the condition on the ledger the sweep is returned as read:
    when no event is logged and the reads yield a pool for the pair
    (mock-token, mock-token-2) at fee 500 in both token orders, the run
    returns one record for each order. *)
Lemma getAllPools_returns_sweep_as_read :
  getAllPools bothOrdersWorld 1 = Some (getAllPoolsDirect bothOrdersWorld)
  /\ map (canonicalKey bothOrdersWorld) (getAllPoolsDirect bothOrdersWorld)
     = [(tokenA, tokenB, 500); (tokenA, tokenB, 500)]
  /\ ~ oneOrderLedger bothOrdersWorld.
Proof.
  split; [vm_compute; reflexivity|]. split; [vm_compute; reflexivity|].
  intros H. destruct (H tokenA tokenB 500) as [E|E];
    [vm_compute; discriminate | vm_compute in E; discriminate E
     | vm_compute in E; discriminate E].
Qed.



(** ** Records with lopsided reserves *)

Section NoIdentifier.

Variable w : World.
Hypothesis noPoolId : forall t0 t1 f, getPoolId w t0 t1 f = None.

Lemma noPoolId_readPool (t0 t1 : string) (f : Z) : readPool w t0 t1 f = None.
Proof. unfold readPool. rewrite noPoolId. reflexivity. Qed.

Lemma noPoolId_resolve (t0 t1 : string) (f : Z) : resolvePoolByPair w t0 t1 f = None.
Proof.
  unfold resolvePoolByPair. destruct (canonicalPair w t0 t1) as [[c0 c1]|];
    [apply noPoolId_readPool | reflexivity].
Qed.

Lemma noPoolId_direct : getAllPoolsDirect w = [].
Proof.
  unfold getAllPoolsDirect. induction directProbes as [|[[t0 t1] f] l IH];
    [reflexivity|].
  cbn [flat_map]. rewrite IH. unfold directProbe. rewrite noPoolId_readPool.
  destruct (poolExists w t0 t1 f); reflexivity.
Qed.

Lemma noPoolId_fixOne (p : Pool) : fixOne w p = p.
Proof.
  unfold fixOne. rewrite noPoolId_resolve. destruct (negb (isHexId (id p))); reflexivity.
Qed.

(** Every scanned record is a fallback, and its id is not a hex id. *)
Lemma noPoolId_scanned (fuel : nat) (requests : list Z) (pools : list Pool) :
  scanEvents w fuel 0 [] [] = Some (requests, pools) ->
  Forall (fun q => isHexId (id q) = false) pools.
Proof.
  apply (scanEvents_provenance w (fun q => isHexId (id q) = false) fuel);
    [|constructor].
  intros event p Hev.
  destruct (processEvent_provenance w event p Hev) as [Ha|[Hf _]].
  - unfold authoritative in Ha. rewrite noPoolId_readPool in Ha. discriminate Ha.
  - exact (fallbackShaped_not_hex p Hf).
Qed.

End NoIdentifier.

Lemma mergeDirect_nil (pools : list Pool) : mergeDirect [] pools = pools.
Proof.
  unfold mergeDirect. induction pools as [|p pools IH]; [reflexivity|].
  cbn [map]. rewrite IH. reflexivity.
Qed.

(** Among entries without a hex id, the first one of a key is kept. *)
Lemma dedupe_fold_keeps_plain (l : list Pool) (p : Pool) :
  Forall (fun q => isHexId (id q) = false) l ->
  forall m, mapGet (poolKey p) m = Some p ->
            mapGet (poolKey p) (fold_left dedupeStep l m) = Some p.
Proof.
  induction 1 as [|q l Hq _ IH]; intros m Hm; simpl; [exact Hm|].
  apply IH.
  destruct (String.eqb_spec (poolKey q) (poolKey p)) as [E|Hne].
  - unfold dedupeStep. rewrite E, Hm, Hq. exact Hm.
  - rewrite (dedupeStep_other m q _ Hne). exact Hm.
Qed.

Lemma dedupe_keeps_first_plain (l1 l2 : list Pool) (p : Pool) :
  Forall (fun q => poolKey q <> poolKey p) l1 ->
  Forall (fun q => isHexId (id q) = false) l2 ->
  In p (dedupe (l1 ++ p :: l2)).
Proof.
  intros Hl1 Hl2. unfold dedupe. rewrite fold_left_app. simpl.
  assert (Hnone : mapGet (poolKey p) (fold_left dedupeStep l1 []) = None)
    by (rewrite (dedupe_fold_other l1 _ Hl1); reflexivity).
  assert (Hstep : mapGet (poolKey p) (dedupeStep (fold_left dedupeStep l1 []) p) = Some p)
    by (rewrite (dedupeStep_absent _ _ Hnone); apply mapGet_mapSet_same).
  pose proof (dedupe_fold_keeps_plain l2 p Hl2 _ Hstep) as Hget.
  apply mapGet_In in Hget. unfold mapValues.
  change p with (snd (poolKey p, p)). apply in_map. exact Hget.
Qed.

(** C4, as stated, fails: when a create-pool print carries the
    reserves (7, 0) and the reads yield no pool identifier, the run
    returns the fallback record built from the payload, with these
    reserves; nothing is raised. *)
Lemma C4_lopsided_record_is_returned :
  ~ (forall (w : World) (fuel : nat) (out : list Pool) (p : Pool),
        getAllPools w fuel = Some out -> In p out ->
        inconsistentReserves p = false).
Proof.
  intros H.
  specialize (H payloadWorld 1%nat [payloadPool] payloadPool).
  assert (Hrun : getAllPools payloadWorld 1 = Some [payloadPool])
    by (vm_compute; reflexivity).
  specialize (H Hrun (or_introl eq_refl)).
  vm_compute in H. discriminate H.
Qed.

(** C4, amended. A record with reserves that are zero on exactly one
    side is not rejected and no error is raised for it: once the scan
    of the log has ended the run returns a pool sequence, and a scanned
    record with such reserves, before which no scanned record has the
    same key, appears in it unchanged, when it has a hex id or when the
    reads yield no pool identifier. *)
Theorem C4_lopsided_record_passes (w : World) (fuel : nat) (requests : list Z)
    (before after : list Pool) (p : Pool) :
  scanEvents w fuel 0 [] [] = Some (requests, (before ++ p :: after)%list) ->
  Forall (fun q => poolKey q <> poolKey p) before ->
  isHexId (id p) = true \/ (forall t0 t1 f, getPoolId w t0 t1 f = None) ->
  inconsistentReserves p = true ->
  exists out, getAllPools w fuel = Some out /\ In p out.
Proof.
  intros Hscan Hbefore Hcase Hinc.
  unfold getAllPools. rewrite Hscan.
  destruct (before ++ p :: after)%list as [|p0 pools] eqn:Hpools;
    [destruct before; discriminate|].
  rewrite <- Hpools. eexists. split; [reflexivity|].
  destruct Hcase as [Hhex|Hnone].
  - rewrite fixUp_map, mergeDirect_map, map_app. simpl.
    rewrite (mergeOne_not_fallback _ p (inconsistent_not_fallback p Hhex Hinc)).
    rewrite <- (fixOne_hex w p Hhex) at 1. apply in_map.
    apply dedupe_keeps_first_hex; [|exact Hhex].
    rewrite Forall_forall in *. intros q. rewrite in_map_iff.
    intros (q0 & <- & Hq0). rewrite mergeOne_poolKey. exact (Hbefore _ Hq0).
  - rewrite (noPoolId_direct w Hnone), mergeDirect_nil, fixUp_map.
    rewrite <- (noPoolId_fixOne w Hnone p) at 1. apply in_map.
    apply dedupe_keeps_first_plain; [exact Hbefore|].
    pose proof (noPoolId_scanned w Hnone fuel _ _ Hscan) as Hall.
    rewrite <- Hpools in Hall. apply Forall_app in Hall. destruct Hall as [_ Hall].
    inversion Hall; assumption.
Qed.

Lemma C4_lopsided_record_passes_witness :
  exists out, getAllPools payloadWorld 1 = Some out /\ In payloadPool out.
Proof.
  apply (C4_lopsided_record_passes payloadWorld 1%nat [0] [] [] payloadPool).
  - vm_compute. reflexivity.
  - constructor.
  - right. reflexivity.
  - vm_compute. reflexivity.
Defined.

(** * Further properties *)

(** ** Base-unit conversion *)

(** [toBaseUnits] returns only for a finite, non-negative amount and for
    non-negative integral decimals, and what it returns is never
    negative. *)
Theorem toBaseUnits_returns_valid_nonneg (amount decimals : Js.Number) (z : Z) :
  toBaseUnits amount decimals = Ok z ->
  Js.isFinite amount = true /\ Js.ltZero amount = false
  /\ Js.isInteger decimals = true /\ Js.ltZero decimals = false
  /\ 0 <= z.
Proof. exact (toBaseUnits_returns_valid_nonneg_core amount decimals z). Qed.

Lemma toBaseUnits_returns_valid_nonneg_witness :
  Js.isFinite num_12_345 = true /\ Js.ltZero num_12_345 = false
  /\ Js.isInteger num_6 = true /\ Js.ltZero num_6 = false
  /\ 0 <= 12345000.
Proof.
  apply (toBaseUnits_returns_valid_nonneg num_12_345 num_6 12345000).
  vm_compute. reflexivity.
Defined.

(** For every amount that [toString] prints in positional notation and
    every non-negative integral [decimals], [toBaseUnits] returns the
    amount cut to [decimals] fractional digits, in units of
    [10^-decimals]. *)
Theorem toBaseUnits_truncates (s : positive) (n : Z) (decimals : Js.Number) :
  -6 < n <= 21 ->
  Js.isInteger decimals = true -> Js.ltZero decimals = false ->
  toBaseUnits (Js.Finite false s n) decimals
  = Ok (truncatedBaseUnits (Js.Finite false s n) (Js.toZ decimals)).
Proof. exact (toBaseUnits_positional s n decimals). Qed.

Lemma toBaseUnits_truncates_witness :
  toBaseUnits num_12_345 num_6 = Ok (truncatedBaseUnits num_12_345 (Js.toZ num_6)).
Proof.
  apply (toBaseUnits_truncates 12345 2 num_6); [lia | reflexivity | reflexivity].
Defined.

(** ** The quote *)

Lemma swapRawOutput_constant_product_core (pool : Pool) (zeroForOne : bool) (d : Z) :
  0 < balance0 pool -> 0 < balance1 pool -> 0 < d ->
  let reserveIn := if zeroForOne then balance0 pool else balance1 pool in
  let reserveOut := if zeroForOne then balance1 pool else balance0 pool in
  let out := swapRawOutput pool zeroForOne d in
  0 <= out
  /\ (reserveIn + d) * (reserveOut - out) <= swapK pool
  /\ swapK pool < (reserveIn + d) * (reserveOut - out + 1).
Proof.
  intros Hx Hy Hd reserveIn reserveOut out.
  assert (Hk : 0 <= swapK pool) by (unfold swapK; nia).
  assert (Hterm : reserveOut - out = swapK pool / (reserveIn + d)).
  { subst reserveIn reserveOut out. unfold swapRawOutput, swapTerm.
    destruct zeroForOne; rewrite bigDiv_nonneg by lia; ring. }
  assert (Hin : 0 < reserveIn + d) by (subst reserveIn; destruct zeroForOne; lia).
  rewrite Hterm.
  pose proof (Z.mul_div_le (swapK pool) (reserveIn + d) Hin) as Hle.
  pose proof (Z.mul_succ_div_gt (swapK pool) (reserveIn + d) Hin) as Hgt.
  repeat split; [|lia|lia].
  assert (Hq : swapK pool / (reserveIn + d) <= reserveOut).
  { apply Z.div_le_upper_bound; [lia|].
    subst reserveIn reserveOut. unfold swapK. destruct zeroForOne; nia. }
  lia.
Qed.

(** The output before fees keeps the product of the reserves up to
    rounding: with the input added to one reserve and the raw output
    taken from the other, the product does not exceed [k], and taking
    one unit less would exceed it. *)
Theorem swapRawOutput_constant_product (pool : Pool) (zeroForOne : bool) (d : Z) :
  0 < balance0 pool -> 0 < balance1 pool -> 0 < d ->
  let reserveIn := if zeroForOne then balance0 pool else balance1 pool in
  let reserveOut := if zeroForOne then balance1 pool else balance0 pool in
  let out := swapRawOutput pool zeroForOne d in
  0 <= out
  /\ (reserveIn + d) * (reserveOut - out) <= swapK pool
  /\ swapK pool < (reserveIn + d) * (reserveOut - out + 1).
Proof. exact (swapRawOutput_constant_product_core pool zeroForOne d). Qed.

Lemma swapRawOutput_constant_product_witness :
  0 <= swapRawOutput scenarioPool true 10000
  /\ (1000000 + 10000) * (1000000 - swapRawOutput scenarioPool true 10000)
     <= swapK scenarioPool
  /\ swapK scenarioPool
     < (1000000 + 10000) * (1000000 - swapRawOutput scenarioPool true 10000 + 1).
Proof.
  apply (swapRawOutput_constant_product scenarioPool true 10000); reflexivity.
Defined.

(** Applying the fee never increases the output and never makes it
    negative: for an unsigned fee the quote lies between 0 and the raw
    output; with fee 0 it is the raw output, and from 10000 basis
    points on it is 0. *)
Theorem quote_between_zero_and_raw (pool : Pool) (zeroForOne : bool) (d : Z) :
  0 < balance0 pool -> 0 < balance1 pool -> 0 < d -> 0 <= fee pool ->
  let out := swapRawOutput pool zeroForOne d in
  let quote := fst (estimateFromBaseUnits pool zeroForOne d) in
  0 <= quote <= out
  /\ (fee pool = 0 -> quote = out)
  /\ (10000 <= fee pool -> quote = 0).
Proof.
  intros Hx Hy Hd Hf out quote.
  destruct (swapRawOutput_constant_product_core pool zeroForOne d Hx Hy Hd) as (Hout & _).
  fold out in Hout.
  assert (Eq : quote = afterFees pool out)
    by (subst quote out; apply estimateFromBaseUnits_afterFees; assumption).
  rewrite Eq. unfold afterFees, swapFees.
  destruct (Z.leb_spec out 0) as [Ho|Ho].
  { repeat split; try lia. }
  rewrite bigDiv_nonneg by nia.
  assert (Hfees : 0 <= out * fee pool / 10000) by (apply Z.div_pos; nia).
  destruct (Z.ltb_spec 0 (out - out * fee pool / 10000)) as [Hq|Hq].
  - repeat split; try lia.
    + intros E. rewrite E, Z.mul_0_r. change (0 / 10000) with 0. lia.
    + intros Hbig.
      assert (out <= out * fee pool / 10000) by (apply Z.div_le_lower_bound; nia).
      lia.
  - repeat split; try lia.
    intros E. rewrite E, Z.mul_0_r in Hq. change (0 / 10000) with 0 in Hq. lia.
Qed.

Lemma quote_between_zero_and_raw_witness :
  0 <= fst (estimateFromBaseUnits scenarioPool true 10000)
    <= swapRawOutput scenarioPool true 10000.
Proof.
  apply (quote_between_zero_and_raw scenarioPool true 10000);
    vm_compute; first [reflexivity | discriminate].
Defined.

(** ** The estimator as a whole *)

(** Whatever the estimator shows is consistent: the amount is never
    negative, a disabled reason is shown exactly when the amount is 0,
    and the fee shown is that of the selected pool. *)
Theorem estimateSwapOutput_view_consistent
    (getTokenDecimals : string -> Result Js.Number)
    (pools : list Pool) (fromToken toToken : string) (fromAmount : Js.Number)
    (view view' : SwapView) :
  estimateSwapOutput getTokenDecimals pools fromToken toToken fromAmount view
    = (view', None) ->
  0 <= estimatedToAmount view'
  /\ (disabledReason view' = None <-> 0 < estimatedToAmount view')
  /\ selectedPoolFee view' = option_map fee (selectBestPool fromToken toToken pools).
Proof.
  unfold estimateSwapOutput.
  destruct (selectBestPool fromToken toToken pools) as [pool|].
  2:{ intros H. injection H as <-. cbn. repeat split; try lia; discriminate. }
  destruct (negb (Js.isFinite fromAmount) || Js.leZero fromAmount).
  { intros H. injection H as <-. cbn. repeat split; try lia; discriminate. }
  destruct ((balance0 pool <=? 0) || (balance1 pool <=? 0)).
  { intros H. injection H as <-. cbn. repeat split; try lia; discriminate. }
  destruct (bind _ _) as [delta|e]; [|discriminate].
  destruct (delta <=? 0).
  { intros H. injection H as <-. cbn. repeat split; try lia; discriminate. }
  unfold estimateFromBaseUnits.
  destruct (_ + delta <=? 0).
  { intros H. injection H as <-. cbn. repeat split; try lia; discriminate. }
  destruct (swapRawOutput _ _ _ <=? 0).
  { intros H. injection H as <-. cbn. repeat split; try lia; discriminate. }
  destruct (Z.ltb_spec 0 (swapRawOutput pool (fromToken =? token0 pool)%string delta
                          - swapFees pool (swapRawOutput pool (fromToken =? token0 pool)%string delta)))
    as [Hq|Hq]; intros H; injection H as <-; cbn.
  - repeat split; try lia; reflexivity.
  - repeat split; try lia; discriminate.
Qed.

Lemma estimateSwapOutput_view_consistent_witness :
  0 <= 9406 /\ (@None string = None <-> 0 < 9406)
  /\ Some 500 = option_map fee (selectBestPool "T.a" "T.b" [scenarioPool]).
Proof.
  apply (estimateSwapOutput_view_consistent (fun _ => Ok (Js.Zero false)) [scenarioPool]
           "T.a" "T.b" (Js.Finite false 1 5)
           {| estimatedToAmount := 0; disabledReason := None; selectedPoolFee := None |}
           {| estimatedToAmount := 9406; disabledReason := None;
              selectedPoolFee := Some 500 |}).
  vm_compute. reflexivity.
Defined.

(** The guards of the estimator come before any read of the ledger:
    when no pool matches, when the amount is not a positive finite
    number, or when the selected pool has an empty reserve, the amount
    shown is 0 with a reason, whatever the decimals lookup would answer,
    even if it would throw. *)
Theorem estimateSwapOutput_guards
    (getTokenDecimals : string -> Result Js.Number)
    (pools : list Pool) (fromToken toToken : string) (fromAmount : Js.Number)
    (view : SwapView) :
  selectBestPool fromToken toToken pools = None
  \/ Js.isFinite fromAmount = false \/ Js.leZero fromAmount = true
  \/ (exists pool, selectBestPool fromToken toToken pools = Some pool
                   /\ (balance0 pool <= 0 \/ balance1 pool <= 0)) ->
  exists reason,
    estimateSwapOutput getTokenDecimals pools fromToken toToken fromAmount view
    = ({| estimatedToAmount := 0; disabledReason := Some reason;
          selectedPoolFee := option_map fee (selectBestPool fromToken toToken pools) |},
       None).
Proof.
  intros H. unfold estimateSwapOutput.
  destruct (selectBestPool fromToken toToken pools) as [pool|] eqn:Esel.
  2:{ eexists. reflexivity. }
  destruct H as [H|[H|[H|(pool' & Hp & Hres)]]]; [discriminate| | |].
  - rewrite H. cbn. eexists. reflexivity.
  - rewrite H, orb_true_r. cbn. eexists. reflexivity.
  - injection Hp as <-.
    destruct (negb (Js.isFinite fromAmount) || Js.leZero fromAmount);
      [cbn; eexists; reflexivity|].
    replace ((balance0 pool <=? 0) || (balance1 pool <=? 0)) with true.
    + cbn. eexists. reflexivity.
    + symmetry. apply orb_true_iff.
      destruct Hres as [Hr|Hr]; [left|right]; apply Z.leb_le; exact Hr.
Qed.

Lemma estimateSwapOutput_guards_witness :
  exists reason,
    estimateSwapOutput (fun _ => Throw InvalidDecimalsResponse) [emptyPool]
      "T.a" "T.b" num_900
      {| estimatedToAmount := 7; disabledReason := None; selectedPoolFee := None |}
    = ({| estimatedToAmount := 0; disabledReason := Some reason;
          selectedPoolFee := option_map fee (selectBestPool "T.a" "T.b" [emptyPool]) |},
       None).
Proof.
  apply (estimateSwapOutput_guards (fun _ => Throw InvalidDecimalsResponse) [emptyPool]
           "T.a" "T.b" num_900).
  right. right. right. exists emptyPool. split; [reflexivity|].
  left. vm_compute. discriminate.
Defined.

(** ** Pool selection *)

Lemma comparePools_before (a b : Pool) :
  (comparePools a b <? 0) = true
  <-> (SFcompare (reserveProduct b) (reserveProduct a) = Some Lt
       \/ (SFcompare (reserveProduct b) (reserveProduct a) = Some Eq /\ fee a < fee b)).
Proof.
  unfold comparePools. rewrite Z.ltb_lt.
  destruct (SFcompare (reserveProduct b) (reserveProduct a)) as [[]|];
    intuition (try discriminate; try lia; try congruence).
Qed.

Lemma atLeastAsGood_refl (a : Pool) :
  reserveProduct a <> S754_nan -> atLeastAsGood a a.
Proof.
  intros Ha. unfold atLeastAsGood. rewrite (SFcompare_refl _ Ha). right. split; [reflexivity | lia].
Qed.

Lemma atLeastAsGood_trans (a b c : Pool) :
  atLeastAsGood a b -> atLeastAsGood b c -> atLeastAsGood a c.
Proof.
  unfold atLeastAsGood. intros Hab Hbc.
  destruct Hbc as [Hcb|[Hcb Hf1]]; destruct Hab as [Hba|[Hba Hf2]];
    pose proof (SFcompare_trans _ _ _ _ _ Hcb Hba ltac:(discriminate) ltac:(discriminate))
      as H; cbn in H; rewrite H; [left | left | left | right; split; [|lia]];
    reflexivity.
Qed.

(** When no product is NaN, a pool that does not go before another is
    not better than it. *)
Lemma atLeastAsGood_total (a b : Pool) :
  reserveProduct a <> S754_nan -> reserveProduct b <> S754_nan ->
  (comparePools a b <? 0) = false -> atLeastAsGood b a.
Proof.
  intros Ha Hb Hcmp. unfold atLeastAsGood.
  destruct (SFcompare_some _ _ Hb Ha) as [c Hc].
  pose proof (SFcompare_antisym _ _ _ Hc) as Hopp.
  destruct (Z.ltb_spec (comparePools a b) 0) as [|Hge]; [discriminate|].
  unfold comparePools in Hge. rewrite Hc in Hge. rewrite Hopp.
  destruct c; cbn [CompOpp]; [right; split; [reflexivity | lia] | lia | left; reflexivity].
Qed.

Lemma insertSorted_In (p x : Pool) (sorted : list Pool) :
  In x (insertSorted p sorted) <-> x = p \/ In x sorted.
Proof.
  induction sorted as [|q rest IH]; simpl.
  - intuition congruence.
  - destruct (comparePools q p <? 0); simpl; rewrite ?IH; intuition congruence.
Qed.

Lemma sortPools_In (x : Pool) (l : list Pool) : In x (sortPools l) <-> In x l.
Proof.
  induction l as [|p l IH]; simpl; [tauto|].
  rewrite insertSorted_In, IH. intuition congruence.
Qed.

(** When no product is NaN, the head of the sorted array is at least as
    good as every pool. *)
Lemma sortPools_head (l : list Pool) (best : Pool) (rest : list Pool) :
  (forall p, In p l -> reserveProduct p <> S754_nan) ->
  sortPools l = best :: rest ->
  forall q, In q l -> atLeastAsGood best q.
Proof.
  revert best rest. induction l as [|p l IH]; intros best rest Hnan; simpl; [discriminate|].
  assert (Hp : reserveProduct p <> S754_nan) by (apply Hnan; left; reflexivity).
  assert (Hl : forall x, In x l -> reserveProduct x <> S754_nan)
    by (intros x Hx; apply Hnan; right; exact Hx).
  destruct (sortPools l) as [|h t] eqn:Es.
  - simpl. intros H. injection H as <- <-.
    intros q [<-|Hq]; [apply atLeastAsGood_refl; exact Hp|].
    apply sortPools_In in Hq. rewrite Es in Hq. destruct Hq.
  - specialize (IH h t Hl eq_refl). simpl.
    assert (Hh : In h l) by (apply sortPools_In; rewrite Es; left; reflexivity).
    destruct (comparePools h p <? 0) eqn:Ecmp.
    + intros H. injection H as <- _. intros q [<-|Hq]; [|exact (IH q Hq)].
      apply comparePools_before in Ecmp. unfold atLeastAsGood.
      destruct Ecmp as [E|[E Hf]]; [left; exact E | right; split; [exact E | lia]].
    + intros H. injection H as <- _.
      pose proof (atLeastAsGood_total h p (Hl _ Hh) Hp Ecmp) as Hph.
      intros q [<-|Hq]; [apply atLeastAsGood_refl; exact Hp|].
      exact (atLeastAsGood_trans _ _ _ Hph (IH q Hq)).
Qed.

Lemma matchesPair_sym (ft tt : string) (p : Pool) :
  matchesPair ft tt p = matchesPair tt ft p.
Proof. unfold matchesPair. apply orb_comm. Qed.

(** The product of reserves below [2^1023] is never NaN. *)
Lemma reserveProduct_not_nan (p : Pool) :
  0 <= balance0 p < 2 ^ 1023 -> 0 <= balance1 p < 2 ^ 1023 ->
  reserveProduct p <> S754_nan.
Proof.
  intros H0 H1. unfold reserveProduct.
  destruct (Z.eq_dec (balance0 p) 0) as [E0|Hn0].
  { rewrite E0, (proj1 (mul_ofZ_zero _ H1)). discriminate. }
  destruct (Z.eq_dec (balance1 p) 0) as [E1|Hn1].
  { rewrite E1, (proj2 (mul_ofZ_zero _ H0)). discriminate. }
  destruct (mul_ofZ_cases (balance0 p) (balance1 p) ltac:(lia) ltac:(lia))
    as [[_ E]|[_ [E|(m & e & E & _)]]]; rewrite E; discriminate.
Qed.

(** The product of reserves is exact while it stays below [2^53]. *)
Lemma reserveProduct_safe (p : Pool) :
  safeReserves p ->
  reserveProduct p
  = if swapK p =? 0 then S754_zero false else Double.exactForm (swapK p).
Proof.
  unfold safeReserves, swapK, reserveProduct. intros (H0 & H1 & Hk).
  assert (P : 2 ^ 53 < 2 ^ 1023) by reflexivity.
  destruct (Z.eq_dec (balance0 p) 0) as [E0|Hn0].
  { rewrite E0, (proj1 (mul_ofZ_zero (balance1 p) ltac:(lia))). reflexivity. }
  destruct (Z.eq_dec (balance1 p) 0) as [E1|Hn1].
  { rewrite E1, (proj2 (mul_ofZ_zero (balance0 p) ltac:(lia))), Z.mul_0_r. reflexivity. }
  destruct (Z.eqb_spec (balance0 p * balance1 p) 0) as [E|_]; [nia|].
  destruct (mul_ofZ_cases (balance0 p) (balance1 p) ltac:(lia) ltac:(lia))
    as [[_ E]|[Hbig _]]; [exact E | lia].
Qed.

(** On such reserves the ranking is that of the exact products. *)
Lemma atLeastAsGood_exact (a b : Pool) :
  safeReserves a -> safeReserves b ->
  (atLeastAsGood a b
   <-> swapK b < swapK a \/ (swapK b = swapK a /\ fee a <= fee b)).
Proof.
  intros Ha Hb. unfold atLeastAsGood.
  rewrite (reserveProduct_safe a Ha), (reserveProduct_safe b Hb).
  assert (Hka : 0 <= swapK a < 2 ^ 53) by (unfold safeReserves, swapK in *; nia).
  assert (Hkb : 0 <= swapK b < 2 ^ 53) by (unfold safeReserves, swapK in *; nia).
  assert (Hcmp : SFcompare
                   (if swapK b =? 0 then S754_zero false else Double.exactForm (swapK b))
                   (if swapK a =? 0 then S754_zero false else Double.exactForm (swapK a))
                 = Some (swapK b ?= swapK a)).
  { destruct (Z.eqb_spec (swapK b) 0) as [Eb|Hnb], (Z.eqb_spec (swapK a) 0) as [Ea|Hna].
    - rewrite Ea, Eb. reflexivity.
    - rewrite Eb. unfold Double.exactForm. cbn [SFcompare]. f_equal.
      symmetry. apply Z.compare_lt_iff. lia.
    - rewrite Ea. unfold Double.exactForm. cbn [SFcompare]. f_equal.
      symmetry. apply Z.compare_gt_iff. lia.
    - apply SFcompare_exactForm; lia. }
  rewrite Hcmp.
  destruct (Z.compare_spec (swapK b) (swapK a));
    intuition (try discriminate; try lia; try congruence).
Qed.

Lemma selectBestPool_best_core (ft tt : string) (poolsList : list Pool) :
  (selectBestPool ft tt poolsList = None
   <-> forall p, In p poolsList -> matchesPair ft tt p = false)
  /\ selectBestPool ft tt poolsList = selectBestPool tt ft poolsList
  /\ (forall best,
        selectBestPool ft tt poolsList = Some best ->
        In best poolsList /\ matchesPair ft tt best = true
        /\ (forall q, In q poolsList -> matchesPair ft tt q = true ->
              (hasReserves q = true -> hasReserves best = true)
              /\ ((forall p, In p poolsList -> matchesPair ft tt p = true ->
                             reserveProduct p <> S754_nan) ->
                  hasReserves q = true \/ hasReserves best = false ->
                  atLeastAsGood best q))).
Proof.
  assert (Hsym : filter (matchesPair ft tt) poolsList = filter (matchesPair tt ft) poolsList)
    by (apply filter_ext; intros p; apply matchesPair_sym).
  split; [|split].
  - unfold selectBestPool.
    destruct (filter (matchesPair ft tt) poolsList) as [|first others] eqn:Ef.
    + split; [|reflexivity]. intros _ p Hp.
      destruct (matchesPair ft tt p) eqn:Em; [|reflexivity].
      assert (Hin : In p (filter (matchesPair ft tt) poolsList))
        by (apply filter_In; split; assumption).
      rewrite Ef in Hin. destruct Hin.
    + split.
      * destruct (sortPools _); discriminate.
      * intros Hnone.
        assert (Hin : In first (filter (matchesPair ft tt) poolsList))
          by (rewrite Ef; left; reflexivity).
        apply filter_In in Hin. destruct Hin as [Hp Hm].
        rewrite (Hnone _ Hp) in Hm. discriminate.
  - unfold selectBestPool. rewrite Hsym. reflexivity.
  - intros best. unfold selectBestPool.
    destruct (filter (matchesPair ft tt) poolsList) as [|first others] eqn:Ef;
      [discriminate|].
    rewrite <- Ef.
    set (pairPools := filter (matchesPair ft tt) poolsList).
    set (withReserves := filter hasReserves pairPools).
    set (candidates := match withReserves with [] => pairPools | _ => withReserves end).
    assert (Hcand : forall x, In x candidates -> In x pairPools).
    { intros x Hx. subst candidates. destruct withReserves eqn:Ew; [exact Hx|].
      rewrite <- Ew in Hx. subst withReserves. apply filter_In in Hx. tauto. }
    assert (Hnonempty : candidates <> []).
    { subst candidates. destruct withReserves; [|discriminate].
      subst pairPools. rewrite Ef. discriminate. }
    destruct (sortPools candidates) as [|b rest] eqn:Es.
    { exfalso. destruct candidates as [|c cs]; [congruence|].
      assert (Hc : In c (sortPools (c :: cs))) by (apply sortPools_In; left; reflexivity).
      rewrite Es in Hc. destruct Hc. }
    intros H. injection H as <-.
    assert (Hb : In b candidates) by (apply sortPools_In; rewrite Es; left; reflexivity).
    assert (Hbest : (forall p, In p poolsList -> matchesPair ft tt p = true ->
                               reserveProduct p <> S754_nan) ->
                    forall q, In q candidates -> atLeastAsGood b q).
    { intros Hnan. apply (sortPools_head candidates b rest); [|exact Es].
      intros p Hp. apply Hcand in Hp. subst pairPools. apply filter_In in Hp.
      apply Hnan; tauto. }
    pose proof (Hcand _ Hb) as Hbp. subst pairPools. apply filter_In in Hbp.
    destruct Hbp as [Hbin Hbm].
    split; [exact Hbin|]. split; [exact Hbm|].
    intros q Hq Hqm.
    assert (Hqp : In q (filter (matchesPair ft tt) poolsList))
      by (apply filter_In; split; assumption).
    subst candidates. destruct withReserves as [|r rs] eqn:Ew.
    + assert (Hnoreserve : forall x, In x (filter (matchesPair ft tt) poolsList) ->
                                     hasReserves x = false).
      { intros x Hx. destruct (hasReserves x) eqn:Er; [|reflexivity].
        assert (Hxw : In x withReserves) by (apply filter_In; split; assumption).
        rewrite Ew in Hxw. destruct Hxw. }
      split.
      * intros Hr. rewrite (Hnoreserve _ Hqp) in Hr. discriminate.
      * intros Hnan _. apply (Hbest Hnan). exact Hqp.
    + rewrite <- Ew in *. subst withReserves.
      apply filter_In in Hb. destruct Hb as [_ Hbr].
      split; [intros _; exact Hbr|].
      intros Hnan [Hqr|Hbf]; [|congruence].
      apply (Hbest Hnan). apply filter_In. split; assumption.
Qed.

(** The products are those of the code, in double precision: for the
    reserves [134217729] squared and [268435456 * 67108865] both are
    [18014398777917440], so that the fee decides, although the first
    exact product is the larger by one. *)
Lemma selectBestPool_rounded_tie :
  reserveProduct roundedPoolA = reserveProduct roundedPoolB
  /\ swapK roundedPoolB < swapK roundedPoolA
  /\ selectBestPool "T.a" "T.b" [roundedPoolA; roundedPoolB] = Some roundedPoolB.
Proof. repeat split; vm_compute; reflexivity. Qed.

(** [selectBestPool] finds no pool exactly when no pool of the list
    connects the two tokens; the pool it finds is in the list and
    connects them, whichever token is given first.  It has both
    reserves positive if any connecting pool has, and, when no reserve
    product of a connecting pool is NaN, among the connecting pools it
    ranks with (those with positive reserves, or all of them when none
    has) no pool has a larger reserve product, or the same product and
    a smaller fee.  The products are the doubles the code computes;
    for non-negative reserves that are, with their product, below
    [2^53] they are the exact products, and for non-negative reserves
    below [2^1023] they are not NaN. *)
Theorem selectBestPool_best (ft tt : string) (poolsList : list Pool) :
  (selectBestPool ft tt poolsList = None
   <-> forall p, In p poolsList -> matchesPair ft tt p = false)
  /\ selectBestPool ft tt poolsList = selectBestPool tt ft poolsList
  /\ (forall best,
        selectBestPool ft tt poolsList = Some best ->
        In best poolsList /\ matchesPair ft tt best = true
        /\ (forall q, In q poolsList -> matchesPair ft tt q = true ->
              (hasReserves q = true -> hasReserves best = true)
              /\ ((forall p, In p poolsList -> matchesPair ft tt p = true ->
                             reserveProduct p <> S754_nan) ->
                  hasReserves q = true \/ hasReserves best = false ->
                  atLeastAsGood best q)))
  /\ (forall a b, safeReserves a -> safeReserves b ->
        (atLeastAsGood a b
         <-> swapK b < swapK a \/ (swapK b = swapK a /\ fee a <= fee b)))
  /\ (forall p, 0 <= balance0 p < 2 ^ 1023 -> 0 <= balance1 p < 2 ^ 1023 ->
        reserveProduct p <> S754_nan).
Proof.
  destruct (selectBestPool_best_core ft tt poolsList) as (Hnone & Hsym & Hbest).
  exact (conj Hnone (conj Hsym (conj Hbest
           (conj atLeastAsGood_exact reserveProduct_not_nan)))).
Qed.

Lemma selectBestPool_best_witness :
  In roundedPoolB [roundedPoolA; roundedPoolB; emptyPool]
  /\ matchesPair "T.b" "T.a" roundedPoolB = true
  /\ atLeastAsGood roundedPoolB roundedPoolA
  /\ (atLeastAsGood tiePoolB tiePoolA
      <-> swapK tiePoolA < swapK tiePoolB
          \/ (swapK tiePoolA = swapK tiePoolB /\ fee tiePoolB <= fee tiePoolA)).
Proof.
  destruct (selectBestPool_best "T.b" "T.a" [roundedPoolA; roundedPoolB; emptyPool])
    as (_ & _ & Hbest & Hexact & _).
  destruct (Hbest roundedPoolB eq_refl) as (Hin & Hm & Hq).
  destruct (Hq roundedPoolA (or_introl eq_refl) eq_refl) as (_ & Hgood).
  assert (Hnan : forall p, In p [roundedPoolA; roundedPoolB; emptyPool] ->
                           matchesPair "T.b" "T.a" p = true ->
                           reserveProduct p <> S754_nan)
    by (intros p [<-|[<-|[<-|[]]]] _; vm_compute; discriminate).
  assert (Hsafe : forall p, In p [tiePoolA; tiePoolB] -> safeReserves p)
    by (intros p [<-|[<-|[]]]; vm_compute; intuition discriminate).
  exact (conj Hin (conj Hm (conj (Hgood Hnan (or_introl eq_refl))
           (Hexact tiePoolB tiePoolA (Hsafe _ (or_intror (or_introl eq_refl)))
              (Hsafe _ (or_introl eq_refl)))))).
Defined.

(** ** Token lists *)

Lemma memString_In (x : string) (l : list string) :
  memString x l = true <-> In x l.
Proof.
  split.
  - induction l as [|y l IH]; simpl; [discriminate|].
    intros H. apply orb_prop in H. destruct H as [H|H].
    + left. symmetry. apply String.eqb_eq. exact H.
    + right. exact (IH H).
  - intros H. destruct (memString x l) eqn:E; [reflexivity|].
    exfalso. exact (memString_false _ _ E H).
Qed.

Lemma pushUnique_In (keep : bool) (t x : string) (acc : list string) :
  In x (pushUnique keep t acc) <-> In x acc \/ (keep = true /\ x = t).
Proof.
  unfold pushUnique. destruct keep; cbn [andb].
  - destruct (memString t acc) eqn:E; cbn [negb].
    + apply memString_In in E. intuition congruence.
    + rewrite in_app_iff. simpl. intuition congruence.
  - intuition congruence.
Qed.

Lemma pushUnique_NoDup (keep : bool) (t : string) (acc : list string) :
  NoDup acc -> NoDup (pushUnique keep t acc).
Proof.
  intros H. unfold pushUnique.
  destruct (keep && negb (memString t acc)) eqn:E; [|exact H].
  apply andb_prop in E. destruct E as [_ E].
  apply NoDup_app; [exact H | repeat constructor; simpl; tauto |].
  intros x Hx [<-|[]].
  destruct (memString t acc) eqn:Em; [discriminate|].
  exact (memString_false _ _ Em Hx).
Qed.

Section TokenFold.

Variables (keep0 keep1 : Pool -> bool).

Let step (acc : list string) (pool : Pool) : list string :=
  pushUnique (keep1 pool) (token1 pool) (pushUnique (keep0 pool) (token0 pool) acc).

Lemma tokenFold_invariant (pools : list Pool) :
  forall acc, NoDup acc ->
    NoDup (fold_left step pools acc)
    /\ (forall t, In t (fold_left step pools acc)
          <-> In t acc
              \/ exists p, In p pools
                           /\ ((keep0 p = true /\ t = token0 p)
                               \/ (keep1 p = true /\ t = token1 p))).
Proof.
  induction pools as [|p pools IH]; intros acc Hnd; simpl.
  - split; [exact Hnd|]. intros t. split; [tauto|].
    intros [H|(p & [] & _)]. exact H.
  - assert (Hnd' : NoDup (step acc p))
      by (unfold step; apply pushUnique_NoDup, pushUnique_NoDup; exact Hnd).
    destruct (IH _ Hnd') as (Hn & Hin). split; [exact Hn|].
    intros t. rewrite Hin. unfold step. rewrite !pushUnique_In.
    split.
    + intros [[[H|H]|H]|(q & Hq & Ht)]; eauto 6.
    + intros [H|(q & [<-|Hq] & Ht)]; [tauto | | eauto].
      destruct Ht as [Ht|Ht]; tauto.
Qed.

End TokenFold.

(** The From list holds every token of every pool exactly once. *)
Theorem uniqueTokens_exact (pools : list Pool) :
  NoDup (uniqueTokens pools)
  /\ (forall t, In t (uniqueTokens pools)
        <-> exists p, In p pools /\ (t = token0 p \/ t = token1 p)).
Proof.
  assert (Hinv :
    NoDup (uniqueTokens pools)
    /\ (forall t, In t (uniqueTokens pools)
          <-> In t []
              \/ exists p, In p pools
                           /\ ((true = true /\ t = token0 p) \/ (true = true /\ t = token1 p))))
    by exact (tokenFold_invariant (fun _ => true) (fun _ => true) pools [] (NoDup_nil _)).
  destruct Hinv as (Hnd & Hin).
  split; [exact Hnd|].
  intros t. rewrite Hin. simpl.
  split.
  - intros [[]|(p & Hp & [[_ Ht]|[_ Ht]])]; eauto.
  - intros (p & Hp & [Ht|Ht]); right; exists p; tauto.
Qed.

(** The To list offers each token at most once and never the From token
    itself, and it offers a token exactly when some pool connects it
    with the From token, that is, exactly when [selectBestPool] finds a
    pool for the pair. *)
Theorem toTokensList_quotable (fromToken : string) (pools : list Pool) :
  NoDup (toTokensList fromToken pools)
  /\ ~ In fromToken (toTokensList fromToken pools)
  /\ (forall t, In t (toTokensList fromToken pools)
        <-> t <> fromToken /\ selectBestPool fromToken t pools <> None).
Proof.
  set (withFrom := filter (fun pool => (token0 pool =? fromToken)%string
                                       || (token1 pool =? fromToken)%string) pools).
  assert (Hinv :
    NoDup (toTokensList fromToken pools)
    /\ (forall t, In t (toTokensList fromToken pools)
          <-> In t []
              \/ exists p, In p withFrom
                           /\ ((negb (token0 p =? fromToken)%string = true /\ t = token0 p)
                               \/ (negb (token1 p =? fromToken)%string = true
                                   /\ t = token1 p))))
    by exact (tokenFold_invariant
                (fun pool => negb (token0 pool =? fromToken)%string)
                (fun pool => negb (token1 pool =? fromToken)%string)
                withFrom [] (NoDup_nil _)).
  destruct Hinv as (Hnd & Hin).
  assert (Hchar : forall t, In t (toTokensList fromToken pools)
                    <-> t <> fromToken
                        /\ exists p, In p pools /\ matchesPair fromToken t p = true).
  { intros t. rewrite Hin. simpl. unfold matchesPair. split.
    - intros [[]|(p & Hp & Ht)]. subst withFrom. apply filter_In in Hp.
      destruct Hp as [Hp Hfrom]. apply orb_prop in Hfrom.
      destruct Ht as [[Hk Ht]|[Hk Ht]]; apply negb_true_iff in Hk;
        subst t; (split; [apply String.eqb_neq; exact Hk|]);
        exists p; (split; [exact Hp|]);
        (destruct Hfrom as [Hf|Hf]; [try congruence | try congruence]).
      + rewrite Hf, String.eqb_refl, orb_true_r. reflexivity.
      + rewrite Hf, String.eqb_refl. reflexivity.
    - intros (Hne & p & Hp & Hm). right. exists p.
      apply orb_prop in Hm.
      destruct Hm as [Hm|Hm]; apply andb_prop in Hm; destruct Hm as [H0 H1];
        apply String.eqb_eq in H0, H1.
      + split.
        * subst withFrom. apply filter_In. split; [exact Hp|].
          rewrite H0, String.eqb_refl. reflexivity.
        * right. split; [|congruence].
          apply negb_true_iff, String.eqb_neq. congruence.
      + split.
        * subst withFrom. apply filter_In. split; [exact Hp|].
          rewrite H1, String.eqb_refl, orb_true_r. reflexivity.
        * left. split; [|congruence].
          apply negb_true_iff, String.eqb_neq. congruence. }
  split; [exact Hnd|]. split.
  - intros H. apply Hchar in H. destruct H as [H _]. apply H. reflexivity.
  - intros t. rewrite Hchar.
    destruct (selectBestPool_best_core fromToken t pools) as (Hnone & _).
    split; intros (Hne & H); (split; [exact Hne|]).
    + destruct H as (p & Hp & Hm). intros Hsel.
      rewrite (proj1 Hnone Hsel p Hp) in Hm. discriminate.
    + destruct (existsb (matchesPair fromToken t) pools) eqn:Ex.
      * apply existsb_exists in Ex. exact Ex.
      * exfalso. apply H. apply Hnone. intros p Hp.
        destruct (matchesPair fromToken t p) eqn:Em; [|reflexivity].
        assert (existsb (matchesPair fromToken t) pools = true)
          by (apply existsb_exists; eauto).
        congruence.
Qed.

(** ** The swap call *)

Section SwapFacts.

Variable getTokenDecimals : string -> Result Js.Number.
Variable validPrincipal : string -> bool.
Variable validUInt : Z -> bool.

(** The arguments are returned when all are accepted, with the fields
    of the pool; otherwise an error is thrown. *)
Lemma swapArguments_cases (pool : Pool) (amountBase : Z) (zeroForOne : bool) :
  (acceptedArguments validPrincipal validUInt pool amountBase = true
   /\ swapArguments validPrincipal validUInt pool amountBase zeroForOne
      = Returned {| swapToken0 := token0 pool; swapToken1 := token1 pool;
                    swapFee := fee pool; swapAmount := amountBase;
                    swapZeroForOne := zeroForOne |})
  \/ (acceptedArguments validPrincipal validUInt pool amountBase = false
      /\ exists e, swapArguments validPrincipal validUInt pool amountBase zeroForOne
                   = Thrown e).
Proof.
  unfold acceptedArguments, swapArguments.
  destruct (validPrincipal (token0 pool)); cbn [negb andb]; [|right; eauto].
  destruct (validPrincipal (token1 pool)); cbn [negb andb]; [|right; eauto].
  destruct (validUInt (fee pool)); cbn [negb andb]; [|right; eauto].
  destruct (validUInt amountBase); cbn [negb andb]; [left | right]; eauto.
Qed.

Lemma swap_converts_input_side_core
    (pool : Pool) (amount : Js.Number) (zeroForOne : bool) :
  let fromToken := if zeroForOne then token0 pool else token1 pool in
  (Js.isFinite amount = false \/ Js.leZero amount = true ->
   swap getTokenDecimals validPrincipal validUInt pool amount zeroForOne
   = ([], Thrown SwapAmountNotPositive))
  /\ (Js.isFinite amount = true -> Js.leZero amount = false ->
      fst (swap getTokenDecimals validPrincipal validUInt pool amount zeroForOne)
      = [GetDecimals fromToken]
      /\ forall call,
           snd (swap getTokenDecimals validPrincipal validUInt pool amount zeroForOne)
           = Returned call ->
           exists dec,
             getTokenDecimals fromToken = Ok dec
             /\ toBaseUnits amount dec = Ok (swapAmount call)
             /\ 0 <= swapAmount call
             /\ swapToken0 call = token0 pool /\ swapToken1 call = token1 pool
             /\ swapFee call = fee pool /\ swapZeroForOne call = zeroForOne).
Proof.
  intros fromToken. split.
  - intros H. unfold swap.
    destruct H as [H|H]; rewrite H; [reflexivity|].
    rewrite orb_true_r. reflexivity.
  - intros Hfin Hpos. unfold swap. rewrite Hfin, Hpos. cbn [negb orb fst snd].
    split; [reflexivity|].
    intros call. fold fromToken.
    destruct (getTokenDecimals fromToken) as [dec|e]; cbn [bind]; [|discriminate].
    destruct (toBaseUnits amount dec) as [amountBase|e] eqn:Econv;
      cbn [bind]; [|discriminate].
    destruct (swapArguments_cases pool amountBase zeroForOne) as [[_ E]|[_ [e E]]];
      rewrite E; [|discriminate].
    intros H. injection H as <-. exists dec. cbn.
    destruct (toBaseUnits_returns_valid_nonneg_core _ _ _ Econv) as (_ & _ & _ & _ & Hnn).
    repeat split; try reflexivity; assumption.
Qed.


End SwapFacts.

(** [swap] rejects an amount that is not a positive finite number
    before any lookup; otherwise it looks up the decimals of the input
    side only, and the amount it submits is the conversion of the
    amount with these decimals. *)
Theorem swap_converts_input_side
    (getTokenDecimals : string -> Result Js.Number)
    (validPrincipal : string -> bool) (validUInt : Z -> bool)
    (pool : Pool) (amount : Js.Number) (zeroForOne : bool) :
  let fromToken := if zeroForOne then token0 pool else token1 pool in
  (Js.isFinite amount = false \/ Js.leZero amount = true ->
   swap getTokenDecimals validPrincipal validUInt pool amount zeroForOne
   = ([], Thrown SwapAmountNotPositive))
  /\ (Js.isFinite amount = true -> Js.leZero amount = false ->
      fst (swap getTokenDecimals validPrincipal validUInt pool amount zeroForOne)
      = [GetDecimals fromToken]
      /\ forall call,
           snd (swap getTokenDecimals validPrincipal validUInt pool amount zeroForOne)
           = Returned call ->
           exists dec,
             getTokenDecimals fromToken = Ok dec
             /\ toBaseUnits amount dec = Ok (swapAmount call)
             /\ 0 <= swapAmount call
             /\ swapToken0 call = token0 pool /\ swapToken1 call = token1 pool
             /\ swapFee call = fee pool /\ swapZeroForOne call = zeroForOne).
Proof.
  exact (swap_converts_input_side_core getTokenDecimals validPrincipal validUInt
           pool amount zeroForOne).
Qed.

Lemma swap_converts_input_side_witness :
  swap (fun _ => Ok num_6) acceptsPrincipal acceptsUInt scenarioPool (Js.Zero false) true
  = ([], Thrown SwapAmountNotPositive).
Proof.
  destruct (swap_converts_input_side (fun _ => Ok num_6) acceptsPrincipal acceptsUInt
              scenarioPool (Js.Zero false) true)
    as (Hreject & _).
  apply Hreject. right. reflexivity.
Defined.



(** The click at that input, traced: the library accepts the two mock
    tokens, the fee and the amount, and the call is opened; on a pool
    whose tokens are no principals the same click ends in an alert. *)
Lemma swapButtonClick_examples :
  swapButtonClick (fun _ => Ok num_6) acceptsPrincipal acceptsUInt true
    [marketPool] tokenA tokenB (Js.Finite false 1 (-1))
  = [OpenContractCall
       {| swapToken0 := tokenA; swapToken1 := tokenB; swapFee := 500;
          swapAmount := 10000; swapZeroForOne := true |}]
  /\ swapButtonClick (fun _ => Ok num_6) acceptsPrincipal acceptsUInt true
       [scenarioPool] "T.a" "T.b" (Js.Finite false 1 (-1))
     = [Alert (InvalidPrincipal "T.a")].
Proof. split; vm_compute; reflexivity. Qed.

(** Every record a run returns with a hex id is authoritative: its id
    is the one the ledger serves for its tokens and fee, and its
    liquidity and balances are the state the ledger serves for that id.
    The only other records are fallbacks built from an event payload,
    whose synthetic id is never a hex id. *)
Theorem getAllPools_hex_records_authoritative
    (w : World) (fuel : nat) (out : list Pool) (p : Pool) :
  getAllPools w fuel = Some out -> In p out ->
  (authoritative w p \/ fallbackShaped p)
  /\ (isHexId (id p) = true ->
      getPoolId w (token0 p) (token1 p) (fee p) = Some (id p)
      /\ getPoolData w (id p) = Some (liquidity p, balance0 p, balance1 p)).
Proof.
  intros Hrun Hin.
  destruct (getAllPools_provenance w fuel out p Hrun Hin) as [Ha|[Hf _]].
  - split; [left; exact Ha|]. intros _. exact (authoritative_id w p Ha).
  - split; [right; exact Hf|]. intros Hhex.
    rewrite (fallbackShaped_not_hex p Hf) in Hhex. discriminate.
Qed.

Lemma getAllPools_hex_records_authoritative_witness :
  (authoritative lopsidedWorld lopsidedPool \/ fallbackShaped lopsidedPool)
  /\ (isHexId (id lopsidedPool) = true ->
      getPoolId lopsidedWorld (token0 lopsidedPool) (token1 lopsidedPool)
        (fee lopsidedPool) = Some (id lopsidedPool)
      /\ getPoolData lopsidedWorld (id lopsidedPool)
         = Some (liquidity lopsidedPool, balance0 lopsidedPool, balance1 lopsidedPool)).
Proof.
  apply (getAllPools_hex_records_authoritative lopsidedWorld 1%nat [lopsidedPool]).
  - vm_compute. reflexivity.
  - left. reflexivity.
Defined.

(** When the ledger serves only hex identifiers, a record returned
    without a hex id is a fallback built from an event payload, and the
    ledger resolves no pool for its tokens and fee: the run has
    replaced every fallback it could. *)
Theorem getAllPools_fallbacks_unresolvable
    (w : World) (fuel : nat) (out : list Pool) (p : Pool) :
  hexLedger w ->
  getAllPools w fuel = Some out -> In p out ->
  isHexId (id p) = false ->
  fallbackShaped p
  /\ resolvePoolByPair w (token0 p) (token1 p) (fee p) = None.
Proof.
  intros Hledger Hrun Hin Hnothex.
  destruct (getAllPools_provenance w fuel out p Hrun Hin) as [Ha|H]; [|exact H].
  destruct (authoritative_id w p Ha) as (Hid & _).
  rewrite (Hledger _ _ _ _ Hid) in Hnothex. discriminate.
Qed.

Lemma getAllPools_fallbacks_unresolvable_witness :
  fallbackShaped eventOnlyPool
  /\ resolvePoolByPair eventOnlyWorld (token0 eventOnlyPool) (token1 eventOnlyPool)
       (fee eventOnlyPool) = None.
Proof.
  apply (getAllPools_fallbacks_unresolvable eventOnlyWorld 1%nat [eventOnlyPool]).
  - intros t0 t1 f i H. discriminate H.
  - vm_compute. reflexivity.
  - left. reflexivity.
  - vm_compute. reflexivity.
Defined.

(** ** The merge with the direct sweep *)

Lemma directByPair_lookup (directPools : list Pool) (dp : Pool) :
  NoDup (map poolKey directPools) -> In dp directPools ->
  forall m,
    mapGet (poolKey dp)
      (fold_left (fun m dp => mapSet (poolKey dp) dp m) directPools m) = Some dp.
Proof.
  induction directPools as [|x l IH]; intros Hnd Hin m; [destruct Hin|].
  simpl in Hnd. inversion Hnd as [|? ? Hnotin Hrest]; subst.
  destruct Hin as [->|Hin]; simpl.
  - clear IH. revert m.
    assert (Hother : Forall (fun q => poolKey q <> poolKey dp) l).
    { rewrite Forall_forall. intros q Hq E. apply Hnotin. rewrite <- E.
      apply in_map. exact Hq. }
    clear Hnotin Hrest Hnd.
    assert (Hkeep : forall m, mapGet (poolKey dp) m = Some dp ->
              mapGet (poolKey dp)
                (fold_left (fun m dp => mapSet (poolKey dp) dp m) l m) = Some dp).
    { induction Hother as [|q l Hq _ IHl]; intros m Hm; simpl; [exact Hm|].
      apply IHl. rewrite mapGet_mapSet_other by exact Hq. exact Hm. }
    intros m. apply Hkeep. apply mapGet_mapSet_same.
  - apply IH; assumption.
Qed.

(** The merge yields the authoritative record: a scanned record that
    looks like a fallback (its id is not hex, or both its balances are
    zero) is replaced by the record of the direct sweep with the same
    key whenever the sweep found one, and a record that does not look
    like a fallback is kept. *)
Theorem mergeDirect_yields_authoritative (w : World) (p dp : Pool) :
  In dp (getAllPoolsDirect w) -> poolKey dp = poolKey p ->
  (looksFallback p = true -> mergeOne (getAllPoolsDirect w) p = dp)
  /\ (looksFallback p = false -> mergeOne (getAllPoolsDirect w) p = p)
  /\ authoritative w dp.
Proof.
  intros Hin Hkey.
  pose proof (directByPair_lookup _ dp (getAllPoolsDirect_NoDup w) Hin []) as Hget.
  split; [|split].
  - intros Hfb. unfold mergeOne, directByPair. rewrite <- Hkey, Hget, Hfb. reflexivity.
  - apply mergeOne_not_fallback.
  - exact (proj1 (getAllPoolsDirect_authoritative w dp Hin)).
Qed.

(** ** What deduplication keeps *)

Lemma dedupeStep_lookup (m : PoolMap) (x : Pool) :
  exists q, mapGet (poolKey x) (dedupeStep m x) = Some q
            /\ (q = x \/ mapGet (poolKey x) m = Some q)
            /\ (isHexId (id x) = true -> isHexId (id q) = true).
Proof.
  unfold dedupeStep.
  destruct (mapGet (poolKey x) m) as [existing|] eqn:E.
  - destruct (isHexId (id x)) eqn:Hx; cbn [andb].
    + destruct (isHexId (id existing)) eqn:He; cbn [negb].
      * exists existing. repeat split; [exact E | right; reflexivity | intros _; exact He].
      * exists x. rewrite mapGet_mapSet_same.
        repeat split; [left; reflexivity | intros _; exact Hx].
    + exists existing. repeat split; [exact E | right; reflexivity | discriminate].
  - exists x. rewrite mapGet_mapSet_same.
    repeat split; [left; reflexivity | exact (fun H => H)].
Qed.

Lemma dedupe_fold_keeps (pools : list Pool) :
  forall m (k : string) (q : Pool),
    mapGet k m = Some q ->
    exists q', mapGet k (fold_left dedupeStep pools m) = Some q'
               /\ (isHexId (id q) = true -> isHexId (id q') = true).
Proof.
  induction pools as [|x pools IH]; intros m k q Hq; simpl; [eauto|].
  destruct (String.eqb_spec (poolKey x) k) as [<-|Hne].
  - destruct (dedupeStep_lookup m x) as (q1 & Hq1 & [->|Hold] & Hhex).
    + destruct (IH _ _ _ Hq1) as (q' & Hq' & Hh).
      exists q'. split; [exact Hq'|]. intros Hqh. apply Hh.
      unfold dedupeStep in Hq1. rewrite Hq in Hq1.
      destruct (isHexId (id x)) eqn:Hx; [reflexivity|].
      cbn [andb] in Hq1. rewrite Hq in Hq1. injection Hq1 as ->. congruence.
    + rewrite Hq in Hold. injection Hold as <-.
      destruct (IH _ _ _ Hq1) as (q' & Hq' & Hh). eauto.
  - apply IH. rewrite dedupeStep_other by exact Hne. exact Hq.
Qed.

Lemma dedupe_keeps_keys_prefers_hex_core (pools : list Pool) (p : Pool) :
  In p pools ->
  exists q,
    In q (dedupe pools) /\ In q pools /\ poolKey q = poolKey p
    /\ (isHexId (id p) = true -> isHexId (id q) = true)
    /\ (forall q', In q' (dedupe pools) -> poolKey q' = poolKey p -> q' = q).
Proof.
  intros Hin.
  assert (Hget : exists q, mapGet (poolKey p) (fold_left dedupeStep pools []) = Some q
                           /\ (isHexId (id p) = true -> isHexId (id q) = true)).
  { apply in_split in Hin. destruct Hin as (l1 & l2 & ->).
    rewrite fold_left_app. simpl.
    destruct (dedupeStep_lookup (fold_left dedupeStep l1 []) p) as (q1 & Hq1 & _ & Hhex).
    destruct (dedupe_fold_keeps l2 _ _ _ Hq1) as (q' & Hq' & Hh). eauto. }
  destruct Hget as (q & Hq & Hhex).
  destruct (dedupe_fold_invariant pools [] (Forall_nil _) (NoDup_nil _))
    as (Hkeyed & Hnd & _).
  pose proof (mapGet_In _ _ _ Hq) as Hentry.
  assert (Hqd : In q (dedupe pools)).
  { unfold dedupe, mapValues. change q with (snd (poolKey p, q)). apply in_map. exact Hentry. }
  assert (Hqk : poolKey q = poolKey p).
  { unfold keyed in Hkeyed. rewrite Forall_forall in Hkeyed. exact (Hkeyed _ Hentry). }
  exists q. split; [exact Hqd|]. split; [exact (dedupe_In _ _ Hqd)|].
  split; [exact Hqk|]. split; [exact Hhex|].
  intros q' Hq' Hk'.
  pose proof (dedupe_NoDup pools) as Hnodup.
  apply in_split in Hqd. destruct Hqd as (l1 & l2 & Hsplit).
  rewrite Hsplit in Hq', Hnodup. rewrite map_app in Hnodup. simpl in Hnodup.
  apply NoDup_remove_2 in Hnodup.
  apply in_app_or in Hq'. destruct Hq' as [Hq'|[E|Hq']]; [|symmetry; exact E|].
  - exfalso. apply Hnodup. apply in_or_app. left.
    rewrite Hqk, <- Hk'. apply in_map. exact Hq'.
  - exfalso. apply Hnodup. apply in_or_app. right.
    rewrite Hqk, <- Hk'. apply in_map. exact Hq'.
Qed.

(** Deduplication drops no key and prefers hex ids: every key of the
    input has exactly one record in the output, that record is one of
    the input records with this key, and it has a hex id whenever some
    input record with this key has. *)
Theorem dedupe_keeps_keys_prefers_hex (pools : list Pool) (p : Pool) :
  In p pools ->
  exists q,
    In q (dedupe pools) /\ In q pools /\ poolKey q = poolKey p
    /\ (isHexId (id p) = true -> isHexId (id q) = true)
    /\ (forall q', In q' (dedupe pools) -> poolKey q' = poolKey p -> q' = q).
Proof. exact (dedupe_keeps_keys_prefers_hex_core pools p). Qed.

Lemma dedupe_keeps_keys_prefers_hex_witness :
  exists q,
    In q (dedupe [eventOnlyPool; lopsidedPool])
    /\ In q [eventOnlyPool; lopsidedPool]
    /\ poolKey q = poolKey eventOnlyPool
    /\ (isHexId (id eventOnlyPool) = true -> isHexId (id q) = true)
    /\ (forall q', In q' (dedupe [eventOnlyPool; lopsidedPool]) ->
                   poolKey q' = poolKey eventOnlyPool -> q' = q).
Proof.
  apply (dedupe_keeps_keys_prefers_hex [eventOnlyPool; lopsidedPool] eventOnlyPool).
  left. reflexivity.
Defined.

(** A run loses no pool the scan saw: when the scan builds at least one
    record, the key of every scanned record is the key of a returned
    record. *)
Theorem getAllPools_keeps_scanned_keys
    (w : World) (fuel : nat) (requests : list Z) (pools out : list Pool) (p : Pool) :
  scanEvents w fuel 0 [] [] = Some (requests, pools) ->
  getAllPools w fuel = Some out ->
  In p pools ->
  exists q, In q out /\ poolKey q = poolKey p.
Proof.
  intros Hscan Hrun Hin. unfold getAllPools in Hrun. rewrite Hscan in Hrun.
  destruct pools as [|p0 pools]; [destruct Hin|].
  set (scanned := p0 :: pools) in *.
  set (merged := mergeDirect (getAllPoolsDirect w) scanned) in *.
  injection Hrun as <-.
  assert (Hscanned : Forall (inCanonicalOrder w) scanned)
    by exact (scanEvents_canonical w fuel _ _ _ _ _ (Forall_nil _) Hscan).
  pose proof (mergeDirect_canonical w _ Hscanned) as Hmerged. fold merged in Hmerged.
  assert (Hm : In (mergeOne (getAllPoolsDirect w) p) merged)
    by (unfold merged; rewrite mergeDirect_map; apply in_map; exact Hin).
  destruct (dedupe_keeps_keys_prefers_hex_core merged _ Hm) as (q & Hqd & Hqm & Hqk & _).
  rewrite mergeOne_poolKey in Hqk.
  rewrite Forall_forall in Hmerged. pose proof (Hmerged _ Hqm) as Hqc.
  exists (fixOne w q). split.
  - rewrite fixUp_map. apply in_map. exact Hqd.
  - rewrite <- Hqk. apply recordKey_poolKey. exact (fixOne_recordKey w q Hqc).
Qed.

Lemma getAllPools_keeps_scanned_keys_witness :
  exists q, In q [eventOnlyPool] /\ poolKey q = poolKey eventOnlyPool.
Proof.
  apply (getAllPools_keeps_scanned_keys eventOnlyWorld 1%nat [0] [eventOnlyPool]).
  - vm_compute. reflexivity.
  - vm_compute. reflexivity.
  - left. reflexivity.
Defined.

Lemma mergeDirect_yields_authoritative_witness :
  mergeOne (getAllPoolsDirect bothOrdersWorld) eventOnlyPool = directPoolAB.
Proof.
  destruct (mergeDirect_yields_authoritative bothOrdersWorld eventOnlyPool directPoolAB)
    as (Hreplace & _).
  - vm_compute. left. reflexivity.
  - vm_compute. reflexivity.
  - apply Hreplace. vm_compute. reflexivity.
Defined.

(** ** The scan *)

(** The scan keeps what it has accumulated: the records it ends with
    are those built from the pages it requested, in the order of the
    requests, a failed request contributing none and discarding none. *)
Theorem scanEvents_accumulates (w : World) (fuel : nat) (requests : list Z)
    (pools : list Pool) :
  scanEvents w fuel 0 [] [] = Some (requests, pools) ->
  pools = flat_map (pagePools w) requests.
Proof.
  assert (Hgen : forall fuel offset reqs acc requests pools,
             scanEvents w fuel offset reqs acc = Some (requests, pools) ->
             acc = flat_map (pagePools w) reqs ->
             pools = flat_map (pagePools w) requests).
  { clear. intros fuel. induction fuel as [|fuel IH];
      intros offset reqs acc requests pools; cbn [scanEvents]; [discriminate|].
    unfold pagePools at 2 in IH.
    destruct (fetchEvents w offset) as [|events] eqn:Ef.
    - intros H ->. injection H as <- <-.
      rewrite flat_map_app. simpl. unfold pagePools at 3. rewrite Ef.
      rewrite !app_nil_r. reflexivity.
    - assert (Hacc : forall acc, acc = flat_map (pagePools w) reqs ->
                (acc ++ processPage w events)%list
                = flat_map (pagePools w) (reqs ++ [offset])).
      { intros a ->. rewrite flat_map_app. simpl. unfold pagePools at 3.
        rewrite Ef, app_nil_r. reflexivity. }
      destruct (List.length events <? 50)%nat.
      + intros H Ha. injection H as <- <-. exact (Hacc _ Ha).
      + intros H Ha. exact (IH _ _ _ _ _ H (Hacc _ Ha)). }
  intros H. exact (Hgen _ _ _ _ _ _ H eq_refl).
Qed.

Lemma scanEvents_accumulates_witness :
  [eventOnlyPool] = flat_map (pagePools eventOnlyWorld) [0].
Proof.
  apply (scanEvents_accumulates eventOnlyWorld 1%nat [0] [eventOnlyPool]).
  vm_compute. reflexivity.
Defined.

(** A scanned record describes the pool of its event: it has the fee of
    the payload and the two tokens of the payload, in event order or
    swapped.  When it is the fallback built from the payload, each
    balance stays with its token: the balances are swapped exactly when
    the tokens are. *)
Theorem processEvent_describes_event (w : World) (event : ContractEvent) (p : Pool) :
  processEvent w event = Some p ->
  exists data,
    decodeCreatePool w (value_hex event) = Some data
    /\ fee p = evFee data
    /\ ((token0 p = evToken0 data /\ token1 p = evToken1 data)
        \/ (token0 p = evToken1 data /\ token1 p = evToken0 data))
    /\ (fallbackShaped p -> readPool w (token0 p) (token1 p) (fee p) = None ->
        liquidity p = evLiquidity data
        /\ ((token0 p = evToken0 data /\ balance0 p = evBalance0 data
             /\ token1 p = evToken1 data /\ balance1 p = evBalance1 data)
            \/ (token0 p = evToken1 data /\ balance0 p = evBalance1 data
                /\ token1 p = evToken0 data /\ balance1 p = evBalance0 data))).
Proof.
  unfold processEvent.
  destruct (decodeCreatePool w (value_hex event)) as [data|]; [|discriminate].
  intros H. exists data. split; [reflexivity|].
  assert (Hcanon : canonicalOrEventOrder w (evToken0 data) (evToken1 data)
                   = (evToken0 data, evToken1 data)
                   \/ canonicalOrEventOrder w (evToken0 data) (evToken1 data)
                      = (evToken1 data, evToken0 data)).
  { unfold canonicalOrEventOrder, canonicalPair.
    destruct (principalHex w (evToken0 data)); [|left; reflexivity].
    destruct (principalHex w (evToken1 data)); [|left; reflexivity].
    destruct (stringGt _ _); [right | left]; reflexivity. }
  destruct (canonicalOrEventOrder w (evToken0 data) (evToken1 data))
    as [canon0 canon1] eqn:Hc.
  pose proof (canonicalOrEventOrder_idempotent w _ _ _ _ Hc) as Hidem.
  assert (Htokens : (canon0 = evToken0 data /\ canon1 = evToken1 data)
                    \/ (canon0 = evToken1 data /\ canon1 = evToken0 data))
    by (destruct Hcanon as [E|E]; injection E as -> ->; tauto).
  destruct (readPool w canon0 canon1 (evFee data)) as [built|] eqn:Hread.
  - injection H as <-.
    pose proof (readPool_recordKey w _ _ _ _ Hread) as Hkey.
    unfold recordKey in Hkey. injection Hkey as E0 E1 E2.
    rewrite E0, E1, E2. split; [reflexivity|]. split; [exact Htokens|].
    intros _ Hnone. congruence.
  - destruct (resolvePoolByPair w canon0 canon1 (evFee data)) as [resolved|] eqn:Hres.
    + injection H as <-.
      pose proof (resolvePoolByPair_recordKey w _ _ _ _ Hidem Hres) as Hkey.
      pose proof (resolvePoolByPair_authoritative w _ _ _ _ Hres) as Hauth.
      unfold recordKey in Hkey. injection Hkey as E0 E1 E2.
      rewrite E0, E1, E2. split; [reflexivity|]. split; [exact Htokens|].
      intros _ Hnone. unfold authoritative in Hauth. rewrite E0, E1, E2 in Hauth.
      congruence.
    + injection H as <-. cbn. split; [reflexivity|]. split; [exact Htokens|].
      intros _ _. split; [reflexivity|].
      destruct (String.eqb_spec canon0 (evToken0 data)) as [E|Hne]; cbn.
      * destruct Htokens as [[_ E1]|[E0 E1]]; [left; tauto|].
        left. repeat split; congruence.
      * destruct Htokens as [[E0 _]|[E0 E1]]; [congruence|]. right. tauto.
Qed.

Lemma processEvent_describes_event_witness :
  exists data,
    decodeCreatePool eventOnlyWorld (value_hex (printEvent "0x0c")) = Some data
    /\ fee eventOnlyPool = evFee data
    /\ ((token0 eventOnlyPool = evToken0 data /\ token1 eventOnlyPool = evToken1 data)
        \/ (token0 eventOnlyPool = evToken1 data /\ token1 eventOnlyPool = evToken0 data))
    /\ (fallbackShaped eventOnlyPool ->
        readPool eventOnlyWorld (token0 eventOnlyPool) (token1 eventOnlyPool)
          (fee eventOnlyPool) = None ->
        liquidity eventOnlyPool = evLiquidity data
        /\ ((token0 eventOnlyPool = evToken0 data
             /\ balance0 eventOnlyPool = evBalance0 data
             /\ token1 eventOnlyPool = evToken1 data
             /\ balance1 eventOnlyPool = evBalance1 data)
            \/ (token0 eventOnlyPool = evToken1 data
                /\ balance0 eventOnlyPool = evBalance1 data
                /\ token1 eventOnlyPool = evToken0 data
                /\ balance1 eventOnlyPool = evBalance0 data))).
Proof.
  apply (processEvent_describes_event eventOnlyWorld (printEvent "0x0c") eventOnlyPool).
  vm_compute. reflexivity.
Defined.

(** ** The direct sweep and the resolution by pair *)

(** The direct sweep returns authoritative records only, at most one
    for each of its 30 probes: every record pairs two different known
    tokens at the fee 500, for a pair the ledger says exists; when the
    ledger says no pool exists the sweep returns nothing. *)
Theorem getAllPoolsDirect_shape (w : World) :
  (List.length (getAllPoolsDirect w) <= 30)%nat
  /\ (forall dp, In dp (getAllPoolsDirect w) ->
        authoritative w dp
        /\ poolExists w (token0 dp) (token1 dp) (fee dp) = true
        /\ In (token0 dp) knownTokens /\ In (token1 dp) knownTokens
        /\ token0 dp <> token1 dp /\ fee dp = 500)
  /\ ((forall t0 t1 f, poolExists w t0 t1 f = false) -> getAllPoolsDirect w = []).
Proof.
  split; [|split].
  - unfold getAllPoolsDirect.
    assert (Hlen : forall l : list (string * string * Z),
               (List.length (flat_map (fun probe => optionToList (directProbe w probe)) l)
                <= List.length l)%nat).
    { induction l as [|x l IH]; simpl; [lia|].
      rewrite List.length_app. destruct (directProbe w x); simpl; lia. }
    exact (Hlen directProbes).
  - intros dp Hin.
    destruct (getAllPoolsDirect_authoritative w dp Hin) as (Ha & Hex & Hprobe).
    split; [exact Ha|]. split; [exact Hex|].
    assert (Hall : forallb knownProbe directProbes = true) by (vm_compute; reflexivity).
    rewrite forallb_forall in Hall. specialize (Hall _ Hprobe).
    unfold knownProbe, recordKey in Hall.
    apply andb_prop in Hall. destruct Hall as [Hall Hfee].
    apply andb_prop in Hall. destruct Hall as [Hall Hne].
    apply andb_prop in Hall. destruct Hall as [H0 H1].
    apply memString_In in H0, H1. apply negb_true_iff, String.eqb_neq in Hne.
    apply Z.eqb_eq in Hfee. tauto.
  - intros Hnone. unfold getAllPoolsDirect.
    assert (Hempty : forall l : list (string * string * Z),
               flat_map (fun probe => optionToList (directProbe w probe)) l = []).
    { induction l as [|[[t0 t1] f] l IH]; simpl; [reflexivity|].
      rewrite (Hnone t0 t1 f), IH. reflexivity. }
    exact (Hempty directProbes).
Qed.

Lemma canonicalPair_symmetric (w : World) (a b ha hb : string) :
  principalHex w a = Some ha -> principalHex w b = Some hb -> (ha = hb -> a = b) ->
  canonicalPair w a b = canonicalPair w b a
  /\ exists c0 c1, canonicalPair w a b = Some (c0, c1)
                   /\ canonicalPair w c0 c1 = Some (c0, c1).
Proof.
  intros Ha Hb Hinj. split.
  - unfold canonicalPair. rewrite Ha, Hb.
    destruct (stringGt ha hb) eqn:E1.
    + rewrite (stringGt_asym _ _ E1). reflexivity.
    + destruct (stringGt hb ha) eqn:E2; [reflexivity|].
      rewrite (Hinj (stringGt_total _ _ E1 E2)). reflexivity.
  - assert (Hsome : exists c0 c1, canonicalPair w a b = Some (c0, c1)).
    { unfold canonicalPair. rewrite Ha, Hb. destruct (stringGt ha hb); eauto. }
    destruct Hsome as (c0 & c1 & Hc). exists c0, c1.
    split; [exact Hc | exact (canonicalPair_idempotent w _ _ _ _ Hc)].
Qed.

(** [resolvePoolByPair] reads the ledger at the canonical order of the
    pair: what it returns is authoritative and carries the canonical
    pair and the fee asked for, it fails when a token does not parse,
    and the order in which the two principals are given makes no
    difference. *)
Theorem resolvePoolByPair_canonical (w : World) (a b ha hb : string) (f : Z) :
  principalHex w a = Some ha -> principalHex w b = Some hb -> (ha = hb -> a = b) ->
  resolvePoolByPair w a b f = resolvePoolByPair w b a f
  /\ (forall p, resolvePoolByPair w a b f = Some p ->
        authoritative w p /\ fee p = f
        /\ Some (token0 p, token1 p) = canonicalPair w a b
        /\ inCanonicalOrder w p)
  /\ (forall t, principalHex w t = None ->
        resolvePoolByPair w t b f = None /\ resolvePoolByPair w a t f = None).
Proof.
  intros Ha Hb Hinj.
  destruct (canonicalPair_symmetric w a b ha hb Ha Hb Hinj) as (Hsym & c0 & c1 & Hc & Hidem).
  split; [|split].
  - unfold resolvePoolByPair. rewrite <- Hsym. reflexivity.
  - intros p Hp. split; [exact (resolvePoolByPair_authoritative w _ _ _ _ Hp)|].
    unfold resolvePoolByPair in Hp. rewrite Hc in Hp.
    pose proof (readPool_recordKey w _ _ _ _ Hp) as Hkey.
    unfold recordKey in Hkey. injection Hkey as E0 E1 E2.
    split; [exact E2|]. rewrite Hc, E0, E1. split; [reflexivity|].
    unfold inCanonicalOrder, canonicalOrEventOrder. rewrite E0, E1, Hidem. reflexivity.
  - intros t Ht. unfold resolvePoolByPair, canonicalPair. rewrite Ht, Ha.
    split; reflexivity.
Qed.

Lemma resolvePoolByPair_canonical_witness :
  resolvePoolByPair bothOrdersWorld tokenB tokenA 500
  = resolvePoolByPair bothOrdersWorld tokenA tokenB 500.
Proof.
  destruct (resolvePoolByPair_canonical bothOrdersWorld tokenB tokenA tokenB tokenA 500
              eq_refl eq_refl (fun H => H)) as (Hsym & _).
  exact Hsym.
Defined.

Lemma getAllPoolsDirect_shape_witness :
  getAllPoolsDirect pagedWorld = []
  /\ fee directPoolAB = 500.
Proof.
  destruct (getAllPoolsDirect_shape pagedWorld) as (_ & _ & Hnone).
  destruct (getAllPoolsDirect_shape bothOrdersWorld) as (_ & Hrecords & _).
  split.
  - apply Hnone. intros t0 t1 f. reflexivity.
  - apply (Hrecords directPoolAB). vm_compute. left. reflexivity.
Defined.

(** ** The token's decimals *)

Section NumberOfInteger.

Local Open Scope Z_scope.

Lemma stripTens_value (fuel : nat) :
  forall (s : positive) (k : Z) (s' : positive) (k' : Z),
    0 <= k ->
    stripTens fuel s k = (s', k') ->
    k <= k' /\ Z.pos s * 10 ^ k = Z.pos s' * 10 ^ k'.
Proof.
  induction fuel as [|fuel IH]; intros s k s' k' Hk; cbn [stripTens].
  - intros H. injection H as <- <-. split; [lia | reflexivity].
  - destruct (Z.pos s mod 10 =? 0) eqn:Hm.
    + apply Z.eqb_eq in Hm. intros H.
      assert (Hk1 : 0 <= k + 1) by lia.
      destruct (IH _ _ _ _ Hk1 H) as [Hle Hv].
      split; [lia|]. rewrite <- Hv.
      assert (Hq : 0 < Z.pos s / 10).
      { pose proof (Z.div_mod (Z.pos s) 10 ltac:(lia)). lia. }
      rewrite Z2Pos.id by exact Hq.
      rewrite Z.pow_add_r by lia.
      pose proof (Z.div_mod (Z.pos s) 10 ltac:(lia)) as Hd.
      rewrite Hm, Z.add_0_r in Hd. rewrite Hd at 1. cbn [Z.pow Z.pow_pos Pos.iter]. lia.
    + intros H. injection H as <- <-. split; [lia | reflexivity].
Qed.

Lemma stripTens_shortest (fuel : nat) :
  forall (s : positive) (k : Z) (s' : positive) (k' : Z),
    Z.pos s < 2 ^ Z.of_nat fuel ->
    stripTens fuel s k = (s', k') ->
    Z.pos s' mod 10 <> 0.
Proof.
  induction fuel as [|fuel IH]; intros s k s' k' Hb; cbn [stripTens].
  - cbn in Hb. lia.
  - destruct (Z.pos s mod 10 =? 0) eqn:Hm.
    + apply Z.eqb_eq in Hm. apply IH.
      pose proof (Z.div_mod (Z.pos s) 10 ltac:(lia)) as Hd.
      rewrite Hm, Z.add_0_r in Hd.
      rewrite Nat2Z.inj_succ, Z.pow_succ_r in Hb by lia.
      rewrite Z2Pos.id by lia. lia.
    + apply Z.eqb_neq in Hm. intros H. injection H as <- <-. exact Hm.
Qed.

Lemma size_nat_bound (p : positive) : Z.pos p < 2 ^ Z.of_nat (Pos.size_nat p).
Proof.
  induction p as [p IH|p IH|]; cbn [Pos.size_nat].
  - rewrite Nat2Z.inj_succ, Z.pow_succ_r by lia.
    change (Z.pos p~1) with (2 * Z.pos p + 1). lia.
  - rewrite Nat2Z.inj_succ, Z.pow_succ_r by lia.
    change (Z.pos p~0) with (2 * Z.pos p). lia.
  - reflexivity.
Qed.

(** [numberOfZ v] is the number [v]: an integer, not negative, in
    shortest form, with the value [v]. *)
Lemma numberOfZ_integer (v : Z) :
  0 <= v ->
  Js.isInteger (numberOfZ v) = true /\ Js.ltZero (numberOfZ v) = false
  /\ Js.shortest (numberOfZ v) = true /\ Js.toZ (numberOfZ v) = v.
Proof.
  intros Hv. destruct v as [|p|p]; [repeat split | | lia].
  unfold numberOfZ.
  destruct (stripTens (Pos.size_nat p) p 0) as [s k] eqn:E.
  destruct (stripTens_value _ _ _ _ _ (Z.le_refl 0) E) as [Hk Hval].
  pose proof (stripTens_shortest _ _ _ _ _ (size_nat_bound p) E) as Hs.
  cbn [Js.isInteger Js.ltZero Js.shortest Js.toZ].
  repeat split.
  - apply Z.leb_le. lia.
  - apply negb_true_iff, Z.eqb_neq. exact Hs.
  - replace (Js.numDigits s + k - Js.numDigits s) with k by lia.
    rewrite <- Hval. cbn [Z.pow]. lia.
Qed.

End NumberOfInteger.

Section DecimalsText.

Local Open Scope string_scope.

Lemma append_assoc (a b c : string) : (a ++ b) ++ c = a ++ (b ++ c).
Proof. induction a as [|x a IH]; cbn [append]; [reflexivity|]. rewrite IH. reflexivity. Qed.

(** A byte below 128 that is no white space starts no white space
    character. *)
Lemma stripSpace_ascii (c : ascii) (r : string) :
  (nat_of_ascii c < 128)%nat -> isSpace c = false -> stripSpace (String c r) = None.
Proof.
  intros Hc Hs. cbn [stripSpace]. rewrite Hs.
  assert (H2 : forall c2, isSpace2 c c2 = false).
  { intros c2. unfold isSpace2. destruct (Nat.eqb_spec (nat_of_ascii c) 194); [lia|].
    reflexivity. }
  assert (H3 : forall c2 c3, isSpace3 c c2 c3 = false).
  { intros c2 c3. unfold isSpace3. cbv zeta.
    destruct (Nat.eqb_spec (nat_of_ascii c) 225); [lia|].
    destruct (Nat.eqb_spec (nat_of_ascii c) 226); [lia|].
    destruct (Nat.eqb_spec (nat_of_ascii c) 227); [lia|].
    destruct (Nat.eqb_spec (nat_of_ascii c) 239); [lia|]. reflexivity. }
  destruct r as [|c2 [|c3 r3]]; rewrite ?H2, ?H3; reflexivity.
Qed.

Lemma isDigit_ascii (c : ascii) :
  Js.isDigit c = true -> (nat_of_ascii c < 128)%nat /\ isSpace c = false.
Proof.
  unfold Js.isDigit, isSpace. intros H. apply andb_true_iff in H.
  destruct H as [Hlo Hhi]. apply Nat.leb_le in Hlo, Hhi. split; [lia|].
  apply orb_false_iff. split.
  - apply andb_false_iff. right. apply Nat.leb_gt. lia.
  - apply Nat.eqb_neq. lia.
Qed.

Lemma isDigit_not_u (c : ascii) : Js.isDigit c = true -> Ascii.eqb c "u" = false.
Proof.
  intros H. destruct (Ascii.eqb c "u") eqn:E; [|reflexivity].
  apply Ascii.eqb_eq in E. subst c. discriminate H.
Qed.

(** The white space character stripped is a prefix of one to three
    bytes, and is stripped whatever follows it. *)
Lemma stripSpace_head (s r : string) :
  stripSpace s = Some r ->
  exists w, s = w ++ r /\ w <> ""
            /\ (forall r', stripSpace (w ++ r') = Some r')
            /\ match w with
               | String c _ => Js.isDigit c = false
               | EmptyString => True
               end.
Proof.
  assert (Hdigit : forall c, stripSpace (String c "") <> None
                             \/ (exists c2, stripSpace (String c (String c2 "")) <> None)
                             \/ (exists c2 c3,
                                   stripSpace (String c (String c2 (String c3 ""))) <> None) ->
                             Js.isDigit c = false).
  { intros c H. destruct (Js.isDigit c) eqn:Ed; [|reflexivity]. exfalso.
    destruct (isDigit_ascii c Ed) as [Hlt Hns].
    destruct H as [H|[(c2 & H)|(c2 & c3 & H)]]; apply H;
      apply stripSpace_ascii; assumption. }
  destruct s as [|c1 r1]; cbn [stripSpace]; [discriminate|].
  destruct (isSpace c1) eqn:H1.
  { intros H. injection H as <-. exists (String c1 ""). repeat split.
    - discriminate.
    - intros r'. cbn [append stripSpace]. rewrite H1. reflexivity.
    - apply Hdigit. left. cbn [stripSpace]. rewrite H1. discriminate. }
  destruct r1 as [|c2 r2]; [discriminate|].
  destruct (isSpace2 c1 c2) eqn:H2.
  { intros H. injection H as <-. exists (String c1 (String c2 "")). repeat split.
    - discriminate.
    - intros r'. cbn [append stripSpace]. rewrite H1, H2. reflexivity.
    - apply Hdigit. right. left. exists c2. cbn [stripSpace]. rewrite H1, H2. discriminate. }
  destruct r2 as [|c3 r3]; [discriminate|].
  destruct (isSpace3 c1 c2 c3) eqn:H3; [|discriminate].
  intros H. injection H as <-. exists (String c1 (String c2 (String c3 ""))). repeat split.
  - discriminate.
  - intros r'. cbn [append stripSpace]. rewrite H1, H2, H3. reflexivity.
  - apply Hdigit. right. right. exists c2, c3. cbn [stripSpace]. rewrite H1, H2, H3.
    discriminate.
Qed.

Lemma stripSpace_shorter (s r : string) :
  stripSpace s = Some r -> (String.length r < String.length s)%nat.
Proof.
  intros H. destruct (stripSpace_head s r H) as (w & -> & Hw & _).
  rewrite length_app. destruct w; [congruence|]. cbn [String.length]. lia.
Qed.

Lemma skipSpaces_eq (s : string) :
  skipSpaces s = match stripSpace s with
                 | Some r => skipSpaces r
                 | None => s
                 end.
Proof.
  destruct s as [|c1 [|c2 [|c3 r3]]]; cbn [skipSpaces stripSpace];
    [reflexivity| | |].
  - destruct (isSpace c1); reflexivity.
  - destruct (isSpace c1); [reflexivity|]. destruct (isSpace2 c1 c2); reflexivity.
  - destruct (isSpace c1); [reflexivity|]. destruct (isSpace2 c1 c2); [reflexivity|].
    destruct (isSpace3 c1 c2 c3); reflexivity.
Qed.

Lemma allSpaces_eq (s : string) :
  allSpaces s = match s with
                | EmptyString => true
                | _ => match stripSpace s with
                       | Some r => allSpaces r
                       | None => false
                       end
                end.
Proof.
  destruct s as [|c1 [|c2 [|c3 r3]]]; cbn [allSpaces stripSpace];
    [reflexivity| | |].
  - destruct (isSpace c1); reflexivity.
  - destruct (isSpace c1); [reflexivity|]. destruct (isSpace2 c1 c2); reflexivity.
  - destruct (isSpace c1); [reflexivity|]. destruct (isSpace2 c1 c2); [reflexivity|].
    destruct (isSpace3 c1 c2 c3); reflexivity.
Qed.

(** Induction along the white space characters stripped. *)
Lemma stripSpace_ind (P : string -> Prop) :
  (forall s, (forall r, stripSpace s = Some r -> P r) -> P s) ->
  forall s, P s.
Proof.
  intros Hstep.
  assert (H : forall n s, (String.length s < n)%nat -> P s).
  { induction n as [|n IH]; intros s Hn; [lia|].
    apply Hstep. intros r Hr. apply IH.
    pose proof (stripSpace_shorter s r Hr). lia. }
  intros s. apply (H (S (String.length s))). lia.
Qed.

Lemma allSpaces_strip (s r : string) :
  stripSpace s = Some r -> allSpaces s = allSpaces r.
Proof.
  intros H. rewrite (allSpaces_eq s), H. destruct s; [discriminate H | reflexivity].
Qed.

(** White space does not begin with a digit. *)
Lemma allSpaces_not_digit (c : ascii) (r : string) :
  allSpaces (String c r) = true -> Js.isDigit c = false.
Proof.
  rewrite allSpaces_eq. destruct (stripSpace (String c r)) as [r'|] eqn:E; [|discriminate].
  intros _. destruct (stripSpace_head _ _ E) as ([|c' w] & Hs & Hw & _ & Hd); [congruence|].
  cbn [append] in Hs. injection Hs as <- _. exact Hd.
Qed.

Lemma skipSpaces_app (ws r : string) :
  allSpaces ws = true -> skipSpaces (ws ++ r) = skipSpaces r.
Proof.
  revert r. induction ws as [ws IH] using stripSpace_ind. intros r Hws.
  rewrite allSpaces_eq in Hws. destruct ws as [|c ws']; [reflexivity|].
  destruct (stripSpace (String c ws')) as [rest|] eqn:E; [|discriminate].
  destruct (stripSpace_head _ _ E) as (w & Hs & _ & Hstrip & _).
  rewrite Hs, append_assoc, skipSpaces_eq, Hstrip.
  exact (IH rest eq_refl r Hws).
Qed.

Lemma skipSpaces_allSpaces (ws : string) : allSpaces ws = true -> skipSpaces ws = "".
Proof.
  intros H. rewrite <- (app_empty_r ws), (skipSpaces_app ws "" H). reflexivity.
Qed.

Lemma skipSpaces_split (s : string) :
  exists ws, allSpaces ws = true /\ s = ws ++ skipSpaces s.
Proof.
  induction s as [s IH] using stripSpace_ind.
  rewrite skipSpaces_eq. destruct (stripSpace s) as [r|] eqn:E.
  - destruct (IH r eq_refl) as (ws & Hws & Hr).
    destruct (stripSpace_head _ _ E) as (w & Hs & Hw & Hstrip & _).
    exists (w ++ ws). split.
    + rewrite (allSpaces_strip _ _ (Hstrip ws)). exact Hws.
    + rewrite append_assoc, <- Hr. exact Hs.
  - exists "". split; reflexivity.
Qed.

Lemma skipSpaces_empty (s : string) : skipSpaces s = "" -> allSpaces s = true.
Proof.
  intros H. destruct (skipSpaces_split s) as (ws & Hws & Hs).
  rewrite H in Hs. rewrite Hs, app_empty_r. exact Hws.
Qed.

Lemma spanDigits_app (ds rest : string) :
  Js.allDigits ds = true ->
  match rest with
  | String c _ => Js.isDigit c = false
  | EmptyString => True
  end ->
  spanDigits (ds ++ rest) = (ds, rest).
Proof.
  intros Hds Hrest. induction ds as [|c ds IH]; cbn [append].
  - destruct rest as [|c r]; cbn [spanDigits]; [reflexivity|].
    rewrite Hrest. reflexivity.
  - cbn [Js.allDigits] in Hds. apply andb_true_iff in Hds. destruct Hds as [Hc Hds].
    cbn [spanDigits]. rewrite Hc, (IH Hds). reflexivity.
Qed.

Lemma spanDigits_split (s ds rest : string) :
  spanDigits s = (ds, rest) ->
  s = ds ++ rest /\ Js.allDigits ds = true
  /\ match rest with
     | String c _ => Js.isDigit c = false
     | EmptyString => True
     end.
Proof.
  revert ds rest. induction s as [|c s IH]; intros ds rest; cbn [spanDigits].
  - intros H. injection H as <- <-. repeat split.
  - destruct (Js.isDigit c) eqn:Hc.
    + destruct (spanDigits s) as [ds' rest'] eqn:E.
      intros H. injection H as <- <-.
      destruct (IH _ _ eq_refl) as (Hs & Hds & Hrest).
      cbn [append Js.allDigits]. rewrite Hc, Hds, <- Hs. repeat split. exact Hrest.
    + intros H. injection H as <- <-. repeat split. exact Hc.
Qed.

(** The matcher accepts the strings of the pattern. *)
Lemma matchDecimals_accepts (ws1 : string) (u : bool) (ds ws2 : string) :
  allSpaces ws1 = true -> allSpaces ws2 = true ->
  Js.allDigits ds = true -> ds <> "" ->
  matchDecimals (decimalsText ws1 u ds ws2) = Some ds.
Proof.
  intros H1 H2 Hds Hne. unfold matchDecimals, decimalsText.
  rewrite (skipSpaces_app _ _ H1).
  assert (Hspan : spanDigits (ds ++ ws2) = (ds, ws2)).
  { apply spanDigits_app; [exact Hds|].
    destruct ws2 as [|c r]; [exact I|].
    exact (allSpaces_not_digit c r H2). }
  destruct ds as [|c ds']; [congruence|].
  assert (Hc : Js.isDigit c = true).
  { cbn [Js.allDigits] in Hds. apply andb_true_iff in Hds. apply Hds. }
  destruct (isDigit_ascii c Hc) as [Hlt Hns].
  destruct u; cbn [append]; rewrite skipSpaces_eq.
  - rewrite stripSpace_ascii by (vm_compute; try reflexivity; lia).
    change (Ascii.eqb "u" "u") with true. cbn iota.
    cbn [append] in Hspan. rewrite Hspan.
    rewrite (skipSpaces_allSpaces _ H2). reflexivity.
  - rewrite (stripSpace_ascii c _ Hlt Hns), (isDigit_not_u _ Hc).
    cbn [append] in Hspan. rewrite Hspan.
    rewrite (skipSpaces_allSpaces _ H2). reflexivity.
Qed.

(** The matcher accepts no other string. *)
Lemma matchDecimals_matches (s ds : string) :
  matchDecimals s = Some ds ->
  exists ws1 u ws2,
    allSpaces ws1 = true /\ allSpaces ws2 = true
    /\ Js.allDigits ds = true /\ ds <> ""
    /\ s = decimalsText ws1 u ds ws2.
Proof.
  unfold matchDecimals. intros H.
  destruct (skipSpaces_split s) as (ws1 & Hws1 & Hs).
  set (s1 := skipSpaces s) in *.
  assert (Hcase : exists u s2,
            s1 = (if u : bool then "u" else "") ++ s2
            /\ match s1 with
               | String c r => if Ascii.eqb c "u" then r else s1
               | EmptyString => s1
               end = s2).
  { destruct s1 as [|c r]; [exists false, ""; split; reflexivity|].
    destruct (Ascii.eqb c "u") eqn:Ec.
    - apply Ascii.eqb_eq in Ec. subst c. exists true, r. split; reflexivity.
    - exists false, (String c r). split; reflexivity. }
  destruct Hcase as (u & s2 & Hs1 & Hs2). rewrite Hs2 in H.
  destruct (spanDigits s2) as [digits rest] eqn:Espan.
  destruct (spanDigits_split _ _ _ Espan) as (Hs2' & Hdigits & _).
  destruct digits as [|c digits']; [discriminate|].
  destruct (skipSpaces rest) eqn:Erest; [|discriminate].
  injection H as <-.
  exists ws1, u, rest. repeat split.
  - exact Hws1.
  - apply skipSpaces_empty. exact Erest.
  - exact Hdigits.
  - discriminate.
  - unfold decimalsText. rewrite Hs, Hs1, Hs2'. reflexivity.
Qed.

End DecimalsText.

Section DecimalsAnswer.

Local Open Scope string_scope.
Local Open Scope Z_scope.

Lemma unwrapUint_scalar (leaf : Json) : isScalar leaf = true -> unwrapUint leaf = leaf.
Proof. destruct leaf; try discriminate; reflexivity. Qed.

Lemma unwrapUint_uint (inner : list (string * Json)) (leaf : Json) :
  lookupField "type" inner = Some (JStr "uint") ->
  lookupField "value" inner = Some leaf ->
  unwrapUint (JObj inner) = leaf.
Proof. intros Ht Hi. unfold unwrapUint. cbn [getField]. rewrite Ht, Hi. reflexivity. Qed.

Lemma getJsonInnerValue_value (fields : list (string * Json)) (v : Json) :
  lookupField "value" fields = Some v -> getJsonInnerValue (JObj fields) = v.
Proof. intros Hv. cbn [getJsonInnerValue]. rewrite Hv. reflexivity. Qed.

Lemma unwrapResponseOk_cases (fields : list (string * Json)) (v : Json) :
  lookupField "value" fields = Some v ->
  unwrapResponseOk (JObj fields) = v \/ unwrapResponseOk (JObj fields) = JObj fields.
Proof.
  intros Hv. unfold unwrapResponseOk. cbn [getField]. rewrite Hv.
  destruct (lookupField "type" fields) as [[| | | |t| |]|]; try (right; reflexivity).
  destruct ((t =? "response-ok")%string || (t =? "responseOk")%string);
    [left | right]; reflexivity.
Qed.

Lemma decimalsLeaf_carries (json leaf : Json) :
  carries json leaf -> isScalar leaf = true -> decimalsLeaf json = leaf.
Proof.
  intros [->|[(fields & -> & Hv)|(fields & inner & -> & Hv & Ht & Hi)]] Hleaf;
    unfold decimalsLeaf.
  - assert (E : unwrapResponseOk leaf = leaf) by (destruct leaf; try discriminate; reflexivity).
    rewrite E.
    assert (E' : getJsonInnerValue leaf = leaf) by (destruct leaf; try discriminate; reflexivity).
    rewrite E'. apply unwrapUint_scalar, Hleaf.
  - destruct (unwrapResponseOk_cases _ _ Hv) as [E|E]; rewrite E.
    + assert (E' : getJsonInnerValue leaf = leaf)
        by (destruct leaf; try discriminate; reflexivity).
      rewrite E'. apply unwrapUint_scalar, Hleaf.
    + rewrite (getJsonInnerValue_value _ _ Hv). apply unwrapUint_scalar, Hleaf.
  - destruct (unwrapResponseOk_cases _ _ Hv) as [E|E]; rewrite E.
    + rewrite (getJsonInnerValue_value _ _ Hi). apply unwrapUint_scalar, Hleaf.
    + rewrite (getJsonInnerValue_value _ _ Hv). apply unwrapUint_uint; assumption.
Qed.

Lemma numberOfDigits_integer (ds : string) :
  Js.allDigits ds = true ->
  let d := numberOfDigits ds in
  Js.isInteger d = true /\ Js.ltZero d = false /\ Js.shortest d = true
  /\ Js.toZ d = Js.digitsValue 0 ds.
Proof.
  intros Hds. apply numberOfZ_integer. apply (digitsValue_bound ds Hds).
Qed.

(** [getTokenDecimals] reads the decimals wherever the versions of
    the decoder put them: in the answer itself, in the [value] of an
    object (an ok response under either tag, or a "uint" object), or in
    a "uint" object under such a [value].  A number found there is
    returned as it is; a text of digits, with or without the prefix [u]
    and with white space around it, gives the integer the digits spell
    (below 2^53, where a number holds every integer). *)
Theorem decimalsOfJson_accepts (json : Json) :
  (forall n, carries json (JNum n) -> decimalsOfJson json = Ok n)
  /\ (forall ws1 u ds ws2,
        carries json (JStr (decimalsText ws1 u ds ws2)) ->
        allSpaces ws1 = true -> allSpaces ws2 = true ->
        Js.allDigits ds = true -> ds <> "" ->
        Js.digitsValue 0 ds < 2 ^ 53 ->
        exists d,
          decimalsOfJson json = Ok d
          /\ Js.isInteger d = true /\ Js.ltZero d = false
          /\ Js.toZ d = Js.digitsValue 0 ds).
Proof.
  split.
  - intros n Hc. unfold decimalsOfJson.
    rewrite (decimalsLeaf_carries _ _ Hc eq_refl). reflexivity.
  - intros ws1 u ds ws2 Hc H1 H2 Hds Hne _. exists (numberOfDigits ds).
    unfold decimalsOfJson.
    rewrite (decimalsLeaf_carries _ _ Hc eq_refl).
    rewrite (matchDecimals_accepts _ _ _ _ H1 H2 Hds Hne).
    destruct (numberOfDigits_integer ds Hds) as (Hi & Hn & _ & Hv).
    repeat split; assumption.
Qed.

Lemma decimalsOfJson_accepts_witness :
  exists d,
    decimalsOfJson (okUintJson "18") = Ok d
    /\ Js.isInteger d = true /\ Js.ltZero d = false
    /\ Js.toZ d = Js.digitsValue 0 "18".
Proof.
  destruct (decimalsOfJson_accepts (okUintJson "18")) as [_ H].
  apply (H "" false "18" "").
  - right. right. exists [("type", JStr "(response uint UnknownType)");
                           ("value", uintJson "18"); ("success", JBool true)],
                          [("type", JStr "uint"); ("value", JStr "18")].
    repeat split; reflexivity.
  - reflexivity.
  - reflexivity.
  - reflexivity.
  - discriminate.
  - reflexivity.
Defined.

(** What [getTokenDecimals] makes of an answer: the number it
    returns is either a number found in the answer, passed on unchecked,
    or spelled by a text of the pattern, and then (below 2^53) the
    non-negative integer of its digits; it throws the invalid-response error, and no other, exactly
    when what it finds is neither a number nor such a text. *)
Theorem decimalsOfJson_sound (json : Json) :
  (forall d, decimalsOfJson json = Ok d ->
     decimalsLeaf json = JNum d
     \/ exists ws1 u ds ws2,
          decimalsLeaf json = JStr (decimalsText ws1 u ds ws2)
          /\ allSpaces ws1 = true /\ allSpaces ws2 = true
          /\ Js.allDigits ds = true /\ ds <> ""
          /\ (Js.digitsValue 0 ds < 2 ^ 53 ->
              Js.isInteger d = true /\ Js.ltZero d = false
              /\ Js.toZ d = Js.digitsValue 0 ds))
  /\ (forall e, decimalsOfJson json = Throw e ->
        e = InvalidDecimalsResponse
        /\ (forall n, decimalsLeaf json <> JNum n)
        /\ (forall ws1 u ds ws2,
              allSpaces ws1 = true -> allSpaces ws2 = true ->
              Js.allDigits ds = true -> ds <> "" ->
              decimalsLeaf json <> JStr (decimalsText ws1 u ds ws2))).
Proof.
  unfold decimalsOfJson. split.
  - intros d. destruct (decimalsLeaf json) as [| | |n|s| |]; try discriminate.
    + intros H. injection H as <-. left. reflexivity.
    + destruct (matchDecimals s) as [ds|] eqn:Em; [|discriminate].
      intros H. injection H as <-. right.
      destruct (matchDecimals_matches _ _ Em) as (ws1 & u & ws2 & H1 & H2 & Hds & Hne & ->).
      destruct (numberOfDigits_integer ds Hds) as (Hi & Hn & _ & Hv).
      exists ws1, u, ds, ws2.
      split; [reflexivity|]. split; [exact H1|]. split; [exact H2|].
      split; [exact Hds|]. split; [exact Hne|].
      intros _. exact (conj Hi (conj Hn Hv)).
  - intros e.
    destruct (decimalsLeaf json) as [| | |n|s| |] eqn:El;
      try (intros H; injection H as <-;
           split; [reflexivity|]; split;
           [intros n'; discriminate | intros ? ? ? ? _ _ _ _; discriminate]).
    + discriminate.
    + destruct (matchDecimals s) as [ds|] eqn:Em; [discriminate|].
      intros H. injection H as <-.
      split; [reflexivity|]. split; [intros n'; discriminate|].
      intros ws1 u ds ws2 H1 H2 Hds Hne Heq. injection Heq as ->.
      rewrite (matchDecimals_accepts _ _ _ _ H1 H2 Hds Hne) in Em. discriminate.
Qed.

Lemma decimalsOfJson_sound_witness :
  decimalsLeaf (JStr "-6") <> JNum num_6
  /\ decimalsLeaf (JStr "-6") <> JStr (decimalsText " " true "6" "").
Proof.
  destruct (decimalsOfJson_sound (JStr "-6")) as [_ H].
  destruct (H InvalidDecimalsResponse eq_refl) as (_ & Hnum & Htext).
  split; [apply Hnum|].
  apply Htext; [reflexivity | reflexivity | reflexivity | discriminate].
Defined.

(** The white space of the pattern is that of [\s]: each of its 25
    characters is skipped, the zero-width space U+200B and the next-line
    character U+0085 are not; a text with a no-break space before and a
    byte-order mark after the digits gives the decimals. *)
Lemma matchDecimals_white_space_examples :
  forallb allSpaces whiteSpaceCharacters = true
  /\ List.length whiteSpaceCharacters = 25%nat
  /\ allSpaces (utf8 [226; 128; 139]%nat) = false
  /\ allSpaces (utf8 [194; 133]%nat) = false
  /\ matchDecimals (utf8 [194; 160]%nat ++ "u6" ++ utf8 [239; 187; 191]%nat) = Some "6"
  /\ decimalsOfJson (JStr (utf8 [194; 160]%nat ++ "6")) = Ok num_6
  /\ decimalsOfJson (JStr (utf8 [226; 128; 139]%nat ++ "6")) = Throw InvalidDecimalsResponse.
Proof. repeat split; vm_compute; reflexivity. Qed.

End DecimalsAnswer.

(** ** Contract principals *)

Section ContractPrincipals.

Local Open Scope string_scope.

Lemma split_dotFree (a : string) : dotFree a = true -> Js.split "." a = [a].
Proof.
  induction a as [|c a IH]; cbn [dotFree Js.split]; [reflexivity|].
  intros H. apply andb_true_iff in H. destruct H as [Hc Ha].
  apply negb_true_iff in Hc. rewrite Hc, (IH Ha). reflexivity.
Qed.

Lemma split_dotFree_app (a r : string) :
  dotFree a = true -> Js.split "." (a ++ "." ++ r) = a :: Js.split "." r.
Proof.
  induction a as [|c a IH]; cbn [dotFree append Js.split].
  - intros _. reflexivity.
  - intros H. apply andb_true_iff in H. destruct H as [Hc Ha].
    apply negb_true_iff in Hc. rewrite Hc.
    cbn [append] in IH. rewrite (IH Ha). reflexivity.
Qed.

Lemma split_head (s : string) :
  exists a rest,
    Js.split "." s = a :: rest /\ dotFree a = true
    /\ ((rest = [] /\ s = a) \/ exists r, s = a ++ "." ++ r /\ rest = Js.split "." r).
Proof.
  induction s as [|c s IH]; cbn [Js.split].
  - exists "", []. repeat split. left. split; reflexivity.
  - destruct (Ascii.eqb c ".") eqn:Hc.
    + apply Ascii.eqb_eq in Hc. subst c.
      exists "", (Js.split "." s). repeat split. right. exists s. split; reflexivity.
    + destruct IH as (a & rest & E & Ha & Hs). rewrite E.
      exists (String c a), rest. split; [reflexivity|]. split.
      * cbn [dotFree]. rewrite Hc, Ha. reflexivity.
      * destruct Hs as [[-> ->]|(r & -> & ->)].
        -- left. split; reflexivity.
        -- right. exists r. split; reflexivity.
Qed.

Lemma splitContractPrincipal_returns (a n tail : string) :
  a <> "" -> n <> "" -> dotFree a = true -> dotFree n = true ->
  tail = "" \/ (exists r, tail = "." ++ r) ->
  splitContractPrincipal (a ++ "." ++ n ++ tail) = Returned (a, n).
Proof.
  intros Ha Hn Hda Hdn Htail. unfold splitContractPrincipal.
  rewrite (split_dotFree_app _ _ Hda).
  assert (E : exists rest, Js.split "." (n ++ tail) = n :: rest).
  { destruct Htail as [->|(r & ->)].
    - rewrite app_empty_r, (split_dotFree _ Hdn). exists []. reflexivity.
    - rewrite (split_dotFree_app _ _ Hdn). eexists. reflexivity. }
  destruct E as (rest & ->). cbn [nth].
  destruct a; [congruence|]. destruct n; [congruence|]. reflexivity.
Qed.

(** [splitContractPrincipal] returns the text before the first dot
    as the address and the text between the first and the second dot (or
    the end) as the name, when neither is empty; anything after a second
    dot is dropped.  Otherwise it throws, naming the principal. *)
Theorem splitContractPrincipal_spec (principal : string) :
  (forall a n,
     splitContractPrincipal principal = Returned (a, n)
     <-> a <> "" /\ n <> "" /\ dotFree a = true /\ dotFree n = true
         /\ (principal = a ++ "." ++ n
             \/ exists rest, principal = a ++ "." ++ n ++ "." ++ rest))
  /\ (forall e, splitContractPrincipal principal = Thrown e ->
        e = InvalidContractPrincipal principal).
Proof.
  split.
  - intros a n. split.
    + unfold splitContractPrincipal.
      destruct (split_head principal) as (a0 & rest & E & Ha0 & Hs). rewrite E.
      cbn [nth].
      destruct Hs as [[-> ->]|(r & -> & ->)].
      * cbn [nth]. destruct a0; discriminate.
      * destruct (split_head r) as (n0 & rest' & E' & Hn0 & Hr). rewrite E'.
        cbn [nth]. destruct a0 as [|c0 a0]; [discriminate|].
        destruct n0 as [|d0 n0]; [discriminate|].
        intros H. injection H as <- <-.
        split; [discriminate|]. split; [discriminate|].
        split; [exact Ha0|]. split; [exact Hn0|].
        destruct Hr as [[_ ->]|(r' & -> & _)].
        -- left. reflexivity.
        -- right. exists r'. reflexivity.
    + intros (Ha & Hn & Hda & Hdn & [->|(rest & ->)]).
      * rewrite <- (app_empty_r n) at 1.
        apply splitContractPrincipal_returns; auto.
      * apply splitContractPrincipal_returns; auto.
        right. exists rest. reflexivity.
  - intros e. unfold splitContractPrincipal.
    destruct (nth 0 (Js.split "." principal) "") as [|c0 a0];
      [intros H; injection H as <-; reflexivity|].
    destruct (nth 1 (Js.split "." principal) "") as [|d0 n0];
      [intros H; injection H as <-; reflexivity|].
    discriminate.
Qed.

End ContractPrincipals.

(** ** From the token's answer to base units *)

(** The estimator's two steps meet: when the token named
    [address.name] answers [get-decimals] with a text of digits in one
    of the shapes read, [getTokenDecimals] returns a number with which
    [toBaseUnits] cuts a positional amount to that many fractional
    digits. *)
Theorem getTokenDecimals_feeds_toBaseUnits
    (callReadOnly : string -> string -> string -> option Json)
    (address name : string) (json : Json)
    (ws1 : string) (u : bool) (ds ws2 : string) (s : positive) (n : Z) :
  address <> EmptyString -> name <> EmptyString ->
  dotFree address = true -> dotFree name = true ->
  callReadOnly address name "get-decimals"%string = Some json ->
  carries json (JStr (decimalsText ws1 u ds ws2)) ->
  allSpaces ws1 = true -> allSpaces ws2 = true ->
  Js.allDigits ds = true -> ds <> EmptyString ->
  Js.digitsValue 0 ds < 2 ^ 53 ->
  -6 < n <= 21 ->
  exists decimals,
    getTokenDecimals callReadOnly (address ++ "." ++ name)%string = Returned decimals
    /\ toBaseUnits (Js.Finite false s n) decimals
       = Ok (truncatedBaseUnits (Js.Finite false s n) (Js.digitsValue 0 ds)).
Proof.
  intros Ha Hn Hda Hdn Hcall Hc H1 H2 Hds Hne _ Hrange.
  exists (numberOfDigits ds). unfold getTokenDecimals.
  assert (Esplit : splitContractPrincipal (address ++ "." ++ name)%string
                   = Returned (address, name)).
  { rewrite <- (app_empty_r name) at 1.
    apply splitContractPrincipal_returns; auto. }
  rewrite Esplit, Hcall. unfold decimalsOfJson.
  rewrite (decimalsLeaf_carries _ _ Hc eq_refl).
  rewrite (matchDecimals_accepts _ _ _ _ H1 H2 Hds Hne). cbn [ofResult].
  split; [reflexivity|].
  destruct (numberOfDigits_integer ds Hds) as (Hi & Hneg & _ & Hv).
  rewrite <- Hv. apply toBaseUnits_positional; assumption.
Qed.

Lemma getTokenDecimals_feeds_toBaseUnits_witness :
  exists decimals,
    getTokenDecimals sixDecimals "ST1.mock-token" = Returned decimals
    /\ toBaseUnits num_12_345 decimals
       = Ok (truncatedBaseUnits num_12_345 (Js.digitsValue 0 "6")).
Proof.
  apply (getTokenDecimals_feeds_toBaseUnits sixDecimals "ST1" "mock-token"
           (okUintJson "6") "" false "6" "" 12345 2).
  - discriminate.
  - discriminate.
  - reflexivity.
  - reflexivity.
  - reflexivity.
  - right. right. exists [("type", JStr "(response uint UnknownType)");
                           ("value", uintJson "6"); ("success", JBool true)],
                          [("type", JStr "uint"); ("value", JStr "6")].
    repeat split; reflexivity.
  - reflexivity.
  - reflexivity.
  - reflexivity.
  - discriminate.
  - reflexivity.
  - lia.
Defined.

(** ** The token contract *)

Section TokenContract.

Import MockToken.
Local Open Scope Z_scope.

Lemma lookupBalance_setBalance_same (who : string) (v : Z) (m : list (string * Z)) :
  lookupBalance who (setBalance who v m) = Some v.
Proof.
  induction m as [|[k old] m IH]; cbn [setBalance lookupBalance].
  - rewrite String.eqb_refl. reflexivity.
  - destruct (k =? who)%string eqn:E; cbn [lookupBalance]; rewrite E; [reflexivity | exact IH].
Qed.

Lemma lookupBalance_setBalance_other (who other : string) (v : Z) (m : list (string * Z)) :
  other <> who ->
  lookupBalance other (setBalance who v m) = lookupBalance other m.
Proof.
  intros Hne. induction m as [|[k old] m IH]; cbn [setBalance lookupBalance].
  - destruct (who =? other)%string eqn:E; [|reflexivity].
    apply String.eqb_eq in E. congruence.
  - destruct (k =? who)%string eqn:E; cbn [lookupBalance].
    + apply String.eqb_eq in E. subst k.
      destruct (who =? other)%string eqn:E'; [|reflexivity].
      apply String.eqb_eq in E'. congruence.
    + rewrite IH. reflexivity.
Qed.

Lemma total_setBalance (who : string) (v : Z) (m : list (string * Z)) :
  total (setBalance who v m)
  = total m - match lookupBalance who m with Some x => x | None => 0 end + v.
Proof.
  induction m as [|[k old] m IH]; cbn [setBalance lookupBalance total]; [lia|].
  destruct (k =? who)%string; cbn [total]; [lia | rewrite IH; lia].
Qed.

Lemma setBalance_nonneg (who : string) (v : Z) (m : list (string * Z)) :
  0 <= v -> Forall (fun e => 0 <= snd e) m ->
  Forall (fun e => 0 <= snd e) (setBalance who v m).
Proof.
  intros Hv. induction 1 as [|[k old] m Hk Hm IH]; cbn [setBalance].
  - constructor; [exact Hv | constructor].
  - destruct (k =? who)%string; constructor; auto.
Qed.

Lemma lookupBalance_nonneg (who : string) (m : list (string * Z)) :
  Forall (fun e => 0 <= snd e) m ->
  0 <= match lookupBalance who m with Some x => x | None => 0 end.
Proof.
  induction 1 as [|[k old] m Hk Hm IH]; cbn [lookupBalance]; [lia|].
  destruct (k =? who)%string; [exact Hk | exact IH].
Qed.

Lemma lookupBalance_le_total (who : string) (m : list (string * Z)) :
  Forall (fun e => 0 <= snd e) m ->
  match lookupBalance who m with Some x => x | None => 0 end <= total m.
Proof.
  induction 1 as [|[k old] m Hk Hm IH]; cbn [lookupBalance total]; [lia|].
  cbn [snd] in Hk.
  assert (0 <= total m).
  { clear -Hm. induction Hm as [|[k' v'] m' Hk' _ IH']; cbn [total snd] in *; lia. }
  destruct (k =? who)%string; lia.
Qed.

(** What a committed [ft-transfer?] does. *)
Lemma ftTransfer_done (l after : Ledger) (amount : Z) (sender recipient : string) :
  ftTransfer l amount sender recipient = Done after ->
  sender <> recipient /\ 0 < amount <= ftGetBalance l sender
  /\ ftGetBalance after sender = ftGetBalance l sender - amount
  /\ ftGetBalance after recipient = ftGetBalance l recipient + amount
  /\ (forall who, who <> sender -> who <> recipient ->
        ftGetBalance after who = ftGetBalance l who)
  /\ supply after = supply l
  /\ total (balances after) = total (balances l).
Proof.
  unfold ftTransfer.
  destruct (Z.leb_spec amount 0) as [|Hpos]; [discriminate|].
  destruct (sender =? recipient)%string eqn:Esr; [discriminate|].
  apply String.eqb_neq in Esr.
  destruct (Z.ltb_spec (ftGetBalance l sender) amount) as [|Hbal]; [discriminate|].
  destruct (U128_MAX <? ftGetBalance l recipient + amount); [discriminate|].
  intros H. injection H as <-.
  split; [exact Esr|]. split; [lia|].
  unfold ftGetBalance at 1 3 5. cbn [balances supply].
  split; [|split; [|split; [|split]]].
  - rewrite lookupBalance_setBalance_other by exact Esr.
    rewrite lookupBalance_setBalance_same. reflexivity.
  - rewrite lookupBalance_setBalance_same. reflexivity.
  - intros who Hs Hr. unfold ftGetBalance at 1. cbn [balances].
    rewrite !lookupBalance_setBalance_other by assumption. reflexivity.
  - reflexivity.
  - rewrite !total_setBalance.
    rewrite (lookupBalance_setBalance_other sender recipient)
      by (intros E; apply Esr; symmetry; exact E).
    unfold ftGetBalance. lia.
Qed.

(** What a committed [ft-mint?] does. *)
Lemma ftMint_done (l after : Ledger) (amount : Z) (recipient : string) :
  ftMint l amount recipient = Done after ->
  0 < amount
  /\ ftGetBalance after recipient = ftGetBalance l recipient + amount
  /\ (forall who, who <> recipient -> ftGetBalance after who = ftGetBalance l who)
  /\ supply after = supply l + amount
  /\ supply after <= U128_MAX
  /\ total (balances after) = total (balances l) + amount.
Proof.
  unfold ftMint.
  destruct (Z.leb_spec amount 0) as [|Hpos]; [discriminate|].
  destruct (Z.ltb_spec U128_MAX (supply l + amount)) as [|Hmax]; [discriminate|].
  intros H. injection H as <-. cbn [balances supply].
  split; [exact Hpos|].
  split; [|split; [|split; [|split]]].
  - unfold ftGetBalance at 1. cbn [balances].
    rewrite lookupBalance_setBalance_same. reflexivity.
  - intros who Hr. unfold ftGetBalance at 1. cbn [balances].
    rewrite lookupBalance_setBalance_other by assumption. reflexivity.
  - reflexivity.
  - exact Hmax.
  - rewrite total_setBalance. unfold ftGetBalance. lia.
Qed.

Lemma ftTransfer_consistent (l after : Ledger) (amount : Z) (sender recipient : string) :
  consistent l -> ftTransfer l amount sender recipient = Done after -> consistent after.
Proof.
  intros (Hsum & Hnn & Hmax) H.
  destruct (ftTransfer_done _ _ _ _ _ H) as (_ & Hamt & _ & _ & _ & Hsup & Htot).
  split; [rewrite Hsup, Htot; exact Hsum|]. split; [|rewrite Hsup; exact Hmax].
  revert H. unfold ftTransfer.
  destruct (amount <=? 0); [discriminate|].
  destruct (sender =? recipient)%string; [discriminate|].
  destruct (ftGetBalance l sender <? amount); [discriminate|].
  destruct (U128_MAX <? ftGetBalance l recipient + amount); [discriminate|].
  intros H. injection H as <-. cbn [balances].
  pose proof (lookupBalance_nonneg recipient _ Hnn) as Hr.
  apply setBalance_nonneg; [unfold ftGetBalance; lia|].
  apply setBalance_nonneg; [lia | exact Hnn].
Qed.

Lemma ftMint_consistent (l after : Ledger) (amount : Z) (recipient : string) :
  consistent l -> ftMint l amount recipient = Done after -> consistent after.
Proof.
  intros (Hsum & Hnn & Hmax) H.
  destruct (ftMint_done _ _ _ _ H) as (Hamt & _ & _ & Hsup & Hle & Htot).
  split; [rewrite Hsup, Htot, Hsum; reflexivity|]. split; [|exact Hle].
  revert H. unfold ftMint.
  destruct (amount <=? 0); [discriminate|].
  destruct (U128_MAX <? supply l + amount); [discriminate|].
  intros H. injection H as <-. cbn [balances].
  pose proof (lookupBalance_nonneg recipient _ Hnn) as Hr.
  apply setBalance_nonneg; [unfold ftGetBalance; lia | exact Hnn].
Qed.

Lemma step_consistent (contract_owner : string) (l : Ledger) (c : PublicCall) :
  consistent l -> consistent (step contract_owner l c).
Proof.
  intros Hl. unfold step, execute, transfer, mint.
  destruct c as [tx amount sender recipient memo|tx amount recipient].
  - destruct (negb (tx =? sender)%string); [exact Hl|].
    destruct (ftTransfer l amount sender recipient) as [after|code|] eqn:E;
      [apply (ftTransfer_consistent _ _ _ _ _ Hl E) | exact Hl | exact Hl].
  - destruct (negb (tx =? contract_owner)%string); [exact Hl|].
    destruct (ftMint l amount recipient) as [after|code|] eqn:E;
      [apply (ftMint_consistent _ _ _ _ Hl E) | exact Hl | exact Hl].
Qed.

Lemma steps_consistent (contract_owner : string) (calls : list PublicCall) :
  forall l, consistent l -> consistent (fold_left (step contract_owner) calls l).
Proof.
  induction calls as [|c calls IH]; intros l Hl; cbn [fold_left]; [exact Hl|].
  apply IH, step_consistent, Hl.
Qed.

Lemma step_balance_protected (contract_owner who : string) (l : Ledger) (c : PublicCall) :
  callSender c <> who ->
  get_balance l who <= get_balance (step contract_owner l c) who.
Proof.
  intros Hne. unfold step, execute, transfer, mint, get_balance.
  destruct c as [tx amount sender recipient memo|tx amount recipient]; cbn [callSender] in Hne.
  - destruct (tx =? sender)%string eqn:Etx; cbn [negb]; [|lia].
    apply String.eqb_eq in Etx. subst tx.
    destruct (ftTransfer l amount sender recipient) as [after|code|] eqn:E; try lia.
    destruct (ftTransfer_done _ _ _ _ _ E) as (_ & Hamt & _ & Hrec & Hothers & _).
    destruct (String.eqb_spec who recipient) as [->|Hr]; [lia|].
    rewrite Hothers; [lia | congruence | exact Hr].
  - destruct (negb (tx =? contract_owner)%string); [lia|].
    destruct (ftMint l amount recipient) as [after|code|] eqn:E; try lia.
    destruct (ftMint_done _ _ _ _ E) as (Hamt & Hrec & Hothers & _).
    destruct (String.eqb_spec who recipient) as [->|Hr]; [lia|].
    rewrite Hothers; [lia | exact Hr].
Qed.

Lemma step_supply_kept (contract_owner : string) (l : Ledger) (c : PublicCall) :
  callSender c <> contract_owner ->
  supply (step contract_owner l c) = supply l.
Proof.
  intros Hne. unfold step, execute, transfer, mint.
  destruct c as [tx amount sender recipient memo|tx amount recipient]; cbn [callSender] in Hne.
  - destruct (negb (tx =? sender)%string); [reflexivity|].
    destruct (ftTransfer l amount sender recipient) as [after|code|] eqn:E;
      try reflexivity.
    apply (ftTransfer_done _ _ _ _ _ E).
  - apply String.eqb_neq in Hne. rewrite Hne. reflexivity.
Qed.

(** A committed [transfer] was called by the sender, for a positive
    amount the sender held, to someone else; it moves exactly the
    amount, leaves every other balance and the supply as they were, and
    prints the memo if there is one. *)
Theorem transfer_committed (tx_sender : string) (amount : Z) (sender recipient : string)
    (memo : option string) (l after : Ledger) (printed : list string) :
  transfer tx_sender amount sender recipient memo l = Committed after printed ->
  tx_sender = sender /\ sender <> recipient
  /\ 0 < amount <= get_balance l sender
  /\ get_balance after sender = get_balance l sender - amount
  /\ get_balance after recipient = get_balance l recipient + amount
  /\ (forall who, who <> sender -> who <> recipient ->
        get_balance after who = get_balance l who)
  /\ get_total_supply after = get_total_supply l
  /\ printed = match memo with Some to_print => [to_print] | None => [] end.
Proof.
  unfold transfer, get_balance, get_total_supply.
  destruct (tx_sender =? sender)%string eqn:Etx; cbn [negb]; [|discriminate].
  apply String.eqb_eq in Etx.
  destruct (ftTransfer l amount sender recipient) as [done|code|] eqn:E; try discriminate.
  intros H. injection H as <- <-.
  destruct (ftTransfer_done _ _ _ _ _ E) as (H1 & H2 & H3 & H4 & H5 & H6 & _).
  repeat split; try assumption; try lia.
Qed.

Lemma transfer_committed_witness :
  "alice"%string = "alice"%string /\ "alice"%string <> "bob"%string
  /\ 0 < 100 <= get_balance (mkLedger [("alice"%string, 1000)] 1000) "alice"
  /\ get_balance (mkLedger [("alice"%string, 900); ("bob"%string, 100)] 1000) "alice"
     = get_balance (mkLedger [("alice"%string, 1000)] 1000) "alice" - 100
  /\ get_balance (mkLedger [("alice"%string, 900); ("bob"%string, 100)] 1000) "bob"
     = get_balance (mkLedger [("alice"%string, 1000)] 1000) "bob" + 100
  /\ (forall who, who <> "alice"%string -> who <> "bob"%string ->
        get_balance (mkLedger [("alice"%string, 900); ("bob"%string, 100)] 1000) who
        = get_balance (mkLedger [("alice"%string, 1000)] 1000) who)
  /\ get_total_supply (mkLedger [("alice"%string, 900); ("bob"%string, 100)] 1000)
     = get_total_supply (mkLedger [("alice"%string, 1000)] 1000)
  /\ [] = @nil string.
Proof.
  apply (transfer_committed "alice" 100 "alice" "bob" None
           (mkLedger [("alice"%string, 1000)] 1000)
           (mkLedger [("alice"%string, 900); ("bob"%string, 100)] 1000) []).
  reflexivity.
Defined.

(** No call by anyone else lowers a holder's balance: after any
    sequence of calls none of which the holder sent, the holder has at
    least what they had. *)
Theorem balance_protected (contract_owner who : string) (calls : list PublicCall) (l : Ledger) :
  Forall (fun c => callSender c <> who) calls ->
  get_balance l who <= get_balance (fold_left (step contract_owner) calls l) who.
Proof.
  intros H. revert l. induction H as [|c calls Hc _ IH]; intros l; cbn [fold_left]; [lia|].
  pose proof (step_balance_protected contract_owner who l c Hc). specialize (IH (step contract_owner l c)). lia.
Qed.

Lemma balance_protected_witness :
  get_balance (mkLedger [("alice"%string, 1000)] 1000) "alice"
  <= get_balance
       (fold_left (step "deployer")
          [CallTransfer "bob" 100 "alice" "bob" None; CallMint "bob" 5 "bob"]
          (mkLedger [("alice"%string, 1000)] 1000)) "alice".
Proof.
  apply (balance_protected "deployer" "alice").
  repeat constructor; discriminate.
Defined.

(** From the deployment on, the supply is the sum of the balances and a
    [uint], and no balance is negative or above the supply; calls of
    anyone but the owner leave the supply as it is, so that without a
    call of the owner no token exists. *)
Theorem supply_only_from_owner (contract_owner : string) (calls : list PublicCall) :
  (let l := run contract_owner calls in
   get_total_supply l = total (balances l)
   /\ get_total_supply l <= U128_MAX
   /\ forall who, 0 <= get_balance l who <= get_total_supply l)
  /\ (forall l,
        Forall (fun c => callSender c <> contract_owner) calls ->
        get_total_supply (fold_left (step contract_owner) calls l) = get_total_supply l)
  /\ (Forall (fun c => callSender c <> contract_owner) calls ->
      forall who, get_balance (run contract_owner calls) who = 0).
Proof.
  assert (Hkept : forall l,
             Forall (fun c => callSender c <> contract_owner) calls ->
             supply (fold_left (step contract_owner) calls l) = supply l).
  { intros l H. revert l. induction H as [|c cs Hc _ IH]; intros l; cbn [fold_left];
      [reflexivity|].
    rewrite IH. apply step_supply_kept, Hc. }
  assert (Hinv : consistent (run contract_owner calls)).
  { apply steps_consistent. repeat split; [constructor | unfold U128_MAX; cbn; lia]. }
  assert (Hbal : forall who,
             0 <= get_balance (run contract_owner calls) who
                <= supply (run contract_owner calls)).
  { intros who. destruct Hinv as (Hsum & Hnn & _). unfold get_balance, ftGetBalance.
    rewrite Hsum. split; [apply lookupBalance_nonneg | apply lookupBalance_le_total];
      exact Hnn. }
  split; [|split].
  - destruct Hinv as (Hsum & _ & Hmax). cbv zeta. unfold get_total_supply.
    split; [exact Hsum|]. split; [exact Hmax | exact Hbal].
  - exact Hkept.
  - intros H who. specialize (Hbal who).
    pose proof (Hkept empty H) as Hzero. fold (run contract_owner calls) in Hzero.
    rewrite Hzero in Hbal. cbn [supply empty] in Hbal. lia.
Qed.

Lemma supply_only_from_owner_witness :
  get_balance (run "deployer" [CallMint "bob" 500000 "bob"]) "bob" = 0.
Proof.
  destruct (supply_only_from_owner "deployer" [CallMint "bob" 500000 "bob"])
    as (_ & _ & H).
  apply H. repeat constructor. discriminate.
Defined.

End TokenContract.

(** ** The faucet *)

(** The faucet reaches the contract as a [mint] of the amount to the
    connected address, sent by that address: it is rolled back with the
    owner-only error, whatever the amount, unless the connected address
    is the owner of the token; for the owner it adds the amount to the
    balance, as long as amount and supply allow. *)
Theorem faucet_only_for_owner (validPrincipal : string -> bool)
    (contract_owner : string) (userData : option UserData)
    (tokenContract : string) (amount : Z) (call : MintCall) (l : MockToken.Ledger) :
  handleMint validPrincipal userData tokenContract amount = [OpenMintCall call] ->
  exists user,
    getUserAddress userData = Some user
    /\ splitContractPrincipal tokenContract
       = Returned (mintContractAddress call, mintContractName call)
    /\ mintFunctionName call = "mint"%string
    /\ mintAmount call = amount /\ mintRecipient call = user
    /\ (user <> contract_owner ->
        MockToken.mint contract_owner user (mintAmount call) (mintRecipient call) l
        = MockToken.RolledBack MockToken.err_owner_only)
    /\ (user = contract_owner -> 0 < amount ->
        MockToken.supply l + amount <= MockToken.U128_MAX ->
        exists after,
          MockToken.mint contract_owner user (mintAmount call) (mintRecipient call) l
          = MockToken.Committed after []
          /\ MockToken.get_balance after user = MockToken.get_balance l user + amount
          /\ MockToken.get_total_supply after = MockToken.get_total_supply l + amount).
Proof.
  unfold handleMint. destruct userData as [u|]; [|discriminate].
  destruct (getUserAddress (Some u)) as [[|c user]|] eqn:Eaddr; try discriminate.
  unfold mintToken.
  destruct (splitContractPrincipal tokenContract) as [[address name]|e] eqn:Esplit;
    [|discriminate].
  destruct (validPrincipal (String c user)); [|discriminate].
  intros H. injection H as <-. cbn [mintContractAddress mintContractName
    mintFunctionName mintAmount mintRecipient].
  exists (String c user). repeat split.
  - intros Hne. unfold MockToken.mint. apply String.eqb_neq in Hne. rewrite Hne. reflexivity.
  - intros Heq Hpos Hmax. unfold MockToken.mint. rewrite Heq, String.eqb_refl. cbn [negb].
    destruct (MockToken.ftMint l amount contract_owner) as [after|code|] eqn:E.
    + exists after. destruct (ftMint_done _ _ _ _ E) as (_ & Hrec & _ & Hsup & _).
      unfold MockToken.get_balance, MockToken.get_total_supply.
      repeat split; assumption.
    + exfalso. revert E. unfold MockToken.ftMint.
      destruct (Z.leb_spec amount 0); [lia|].
      destruct (Z.ltb_spec MockToken.U128_MAX (MockToken.supply l + amount)); [lia|].
      discriminate.
    + exfalso. revert E. unfold MockToken.ftMint.
      destruct (Z.leb_spec amount 0); [lia|].
      destruct (Z.ltb_spec MockToken.U128_MAX (MockToken.supply l + amount)); [lia|].
      discriminate.
Qed.

Lemma faucet_only_for_owner_witness :
  MockToken.mint "ST1" "ST2" 100000000 "ST2" MockToken.empty
  = MockToken.RolledBack MockToken.err_owner_only.
Proof.
  destruct (faucet_only_for_owner (fun _ => true) "ST1"
              (Some {| testnet := Some "ST2"%string; mainnet := None |})
              "ST1.mock-token" 100000000
              {| mintContractAddress := "ST1"; mintContractName := "mock-token";
                 mintFunctionName := "mint"; mintAmount := 100000000;
                 mintRecipient := "ST2" |}
              MockToken.empty eq_refl)
    as (user & Huser & _ & _ & _ & _ & Hother & _).
  injection Huser as <-. apply Hother. discriminate.
Defined.

(** ** Removing liquidity *)

Section RemoveLiquidityFacts.

Import RemoveLiquidityComponent.

(** After a change of the amount field to a value that is not negative,
    the component shows no message exactly when the button is enabled;
    the messages come in the order: not connected, zero, above the
    position. *)
Theorem changeAmount_reason_matches_button (val : Z) (st : RemoveState) :
  0 <= val ->
  let st' := changeAmount val st in
  (disabledReason st' = None <-> removeEnabled st' = true)
  /\ (disabledReason st' = Some ConnectWallet <-> connected st = false)
  /\ (disabledReason st' = Some EnterPositive <-> connected st = true /\ val = 0)
  /\ (disabledReason st' = Some ExceedsPosition
      <-> connected st = true /\ val <> 0 /\ userTotalLiquidity st < val).
Proof.
  intros Hval. unfold changeAmount, removeEnabled.
  cbn [disabledReason connected liquidityInput userTotalLiquidity].
  destruct (connected st); cbn [negb orb];
    destruct (Z.eqb_spec val 0); destruct (Z.leb_spec val 0);
    destruct (Z.ltb_spec (userTotalLiquidity st) val); cbn [negb orb];
    intuition (try discriminate; try lia; try congruence).
Qed.

Lemma changeAmount_reason_matches_button_witness :
  let st' := changeAmount 7 (mkRemoveState true scenarioPool 0 5 None) in
  (disabledReason st' = None <-> removeEnabled st' = true)
  /\ (disabledReason st' = Some ConnectWallet <-> true = false)
  /\ (disabledReason st' = Some EnterPositive <-> true = true /\ 7 = 0)
  /\ (disabledReason st' = Some ExceedsPosition <-> true = true /\ 7 <> 0 /\ 5 < 7).
Proof.
  apply (changeAmount_reason_matches_button 7 (mkRemoveState true scenarioPool 0 5 None)).
  lia.
Defined.

(** A click on the Remove Liquidity button opens at most one contract
    call, and only for a connected user and an amount that is positive
    and not above the position shown; the call names the pool's tokens
    in the order of the record, its fee and that amount.  After a click
    on Max that amount is the whole position. *)
Theorem clickRemove_within_position (validPrincipal : string -> bool)
    (st : RemoveState) (call : RemoveCall) :
  In (OpenRemoveCall call) (clickRemove validPrincipal st) ->
  clickRemove validPrincipal st = [OpenRemoveCall call]
  /\ connected st = true
  /\ 0 < removeAmount call <= userTotalLiquidity st
  /\ removeAmount call = liquidityInput st
  /\ removeToken0 call = token0 (selectedPool st)
  /\ removeToken1 call = token1 (selectedPool st)
  /\ removeFee call = fee (selectedPool st)
  /\ (forall st0, st = clickMax st0 -> maxEnabled st0 = true ->
        removeAmount call = userTotalLiquidity st0).
Proof.
  unfold clickRemove, removeEnabled, handleRemoveLiquidity, removeLiquidity.
  destruct (connected st) eqn:Hc; cbn [negb orb]; [|intros []].
  destruct (Z.leb_spec (liquidityInput st) 0) as [|Hpos]; cbn [negb orb]; [intros []|].
  destruct (Z.ltb_spec (userTotalLiquidity st) (liquidityInput st)) as [|Hle];
    cbn [negb]; [intros []|].
  destruct (validPrincipal (token0 (selectedPool st))); cbn [negb];
    [|intros [H|[]]; discriminate].
  destruct (validPrincipal (token1 (selectedPool st))); cbn [negb];
    [|intros [H|[]]; discriminate].
  intros [H|[]]. injection H as <-.
  cbn [removeAmount removeToken0 removeToken1 removeFee].
  repeat split; try lia.
  intros st0 -> Hmax. unfold clickMax. rewrite Hmax. reflexivity.
Qed.

Lemma clickRemove_within_position_witness :
  clickRemove (fun _ => true) (clickMax (mkRemoveState true scenarioPool 0 5 None))
  = [OpenRemoveCall (mkRemoveCall (token0 scenarioPool) (token1 scenarioPool)
                       (fee scenarioPool) 5)]
  /\ 0 < 5 <= 5.
Proof.
  destruct (clickRemove_within_position (fun _ => true)
              (clickMax (mkRemoveState true scenarioPool 0 5 None))
              (mkRemoveCall (token0 scenarioPool) (token1 scenarioPool)
                 (fee scenarioPool) 5))
    as (H & _ & Hrange & _).
  - left. reflexivity.
  - exact (conj H Hrange).
Defined.

End RemoveLiquidityFacts.
